(** * ChessFileStorage: the bit-to-move codec of [chess_storage.py]

    A shallow embedding of [encode] and [decode] (src/chess_storage.py) and of
    [to_binary_string] (src/util.py), over an explicit interface for the
    rules engine the code calls (the python-chess [Board]), followed by the
    properties of the codec.

    Conventions.
    - Python [int] is [nat]; the bytes of a file are [Byte.byte].
    - A Python [str] of binary digits is a [bits], a list of the characters
      ["0"] and ["1"]; move names and header values are [string].
    - A slice [l[a:b]] is [slice a b l]; it never raises.
    - An exception is a value of [exn]; a function that can raise returns a
      [result]. *)

From Stdlib Require Import List Arith Lia Bool Ascii String PeanoNat.
From Stdlib.Strings Require Import Byte.
From Stdlib Require Import BinNat BinPos Pnat Nnat DecimalString.
Import ListNotations.

Local Open Scope string_scope.
Local Open Scope list_scope.
Local Open Scope nat_scope.

(** ** Python values *)

Definition bits := list ascii.

Inductive exn : Type :=
| ValueError (msg : string).

Inductive result (A : Type) : Type :=
| Ok (a : A)
| Raise (e : exn).

Arguments Ok {A} a.
Arguments Raise {A} e.

Definition slice {A : Type} (a b : nat) (l : list A) : list A :=
  firstn (b - a) (skipn a l).

Fixpoint bits_eqb (x y : bits) : bool :=
  match x, y with
  | [], [] => true
  | c :: x', d :: y' => Ascii.eqb c d && bits_eqb x' y'
  | _, _ => false
  end.

(** [str(n)] for a natural number. *)
Definition str (n : nat) : string := NilEmpty.string_of_uint (Nat.to_uint n).

(** ** src/util.py *)

Module Util.

Fixpoint pos_digits (p : positive) : bits :=
  match p with
  | xH => ["1"%char]
  | xO q => pos_digits q ++ ["0"%char]
  | xI q => pos_digits q ++ ["1"%char]
  end.

(** [bin(n)[2:]]: the binary digits of [n], most significant first. *)
Definition bin (n : nat) : bits :=
  match N.of_nat n with
  | N0 => ["0"%char]
  | Npos p => pos_digits p
  end.

(** [s.zfill(width)] on a string of digits. *)
Definition zfill (s : bits) (width : nat) : bits :=
  repeat "0"%char (width - List.length s) ++ s.

(** [format(number, f'0{length}b')]: at least [length] digits, never
    truncated. *)
Definition to_binary_string (number length : nat) : bits :=
  zfill (bin number) length.

End Util.

Import Util.

(** [int(s, 2)] on a string of digits; [None] is the [ValueError] python
    raises on an empty string or a character that is not a binary digit. *)
Fixpoint int2_acc (acc : nat) (s : bits) : option nat :=
  match s with
  | [] => Some acc
  | c :: r =>
      if Ascii.eqb c "0" then int2_acc (2 * acc) r
      else if Ascii.eqb c "1" then int2_acc (2 * acc + 1) r
      else None
  end.

Definition int2 (s : bits) : option nat :=
  match s with
  | [] => None
  | _ => int2_acc 0 s
  end.

(** ** A python [dict] from move names to digit strings

    Insertion order is iteration order; assigning to a key that is present
    replaces its value in place. *)

Definition dict := list (string * bits).

Fixpoint dict_set (k : string) (v : bits) (d : dict) : dict :=
  match d with
  | [] => [(k, v)]
  | (k', v') :: r =>
      if String.eqb k' k then (k', v) :: r else (k', v') :: dict_set k v r
  end.

(** ** The rules engine (python-chess [Board]) as an interface

    [legal_moves p] is [[m.uci() for m in board.generate_legal_moves()]];
    [push_uci] applies a move; [start] is [Board()], which [reset()]
    restores. *)

Record RulesEngine : Type := {
  Position : Type;
  start : Position;
  legal_moves : Position -> list string;
  push_uci : Position -> string -> Position;
  is_insufficient_material : Position -> bool;
  can_claim_draw : Position -> bool
}.

(** ** src/chess_storage.py: encode *)

(** A [pgn.Game]: the three headers the code sets and the line added from
    the board's move stack. *)
Record Game : Type := {
  FileType : string;
  FileName : string;
  PartNumber : string;
  mainline : list string
}.

(** The dictionary [encode] returns. [pgn] keeps the games that the code
    joins with a blank line. *)
Record Encoded : Type := {
  pgn : list Game;
  file_name : string;
  pending_game : bool;
  game_count : nat;
  move_counts : list nat
}.

Definition MAX_MOVES_PER_GAME : nat := 100.

Section Encode.

Variable E : RulesEngine.

(** The board of the loop: its position and its [move_stack]. *)
Record Board : Type := {
  position : Position E;
  move_stack : list string
}.

Definition new_board : Board :=
  {| position := start E; move_stack := [] |}.

Definition board_push (b : Board) (m : string) : Board :=
  {| position := push_uci E (position b) m;
     move_stack := move_stack b ++ [m] |}.

Variable file_extension : string.
Variable base_name : string.
Variable file_bytes : list byte.

Definition file_bits_count : nat := List.length file_bytes * 8.

(** The variables of the [while True] loop. *)
Record EncState : Type := {
  output_pgns : list Game;
  file_bit_index : nat;
  chess_board : Board;
  moves_in_current_game : nat
}.

Definition initial_state : EncState :=
  {| output_pgns := [];
     file_bit_index := 0;
     chess_board := new_board;
     moves_in_current_game := 0 |}.

(** Lines 51-56 and 105-110: the game appended when a part is closed. *)
Definition close_game (out : list Game) (b : Board) : Game :=
  {| FileType := file_extension;
     FileName := base_name;
     PartNumber := str (List.length out + 1);
     mainline := move_stack b |}.

(** Lines 62-66. [int(log2(n))] is the integer logarithm: the floating
    point [log2] is exact on the powers of two and the counts are far below
    the range where rounding could reach the next integer. *)
Definition max_binary_length (n_legal index : nat) : nat :=
  Nat.min (Nat.log2 n_legal) (file_bits_count - index).

(** Lines 68-72: the loop that fills [move_bits], with its [break]. *)
Fixpoint fill_move_bits (legal : list string) (index width : nat)
         (move_bits : dict) : dict :=
  match legal with
  | [] => move_bits
  | legal_move :: rest =>
      let move_binary := to_binary_string index width in
      if width <? List.length move_binary then move_bits
      else fill_move_bits rest (S index) width
                          (dict_set legal_move move_binary move_bits)
  end.

Definition build_move_bits (legal : list string) (width : nat) : dict :=
  fill_move_bits legal 0 width [].

(** Lines 75-83. *)
Definition file_chunk_pool (index : nat) : bits :=
  let closest_byte_index := index / 8 in
  List.concat (map (fun b => to_binary_string (Byte.to_nat b) 8)
              (slice closest_byte_index (closest_byte_index + 2) file_bytes)).

Definition next_file_chunk (index width : nat) : bits :=
  slice (index mod 8) (index mod 8 + width) (file_chunk_pool index).

(** Lines 86-91: the first key whose value is the chunk. *)
Fixpoint find_move (move_bits : dict) (chunk : bits) : option string :=
  match move_bits with
  | [] => None
  | (move_uci, move_binary) :: rest =>
      if bits_eqb move_binary chunk then Some move_uci
      else find_move rest chunk
  end.

Inductive Control : Type :=
| Continue (st : EncState)
| Break (st : EncState)
| Throw (e : exn).

(** Lines 99-104, without [eof_reached]. *)
Definition game_over (b : Board) : bool :=
  (List.length (legal_moves E (position b)) <=? 1)
  || is_insufficient_material E (position b)
  || can_claim_draw E (position b).

(** One iteration of the loop, lines 47-115. [log2] of zero raises. *)
Definition loop_body (st : EncState) : Control :=
  let legal := legal_moves E (position (chess_board st)) in
  if MAX_MOVES_PER_GAME <=? moves_in_current_game st then
    Continue {| output_pgns :=
                  output_pgns st
                  ++ [close_game (output_pgns st) (chess_board st)];
                file_bit_index := file_bit_index st;
                chess_board := new_board;
                moves_in_current_game := 0 |}
  else
    match legal with
    | [] => Throw (ValueError "math domain error")
    | _ :: _ =>
        let width :=
          max_binary_length (List.length legal) (file_bit_index st) in
        let move_bits := build_move_bits legal width in
        let chunk := next_file_chunk (file_bit_index st) width in
        let '(board1, moves1) :=
          match find_move move_bits chunk with
          | Some move_uci =>
              (board_push (chess_board st) move_uci,
               moves_in_current_game st + 1)
          | None => (chess_board st, moves_in_current_game st)
          end in
        let index1 := file_bit_index st + width in
        let eof_reached := file_bits_count <=? index1 in
        let st1 :=
          if game_over board1 || eof_reached then
            {| output_pgns :=
                 output_pgns st ++ [close_game (output_pgns st) board1];
               file_bit_index := index1;
               chess_board := new_board;
               moves_in_current_game := 0 |}
          else
            {| output_pgns := output_pgns st;
               file_bit_index := index1;
               chess_board := board1;
               moves_in_current_game := moves1 |} in
        if eof_reached then Break st1 else Continue st1
    end.

(** The loop, run for at most [fuel] iterations; [None] when they do not
    suffice. *)
Fixpoint run_loop (fuel : nat) (st : EncState) : option (result EncState) :=
  match fuel with
  | 0 => None
  | S fuel' =>
      match loop_body st with
      | Continue st' => run_loop fuel' st'
      | Break st' => Some (Ok st')
      | Throw e => Some (Raise e)
      end
  end.

(** The states at the top of the first [fuel] iterations. *)
Fixpoint iterations (fuel : nat) (st : EncState) : list EncState :=
  match fuel with
  | 0 => []
  | S fuel' =>
      st :: match loop_body st with
            | Continue st' => iterations fuel' st'
            | _ => []
            end
  end.

(** Lines 118-124. *)
Definition encode_result (st : EncState) : Encoded :=
  {| pgn := output_pgns st;
     file_name := base_name;
     pending_game := true;
     game_count := List.length (output_pgns st);
     move_counts :=
       map (fun g => List.length (mainline g)) (output_pgns st) |}.

End Encode.

(** [encode], lines 18-124. [file] is what [open(file_path, "rb")] finds:
    [None] when the file does not exist. The extension and the base name
    are the two values the code computes from [file_path]. *)
Definition encode (E : RulesEngine) (file_extension base_name : string)
           (file : option (list byte)) (fuel : nat)
  : option (result Encoded) :=
  match file with
  | None => Some (Raise (ValueError "File not found"))
  | Some file_bytes =>
      if List.length file_bytes =? 0 then
        Some (Raise (ValueError "Error reading file: File is empty"))
      else
        match run_loop E file_extension base_name file_bytes fuel
                       (initial_state E) with
        | None => None
        | Some (Ok st) => Some (Ok (encode_result E base_name st))
        | Some (Raise e) => Some (Raise e)
        end
  end.

(** ** src/chess_storage.py: decode *)

(** The characters [str.split()] treats as separators, among the ASCII
    ones. *)
Definition is_space (c : ascii) : bool :=
  let n := nat_of_ascii c in
  ((9 <=? n) && (n <=? 13)) || ((28 <=? n) && (n <=? 32)).

(** [s.split()]: the maximal runs of characters that are not separators. *)
Fixpoint split_from (cur : string) (s : string) : list string :=
  match s with
  | EmptyString =>
      match cur with EmptyString => [] | _ => [cur] end
  | String c r =>
      if is_space c then
        match cur with
        | EmptyString => split_from EmptyString r
        | _ => cur :: split_from EmptyString r
        end
      else split_from (cur ++ String c EmptyString)%string r
  end.

Definition split (s : string) : list string := split_from EmptyString s.

(** [l.index(x)]: the first position of [x]; [None] is the [ValueError]. *)
Fixpoint index_of (x : string) (l : list string) : option nat :=
  match l with
  | [] => None
  | y :: r =>
      if String.eqb y x then Some 0
      else match index_of x r with
           | Some i => Some (S i)
           | None => None
           end
  end.

Section Decode.

Variable E : RulesEngine.

(** Lines 291-295: whole bytes leave [output_data] for the end of the
    output file. [fuel] bounds the iterations; the length of
    [output_data] is enough. *)
Fixpoint write_bytes (fuel : nat) (output_data : bits) (file : list byte)
  : list byte * result bits :=
  match fuel with
  | 0 => (file, Ok output_data)
  | S fuel' =>
      if 8 <=? List.length output_data then
        let byte_str := slice 0 8 output_data in
        let rest := skipn 8 output_data in
        match int2 byte_str with
        | None => (file, Raise (ValueError "invalid literal for int()"))
        | Some n =>
            match Byte.of_nat n with
            | None =>
                (file, Raise (ValueError "bytes must be in range(0, 256)"))
            | Some b => write_bytes fuel' rest (file ++ [b])
            end
        end
      else (file, Ok output_data)
  end.

(** Lines 272-295: one move of one game. *)
Definition decode_move (board : Position E) (output_data : bits)
           (file : list byte) (move_uci : string)
  : list byte * result (Position E * bits) :=
  let legal_move_ucis := legal_moves E board in
  match index_of move_uci legal_move_ucis with
  | None =>
      (file, Raise (ValueError ("'" ++ move_uci ++ "' is not in list")))
  | Some i =>
      let move_index_binary := bin i in
      let max_binary_length := Nat.log2 (List.length legal_move_ucis) in
      let move_binary := zfill move_index_binary max_binary_length in
      let output_data1 := output_data ++ move_binary in
      let board1 := push_uci E board move_uci in
      match write_bytes (List.length output_data1) output_data1 file with
      | (file1, Ok output_data2) => (file1, Ok (board1, output_data2))
      | (file1, Raise e) => (file1, Raise e)
      end
  end.

(** Lines 271-295: the moves of one game, in order. *)
Fixpoint decode_moves (board : Position E) (output_data : bits)
         (file : list byte) (move_list : list string)
  : list byte * result bits :=
  match move_list with
  | [] => (file, Ok output_data)
  | move_uci :: rest =>
      match decode_move board output_data file move_uci with
      | (file1, Ok (board1, output_data1)) =>
          decode_moves board1 output_data1 file1 rest
      | (file1, Raise e) => (file1, Raise e)
      end
  end.

(** Lines 267-295: every game starts from a new board. *)
Fixpoint decode_games (output_data : bits) (file : list byte)
         (moves_list : list string) : list byte * result bits :=
  match moves_list with
  | [] => (file, Ok output_data)
  | moves :: rest =>
      match decode_moves (start E) output_data file (split moves) with
      | (file1, Ok output_data1) => decode_games output_data1 file1 rest
      | (file1, Raise e) => (file1, Raise e)
      end
  end.

(** [decode], lines 262-313. The first component is the output file when
    the call ends, [file] being its content before; the second what the
    call returns or raises. [response] is the [FileType] header of the
    game exported by the server, [None] when the request fails. Every
    exception is raised again as a [ValueError]. *)
Definition decode (moves_list : list string) (file : list byte)
           (response : option string) : list byte * result string :=
  match decode_games [] file moves_list with
  | (file1, Raise (ValueError msg)) =>
      (file1, Raise (ValueError ("Error decoding PGN: " ++ msg)))
  | (file1, Ok _) =>
      match response with
      | None =>
          (file1,
           Raise (ValueError ("Error decoding PGN: "
                              ++ "Failed to get game metadata from Lichess")))
      | Some file_extension => (file1, Ok file_extension)
      end
  end.

End Decode.

(** src/app.py, lines 27-32: the moves of a played game as [decode]
    receives them. *)
Definition game_moves (g : Game) : string := String.concat " " (mainline g).

(** ** The rules of chess, as the python-chess [Board] plays them

    A model of the part of the library [encode] and [decode] call: the
    position, [generate_legal_moves] in the library's order (pieces from the
    highest square down, then castling, pawn captures, single and double
    advances, en passant; when in check the king's moves first, then the
    moves that capture or block a single checker), [push],
    [is_insufficient_material] and [can_claim_draw]. Squares are numbered
    from a1 = 0 to h8 = 63 and [true] is white, as in the library. The
    library is not part of the repository; the general results above hold
    for any engine with [EngineOK], and this model serves to run the codec
    on games of chess. *)

Module PyChess.

Inductive PieceType : Type := PAWN | KNIGHT | BISHOP | ROOK | QUEEN | KING.

Definition type_eqb (a b : PieceType) : bool :=
  match a, b with
  | PAWN, PAWN | KNIGHT, KNIGHT | BISHOP, BISHOP
  | ROOK, ROOK | QUEEN, QUEEN | KING, KING => true
  | _, _ => false
  end.

Record Piece : Type := { piece_type : PieceType; color : bool }.

Definition piece_eqb (a b : Piece) : bool :=
  type_eqb (piece_type a) (piece_type b) && Bool.eqb (color a) (color b).

Record Move : Type := {
  from_square : nat;
  to_square : nat;
  promotion : option PieceType
}.

(** The state of a board without its stack. [castling_rights] holds the
    squares of the rooks that may still castle. *)
Record State : Type := {
  squares : list (option Piece);
  turn : bool;
  castling_rights : list nat;
  ep_square : option nat;
  halfmove_clock : nat
}.

Definition square_file (sq : nat) : nat := sq mod 8.
Definition square_rank (sq : nat) : nat := sq / 8.
Definition square (file rank : nat) : nat := rank * 8 + file.

Definition distance (a b : nat) : nat := if a <? b then b - a else a - b.

(** The squares in the order of [scan_reversed]. *)
Definition squares_desc : list nat := rev (seq 0 64).

Definition piece_at (sqs : list (option Piece)) (sq : nat) : option Piece :=
  nth sq sqs None.

Definition occupied (sqs : list (option Piece)) (sq : nat) : bool :=
  match piece_at sqs sq with Some _ => true | None => false end.

Definition has_piece (sqs : list (option Piece)) (c : bool) (t : PieceType)
           (sq : nat) : bool :=
  match piece_at sqs sq with
  | Some p => type_eqb (piece_type p) t && Bool.eqb (color p) c
  | None => false
  end.

Definition has_color (sqs : list (option Piece)) (c : bool) (sq : nat)
  : bool :=
  match piece_at sqs sq with
  | Some p => Bool.eqb (color p) c
  | None => false
  end.

Definition toward (x y k : nat) : nat :=
  if x <? y then x + k else if y <? x then x - k else x.

(** The squares strictly between two squares of one rank, file or
    diagonal. *)
Definition between (a b : nat) : list nat :=
  let df := distance (square_file a) (square_file b) in
  let dr := distance (square_rank a) (square_rank b) in
  if (df =? 0) || (dr =? 0) || (df =? dr) then
    map (fun k => square (toward (square_file a) (square_file b) k)
                         (toward (square_rank a) (square_rank b) k))
        (seq 1 (Nat.max df dr - 1))
  else [].

Definition path_clear (occ : nat -> bool) (a b : nat) : bool :=
  forallb (fun s => negb (occ s)) (between a b).

(** Whether a piece on [from] attacks [to], for the occupancy [occ]. *)
Definition attacks (occ : nat -> bool) (p : Piece) (from to : nat) : bool :=
  let df := distance (square_file from) (square_file to) in
  let dr := distance (square_rank from) (square_rank to) in
  let diagonal := (df =? dr) && negb (df =? 0) in
  let straight := xorb (df =? 0) (dr =? 0) in
  match piece_type p with
  | PAWN =>
      (df =? 1)
      && (if color p then square_rank to =? square_rank from + 1
          else square_rank from =? square_rank to + 1)
  | KNIGHT => ((df =? 1) && (dr =? 2)) || ((df =? 2) && (dr =? 1))
  | BISHOP => if diagonal then path_clear occ from to else false
  | ROOK => if straight then path_clear occ from to else false
  | QUEEN => if diagonal || straight then path_clear occ from to else false
  | KING => Nat.max df dr =? 1
  end.

(** [attackers_mask(color, square, occupied)], as a list of squares. *)
Definition attackers (sqs : list (option Piece)) (occ : nat -> bool)
           (c : bool) (sq : nat) : list nat :=
  filter (fun s => match piece_at sqs s with
                   | Some p => Bool.eqb (color p) c && attacks occ p s sq
                   | None => false
                   end)
         squares_desc.

Definition is_attacked_by (sqs : list (option Piece)) (c : bool) (sq : nat)
  : bool :=
  match attackers sqs (occupied sqs) c sq with [] => false | _ => true end.

(** The king of a colour: [msb] of its mask. *)
Definition king (sqs : list (option Piece)) (c : bool) : option nat :=
  find (has_piece sqs c KING) squares_desc.

Fixpoint set_nth {A : Type} (n : nat) (x : A) (l : list A) : list A :=
  match l, n with
  | [], _ => []
  | _ :: r, 0 => x :: r
  | y :: r, S n' => y :: set_nth n' x r
  end.

Definition is_en_passant (st : State) (m : Move) : bool :=
  match ep_square st with
  | Some e =>
      (e =? to_square m)
      && has_piece (squares st) (turn st) PAWN (from_square m)
      && ((distance (to_square m) (from_square m) =? 7)
          || (distance (to_square m) (from_square m) =? 9))
      && negb (occupied (squares st) (to_square m))
  | None => false
  end.

Definition is_castling (st : State) (m : Move) : bool :=
  has_piece (squares st) (turn st) KING (from_square m)
  && (1 <? distance (square_file (from_square m)) (square_file (to_square m))).

Definition is_zeroing (st : State) (m : Move) : bool :=
  has_piece (squares st) (turn st) PAWN (from_square m)
  || has_piece (squares st) (negb (turn st)) PAWN (to_square m)
  || has_piece (squares st) (turn st) PAWN (to_square m)
  || has_piece (squares st) (negb (turn st)) PAWN (from_square m)
  || has_color (squares st) (negb (turn st)) (from_square m)
  || has_color (squares st) (negb (turn st)) (to_square m).

(** The squares after a move: the piece leaves, a pawn taken en passant is
    removed, the rook of a castling king moves, a promoted pawn changes. *)
Definition squares_after (st : State) (m : Move) : list (option Piece) :=
  let sqs := squares st in
  let from := from_square m in
  let to := to_square m in
  match piece_at sqs from with
  | None => sqs
  | Some p =>
      let moved :=
        match promotion m with
        | Some t => {| piece_type := t; color := color p |}
        | None => p
        end in
      let s1 := set_nth to (Some moved) (set_nth from None sqs) in
      if is_en_passant st m then
        set_nth (if turn st then to - 8 else to + 8) None s1
      else if is_castling st m then
        let rank := square_rank from in
        if square_file to <? square_file from then
          set_nth (square 3 rank)
                  (Some {| piece_type := ROOK; color := color p |})
                  (set_nth (square 0 rank) None s1)
        else
          set_nth (square 5 rank)
                  (Some {| piece_type := ROOK; color := color p |})
                  (set_nth (square 7 rank) None s1)
      else s1
  end.

(** [push]: the state after a move. *)
Definition push (st : State) (m : Move) : State :=
  let sqs := squares st in
  let from := from_square m in
  let to := to_square m in
  let is_pawn := has_piece sqs (turn st) PAWN from in
  let is_king := has_piece sqs (turn st) KING from in
  let rights1 :=
    filter (fun r => negb (r =? from) && negb (r =? to)) (castling_rights st) in
  let rights2 :=
    if is_king then
      filter (fun r => negb (square_rank r =? (if turn st then 0 else 7)))
             rights1
    else rights1 in
  let ep :=
    if is_pawn then
      if (to =? from + 16) && (square_rank from =? 1) then Some (from + 8)
      else if (from =? to + 16) && (square_rank from =? 6) then Some (from - 8)
      else None
    else None in
  {| squares := squares_after st m;
     turn := negb (turn st);
     castling_rights := rights2;
     ep_square := ep;
     halfmove_clock := if is_zeroing st m then 0 else halfmove_clock st + 1 |}.

Definition mk (from to : nat) : Move :=
  {| from_square := from; to_square := to; promotion := None |}.

(** A pawn move to [to]: the four promotions on the last rank. *)
Definition pawn_moves (from to : nat) : list Move :=
  if (square_rank to =? 0) || (square_rank to =? 7) then
    map (fun t => {| from_square := from; to_square := to;
                     promotion := Some t |})
        [QUEEN; ROOK; BISHOP; KNIGHT]
  else [mk from to].

Definition generate_pseudo_legal_ep (st : State) (from_mask to_mask : nat -> bool)
  : list Move :=
  match ep_square st with
  | None => []
  | Some e =>
      if negb (to_mask e) || occupied (squares st) e then []
      else
        map (fun from => mk from e)
            (filter (fun from =>
                       has_piece (squares st) (turn st) PAWN from
                       && from_mask from
                       && attacks (occupied (squares st))
                                  {| piece_type := PAWN; color := turn st |}
                                  from e
                       && (square_rank from =? (if turn st then 4 else 3)))
                    squares_desc)
  end.

Definition generate_castling_moves (st : State)
           (from_mask to_mask : nat -> bool) : list Move :=
  let sqs := squares st in
  let us := turn st in
  let backrank := if us then 0 else 7 in
  match find (fun s => has_piece sqs us KING s
                       && (square_rank s =? backrank) && from_mask s)
             (seq 0 64) with
  | None => []
  | Some k =>
      flat_map
        (fun candidate =>
           if existsb (Nat.eqb candidate) (castling_rights st)
              && (square_rank candidate =? backrank) && to_mask candidate
           then
             let a_side := candidate <? k in
             let king_to := square (if a_side then 2 else 6) backrank in
             let rook_to := square (if a_side then 3 else 5) backrank in
             let king_path := between k king_to in
             let rook_path := between candidate rook_to in
             let others s :=
               occupied sqs s && negb (s =? k) && negb (s =? candidate) in
             let occ_no_king s := occupied sqs s && negb (s =? k) in
             let occ_castled s :=
               xorb (xorb (xorb (occupied sqs s) (s =? k)) (s =? candidate))
                    (s =? rook_to) in
             if existsb others (king_path ++ rook_path ++ [king_to; rook_to])
                || existsb (fun s => match attackers sqs occ_no_king (negb us) s
                                     with [] => false | _ => true end)
                           (king_path ++ [k])
                || (match attackers sqs occ_castled (negb us) king_to
                    with [] => false | _ => true end)
             then []
             else [mk k king_to]
           else [])
        squares_desc
  end.

Definition generate_pseudo_legal_moves (st : State)
           (from_mask to_mask : nat -> bool) : list Move :=
  let sqs := squares st in
  let us := turn st in
  let occ := occupied sqs in
  let piece_moves :=
    flat_map
      (fun from =>
         match piece_at sqs from with
         | Some p =>
             if Bool.eqb (color p) us
                && negb (type_eqb (piece_type p) PAWN) && from_mask from
             then
               map (mk from)
                   (filter (fun to => attacks occ p from to
                                      && negb (has_color sqs us to)
                                      && to_mask to)
                           squares_desc)
             else []
         | None => []
         end)
      squares_desc in
  let castling :=
    if existsb (fun s => from_mask s
                         && (has_piece sqs true KING s
                             || has_piece sqs false KING s))
               squares_desc
    then generate_castling_moves st from_mask to_mask else [] in
  let is_pawn s := has_piece sqs us PAWN s && from_mask s in
  let captures :=
    flat_map
      (fun from =>
         if is_pawn from then
           flat_map
             (fun to =>
                if attacks occ {| piece_type := PAWN; color := us |} from to
                   && has_color sqs (negb us) to && to_mask to
                then pawn_moves from to else [])
             squares_desc
         else [])
      squares_desc in
  let single to :=
    negb (occ to)
    && (if us then (8 <=? to) && is_pawn (to - 8)
        else (to + 8 <? 64) && is_pawn (to + 8)) in
  let double to :=
    negb (occ to)
    && (if us then
          (8 <=? to) && single (to - 8)
          && ((square_rank to =? 2) || (square_rank to =? 3))
        else
          (to + 8 <? 64) && single (to + 8)
          && ((square_rank to =? 5) || (square_rank to =? 4))) in
  let singles :=
    flat_map (fun to => if single to && to_mask to
                        then pawn_moves (if us then to - 8 else to + 8) to
                        else [])
             squares_desc in
  let doubles :=
    flat_map (fun to => if double to && to_mask to
                        then [mk (if us then to - 16 else to + 16) to]
                        else [])
             squares_desc in
  if existsb is_pawn squares_desc then
    piece_moves ++ castling ++ captures ++ singles ++ doubles
    ++ generate_pseudo_legal_ep st from_mask to_mask
  else piece_moves ++ castling.

(** A move is safe when it castles or leaves the king of the side that
    moved out of attack. *)
Definition is_safe (st : State) (m : Move) : bool :=
  if is_castling st m then true
  else
    let after := squares_after st m in
    match king after (turn st) with
    | Some k => negb (is_attacked_by after (negb (turn st)) k)
    | None => true
    end.

Definition everywhere (_ : nat) : bool := true.

Definition generate_evasions (st : State) (k : nat) (checkers : list nat)
  : list Move :=
  let sqs := squares st in
  let us := turn st in
  let king_moves :=
    map (mk k)
        (filter (fun to => attacks (occupied sqs)
                                   {| piece_type := KING; color := us |} k to
                           && negb (has_color sqs us to))
                squares_desc) in
  match checkers with
  | [checker] =>
      let target s := (s =? checker) || existsb (Nat.eqb s) (between k checker) in
      let not_king s :=
        negb (has_piece sqs true KING s || has_piece sqs false KING s) in
      let extra :=
        match ep_square st with
        | Some e =>
            if negb (target e)
               && ((if us then e - 8 else e + 8) =? checker)
            then generate_pseudo_legal_ep st everywhere everywhere
            else []
        | None => []
        end in
      king_moves ++ generate_pseudo_legal_moves st not_king target ++ extra
  | _ => king_moves
  end.

Definition generate_legal_moves (st : State) : list Move :=
  match king (squares st) (turn st) with
  | Some k =>
      match attackers (squares st) (occupied (squares st))
                      (negb (turn st)) k with
      | [] =>
          filter (is_safe st)
                 (generate_pseudo_legal_moves st everywhere everywhere)
      | checkers => filter (is_safe st) (generate_evasions st k checkers)
      end
  | None => generate_pseudo_legal_moves st everywhere everywhere
  end.

(** * Names of moves *)

Definition file_names : list string := ["a"; "b"; "c"; "d"; "e"; "f"; "g"; "h"].
Definition rank_names : list string := ["1"; "2"; "3"; "4"; "5"; "6"; "7"; "8"].

Definition square_name (sq : nat) : string :=
  (nth (square_file sq) file_names "" ++ nth (square_rank sq) rank_names "")%string.

Definition piece_symbol (t : PieceType) : string :=
  match t with
  | PAWN => "p" | KNIGHT => "n" | BISHOP => "b"
  | ROOK => "r" | QUEEN => "q" | KING => "k"
  end.

(** [Move.uci()]. *)
Definition uci (m : Move) : string :=
  (square_name (from_square m) ++ square_name (to_square m)
   ++ match promotion m with Some t => piece_symbol t | None => "" end)%string.

(** * Draws *)

Definition count_where (f : nat -> bool) : nat :=
  List.length (filter f squares_desc).

Definition has_insufficient_material (sqs : list (option Piece)) (c : bool)
  : bool :=
  let any t := existsb (has_piece sqs c t) squares_desc in
  let all t := existsb (fun s => has_piece sqs true t s
                                 || has_piece sqs false t s) squares_desc in
  let dark s := Nat.even (square_file s + square_rank s) in
  if any PAWN || any ROOK || any QUEEN then false
  else if any KNIGHT then
    (count_where (has_color sqs c) <=? 2)
    && negb (existsb (fun s => has_color sqs (negb c) s
                               && negb (has_piece sqs (negb c) KING s)
                               && negb (has_piece sqs (negb c) QUEEN s))
                     squares_desc)
  else if any BISHOP then
    let bishop s := has_piece sqs true BISHOP s || has_piece sqs false BISHOP s in
    let same_color :=
      negb (existsb (fun s => bishop s && dark s) squares_desc)
      || negb (existsb (fun s => bishop s && negb (dark s)) squares_desc) in
    same_color && negb (all PAWN) && negb (all KNIGHT)
  else true.

Definition is_insufficient_material (st : State) : bool :=
  has_insufficient_material (squares st) true
  && has_insufficient_material (squares st) false.

Definition has_legal_en_passant (st : State) : bool :=
  existsb (is_safe st) (generate_pseudo_legal_ep st everywhere everywhere).

(** [_transposition_key()], and the comparison of two keys. *)
Definition same_position (a b : State) : bool :=
  if Bool.eqb (turn a) (turn b)
     && forallb (fun s =>
                   match piece_at (squares a) s, piece_at (squares b) s with
                   | Some p, Some q => piece_eqb p q
                   | None, None => true
                   | _, _ => false
                   end)
                squares_desc
     && forallb (fun s => Bool.eqb (existsb (Nat.eqb s) (castling_rights a))
                                   (existsb (Nat.eqb s) (castling_rights b)))
                [0; 7; 56; 63]
  then
    match (if has_legal_en_passant a then ep_square a else None),
          (if has_legal_en_passant b then ep_square b else None) with
    | Some x, Some y => x =? y
    | None, None => true
    | _, _ => false
    end
  else false.

Definition reduces_castling_rights (st : State) (m : Move) : bool :=
  let touched s := (s =? from_square m) || (s =? to_square m) in
  let rights := castling_rights st in
  existsb touched rights
  || (existsb (fun r => square_rank r =? 0) rights
      && existsb (fun s => touched s && has_piece (squares st) true KING s)
                 squares_desc)
  || (existsb (fun r => square_rank r =? 7) rights
      && existsb (fun s => touched s && has_piece (squares st) false KING s)
                 squares_desc).

Definition is_irreversible (st : State) (m : Move) : bool :=
  is_zeroing st m || reduces_castling_rights st m || has_legal_en_passant st.

(** The board with its stack: the states before each of the moves played,
    the last one first. *)
Record Board : Type := {
  state : State;
  stack : list (State * Move)
}.

(** The states counted by [can_claim_threefold_repetition]: back from the
    last move to the first irreversible one. *)
Fixpoint reversible_past (past : list (State * Move)) : list State :=
  match past with
  | [] => []
  | (st, m) :: r =>
      if is_irreversible st m then [] else st :: reversible_past r
  end.

Definition can_claim_threefold_repetition (b : Board) : bool :=
  let seen := state b :: reversible_past (stack b) in
  let count st := List.length (filter (same_position st) seen) in
  (3 <=? count (state b))
  || existsb (fun m => 2 <=? count (push (state b) m))
             (generate_legal_moves (state b)).

Definition is_fifty_moves (st : State) : bool :=
  (100 <=? halfmove_clock st)
  && match generate_legal_moves st with [] => false | _ => true end.

Definition can_claim_fifty_moves (st : State) : bool :=
  is_fifty_moves st
  || ((99 <=? halfmove_clock st)
      && existsb (fun m => negb (is_zeroing st m) && is_fifty_moves (push st m))
                 (generate_legal_moves st)).

Definition can_claim_draw (b : Board) : bool :=
  can_claim_fifty_moves (state b) || can_claim_threefold_repetition b.

(** * The board at the start of a game *)

Definition back_rank : list PieceType :=
  [ROOK; KNIGHT; BISHOP; QUEEN; KING; BISHOP; KNIGHT; ROOK].

Definition starting_squares : list (option Piece) :=
  map (fun t => Some {| piece_type := t; color := true |}) back_rank
  ++ repeat (Some {| piece_type := PAWN; color := true |}) 8
  ++ repeat None 32
  ++ repeat (Some {| piece_type := PAWN; color := false |}) 8
  ++ map (fun t => Some {| piece_type := t; color := false |}) back_rank.

Definition starting_board : Board :=
  {| state := {| squares := starting_squares;
                 turn := true;
                 castling_rights := [0; 7; 56; 63];
                 ep_square := None;
                 halfmove_clock := 0 |};
     stack := [] |}.

(** [push_uci]: the legal move of that name is played. The callers pass
    legal moves only; another name leaves the board as it is. *)
Definition board_push_uci (b : Board) (name : string) : Board :=
  match find (fun m => String.eqb (uci m) name)
             (generate_legal_moves (state b)) with
  | Some m => {| state := push (state b) m; stack := (state b, m) :: stack b |}
  | None => b
  end.

Definition engine : RulesEngine :=
  Build_RulesEngine
    Board
    starting_board
    (fun b => map uci (generate_legal_moves (state b)))
    board_push_uci
    (fun b => is_insufficient_material (state b))
    can_claim_draw.

End PyChess.

(** * Properties *)

(** ** Digit strings *)

Definition is_digit (c : ascii) : Prop := c = "0"%char \/ c = "1"%char.

Definition is_digits (s : bits) : Prop := Forall is_digit s.

(** The number a digit string denotes. *)
Fixpoint value_from (acc : nat) (s : bits) : nat :=
  match s with
  | [] => acc
  | c :: r => value_from (2 * acc + (if Ascii.eqb c "1" then 1 else 0)) r
  end.

Definition value (s : bits) : nat := value_from 0 s.

Lemma bits_eqb_eq (x y : bits) : bits_eqb x y = true <-> x = y.
Proof.
  revert y; induction x as [|c x IH]; intros [|d y]; simpl;
    try (split; congruence).
  rewrite andb_true_iff, Ascii.eqb_eq, IH.
  split; [intros [-> ->]; reflexivity | intros H; inversion H; auto].
Qed.

Lemma bits_eqb_refl (x : bits) : bits_eqb x x = true.
Proof. apply bits_eqb_eq; reflexivity. Qed.

Lemma is_digits_app (s t : bits) :
  is_digits (s ++ t) <-> is_digits s /\ is_digits t.
Proof. unfold is_digits; apply Forall_app. Qed.

Lemma is_digits_repeat0 (n : nat) : is_digits (repeat "0"%char n).
Proof.
  induction n; simpl; constructor; auto. left; reflexivity.
Qed.

Lemma is_digits_firstn (n : nat) (s : bits) :
  is_digits s -> is_digits (firstn n s).
Proof.
  intros H; revert n; induction H; intros [|n]; simpl; constructor; auto.
  apply IHForall.
Qed.

Lemma is_digits_skipn (n : nat) (s : bits) :
  is_digits s -> is_digits (skipn n s).
Proof.
  intros H; revert n; induction H; intros [|n]; simpl;
    try constructor; auto; apply IHForall.
Qed.

Lemma is_digits_slice (a b : nat) (s : bits) :
  is_digits s -> is_digits (slice a b s).
Proof.
  intros H; unfold slice; apply is_digits_firstn, is_digits_skipn, H.
Qed.

Lemma value_from_app (acc : nat) (s t : bits) :
  value_from acc (s ++ t) = value_from (value_from acc s) t.
Proof. revert acc; induction s; simpl; intros; auto. Qed.

Lemma value_from_split (acc : nat) (s : bits) :
  value_from acc s = acc * 2 ^ List.length s + value s.
Proof.
  unfold value; revert acc; induction s as [|c s IH]; intros acc; simpl.
  - lia.
  - rewrite IH, (IH (if Ascii.eqb c "1" then 1 else 0)).
    destruct (Ascii.eqb c "1"); lia.
Qed.

Lemma value_bound (s : bits) : value s < 2 ^ List.length s.
Proof.
  induction s as [|c s IH]; unfold value in *; simpl.
  - lia.
  - rewrite value_from_split. fold (value s).
    destruct (Ascii.eqb c "1"); unfold value; lia.
Qed.

Lemma value_cons (c : ascii) (s : bits) :
  value (c :: s)
  = (if Ascii.eqb c "1" then 1 else 0) * 2 ^ List.length s + value s.
Proof. unfold value at 1; simpl; rewrite value_from_split; reflexivity. Qed.

Lemma value_repeat0 (n : nat) (s : bits) :
  value (repeat "0"%char n ++ s) = value s.
Proof.
  induction n; simpl; auto.
Qed.

Lemma int2_acc_digits (acc : nat) (s : bits) :
  is_digits s -> int2_acc acc s = Some (value_from acc s).
Proof.
  intros H; revert acc; induction H as [|c s [-> | ->] _ IH];
    intros acc; simpl; auto.
  rewrite IH; f_equal; f_equal; lia.
Qed.

Lemma int2_digits (s : bits) :
  is_digits s -> s <> [] -> int2 s = Some (value s).
Proof.
  intros H Hne; destruct s; [congruence|].
  unfold int2; apply int2_acc_digits; exact H.
Qed.

(** Two digit strings of one length that denote one number are equal. *)
Lemma value_inj (s t : bits) :
  is_digits s -> is_digits t -> List.length s = List.length t ->
  value s = value t -> s = t.
Proof.
  intros Hs; revert t; induction Hs as [|c s Hc Hs IH];
    intros [|d t] Ht Hlen Hv; simpl in *; try discriminate; auto.
  inversion Ht as [|? ? Hd Ht']; subst.
  injection Hlen as Hlen.
  rewrite !value_cons, Hlen in Hv.
  pose proof (value_bound s) as Bs. pose proof (value_bound t) as Bt.
  rewrite Hlen in Bs.
  destruct Hc as [-> | ->], Hd as [-> | ->]; simpl in Hv;
    try (f_equal; apply IH; auto; lia); exfalso; lia.
Qed.

(** ** [bin], [zfill] and [to_binary_string] *)

Lemma pos_digits_digits (p : positive) : is_digits (pos_digits p).
Proof.
  induction p; simpl.
  - apply is_digits_app; split; auto. constructor; [right; auto | constructor].
  - apply is_digits_app; split; auto. constructor; [left; auto | constructor].
  - constructor; [right; auto | constructor].
Qed.

Lemma value_snoc (s : bits) (c : ascii) :
  value (s ++ [c]) = 2 * value s + (if Ascii.eqb c "1" then 1 else 0).
Proof. unfold value; rewrite value_from_app; reflexivity. Qed.

Lemma pos_digits_value (p : positive) : value (pos_digits p) = Pos.to_nat p.
Proof.
  induction p; simpl.
  - rewrite value_snoc, IHp, Pos2Nat.inj_xI; simpl; lia.
  - rewrite value_snoc, IHp, Pos2Nat.inj_xO; simpl; lia.
  - reflexivity.
Qed.

Lemma pos_digits_length (p : positive) :
  1 <= List.length (pos_digits p) /\
  2 ^ (List.length (pos_digits p) - 1) <= Pos.to_nat p.
Proof.
  induction p as [p [IH1 IH2] | p [IH1 IH2] |]; simpl.
  - rewrite length_app, Pos2Nat.inj_xI; simpl. split; [lia|].
    replace (List.length (pos_digits p) + 1 - 1)
      with (S (List.length (pos_digits p) - 1)) by lia.
    simpl; lia.
  - rewrite length_app, Pos2Nat.inj_xO; simpl. split; [lia|].
    replace (List.length (pos_digits p) + 1 - 1)
      with (S (List.length (pos_digits p) - 1)) by lia.
    simpl; lia.
  - split; auto.
Qed.

Lemma bin_digits (n : nat) : is_digits (bin n).
Proof.
  unfold bin; destruct (N.of_nat n).
  - constructor; [left; auto | constructor].
  - apply pos_digits_digits.
Qed.

Lemma bin_value (n : nat) : value (bin n) = n.
Proof.
  unfold bin; destruct (N.of_nat n) eqn:Hn.
  - destruct n; [reflexivity | discriminate].
  - rewrite pos_digits_value.
    rewrite <- (Nat2N.id n), Hn; reflexivity.
Qed.

Lemma bin_length_pos (n : nat) : 1 <= List.length (bin n).
Proof.
  unfold bin; destruct (N.of_nat n); simpl; auto.
  apply pos_digits_length.
Qed.

Lemma bin_length_lower (n : nat) :
  1 <= n -> 2 ^ (List.length (bin n) - 1) <= n.
Proof.
  intros Hn; unfold bin; destruct (N.of_nat n) eqn:E.
  - destruct n; [lia | discriminate].
  - assert (Hp : n = Pos.to_nat p)
      by (rewrite <- (Nat2N.id n), E; reflexivity).
    rewrite Hp. apply pos_digits_length.
Qed.

Lemma bin_length_upper (n : nat) : n < 2 ^ List.length (bin n).
Proof. rewrite <- (bin_value n) at 1; apply value_bound. Qed.

(** [bin i] fits in [w >= 1] digits exactly when [i < 2 ^ w]. *)
Lemma bin_length_le (i w : nat) :
  1 <= w -> (List.length (bin i) <= w <-> i < 2 ^ w).
Proof.
  intros Hw; split; intros H.
  - eapply Nat.lt_le_trans; [apply bin_length_upper|].
    apply Nat.pow_le_mono_r; lia.
  - destruct (Nat.eq_dec i 0) as [-> | Hi]; [simpl; lia|].
    destruct (Nat.le_gt_cases (List.length (bin i)) w) as [|Hgt]; auto.
    exfalso.
    assert (2 ^ w <= 2 ^ (List.length (bin i) - 1))
      by (apply Nat.pow_le_mono_r; lia).
    pose proof (bin_length_lower i); lia.
Qed.

Lemma bin_length_log2 (n : nat) :
  1 <= n -> List.length (bin n) = Nat.log2 n + 1.
Proof.
  intros Hn.
  pose proof (bin_length_lower n Hn) as Hlo.
  pose proof (bin_length_upper n) as Hhi.
  pose proof (bin_length_pos n) as Hp.
  assert (Nat.log2 n = List.length (bin n) - 1); [|lia].
  apply Nat.log2_unique; [lia|].
  split; auto.
  replace (S (List.length (bin n) - 1)) with (List.length (bin n)) by lia.
  exact Hhi.
Qed.

Lemma zfill_length (s : bits) (w : nat) :
  List.length (zfill s w) = Nat.max w (List.length s).
Proof. unfold zfill; rewrite length_app, repeat_length; lia. Qed.

Lemma zfill_digits (s : bits) (w : nat) :
  is_digits s -> is_digits (zfill s w).
Proof.
  intros H; apply is_digits_app; split; auto using is_digits_repeat0.
Qed.

Lemma zfill_value (s : bits) (w : nat) : value (zfill s w) = value s.
Proof. apply value_repeat0. Qed.

Lemma to_binary_string_digits (i w : nat) : is_digits (to_binary_string i w).
Proof. apply zfill_digits, bin_digits. Qed.

Lemma to_binary_string_value (i w : nat) : value (to_binary_string i w) = i.
Proof. unfold to_binary_string; rewrite zfill_value; apply bin_value. Qed.

Lemma to_binary_string_length (i w : nat) :
  List.length (to_binary_string i w) = Nat.max w (List.length (bin i)).
Proof. apply zfill_length. Qed.

Lemma to_binary_string_fits (i w : nat) :
  1 <= w -> i < 2 ^ w -> List.length (to_binary_string i w) = w.
Proof.
  intros Hw Hi; rewrite to_binary_string_length.
  apply (bin_length_le i) in Hi; auto; lia.
Qed.

Lemma to_binary_string_overflow (i w : nat) :
  2 ^ w <= i -> w < List.length (to_binary_string i w).
Proof.
  intros Hi; rewrite to_binary_string_length.
  destruct w as [|w]; [pose proof (bin_length_pos i); lia|].
  destruct (Nat.le_gt_cases (List.length (bin i)) (S w)) as [Hle|]; [|lia].
  apply bin_length_le in Hle; lia.
Qed.

(** The digit string of width [w] is recovered from the number it
    denotes. *)
Lemma to_binary_string_of_value (s : bits) :
  is_digits s -> s <> [] ->
  to_binary_string (value s) (List.length s) = s.
Proof.
  intros Hd Hne.
  assert (1 <= List.length s) by (destruct s; simpl; [congruence | lia]).
  apply value_inj; auto using to_binary_string_digits.
  - apply to_binary_string_fits; auto using value_bound.
  - apply to_binary_string_value.
Qed.

(** Padding to a larger width only adds leading zeros. *)
Lemma zfill_wider (i w L : nat) :
  1 <= w -> i < 2 ^ w -> w <= L ->
  zfill (bin i) L = repeat "0"%char (L - w) ++ to_binary_string i w.
Proof.
  intros Hw Hi HL.
  apply (bin_length_le i) in Hi; auto.
  unfold to_binary_string, zfill.
  rewrite app_assoc, <- repeat_app. do 2 f_equal. lia.
Qed.

(** ** The bits of a file *)

Definition byte_bits (b : byte) : bits := to_binary_string (Byte.to_nat b) 8.

(** All the bits of the file, in order. *)
Definition file_bits (file_bytes : list byte) : bits :=
  List.concat (map byte_bits file_bytes).

Lemma byte_bits_length (b : byte) : List.length (byte_bits b) = 8.
Proof.
  apply to_binary_string_fits; [lia|].
  pose proof (Byte.to_nat_bounded b); simpl; lia.
Qed.

Lemma byte_bits_digits (b : byte) : is_digits (byte_bits b).
Proof. apply to_binary_string_digits. Qed.

Lemma file_bits_length (l : list byte) :
  List.length (file_bits l) = List.length l * 8.
Proof.
  unfold file_bits; induction l; simpl; auto.
  rewrite length_app, byte_bits_length, IHl; lia.
Qed.

Lemma file_bits_digits (l : list byte) : is_digits (file_bits l).
Proof.
  unfold file_bits; induction l; simpl; [constructor|].
  apply is_digits_app; split; auto using byte_bits_digits.
Qed.

Lemma file_bits_skipn (q : nat) (l : list byte) :
  skipn (q * 8) (file_bits l) = file_bits (skipn q l).
Proof.
  revert l; induction q as [|q IH]; intros l; [reflexivity|].
  destruct l as [|b l]; [reflexivity|].
  replace (S q * 8) with (q * 8 + 8) by lia.
  rewrite <- skipn_skipn. unfold file_bits at 1; simpl map; simpl List.concat.
  rewrite skipn_app, byte_bits_length, Nat.sub_diag, skipn_0.
  rewrite (@skipn_all2 _ 8 (byte_bits b)) by (rewrite byte_bits_length; lia).
  simpl app. apply IH.
Qed.

Lemma file_bits_firstn (k : nat) (l : list byte) :
  firstn (k * 8) (file_bits l) = file_bits (firstn k l).
Proof.
  revert l; induction k as [|k IH]; intros l; [reflexivity|].
  destruct l as [|b l]; [reflexivity|].
  change (S k * 8) with (8 + k * 8).
  unfold file_bits; simpl map; simpl List.concat.
  rewrite firstn_app, byte_bits_length.
  rewrite firstn_all2 by (rewrite byte_bits_length; lia).
  replace (8 + k * 8 - 8) with (k * 8) by lia.
  f_equal. apply IH.
Qed.

Lemma byte_bits_inj (a b : byte) : byte_bits a = byte_bits b -> a = b.
Proof.
  intros H. apply (f_equal value) in H.
  unfold byte_bits in H; rewrite !to_binary_string_value in H.
  apply (f_equal Byte.of_nat) in H. rewrite !Byte.of_to_nat in H.
  congruence.
Qed.

Lemma app_same_length {A : Type} (a b x y : list A) :
  List.length a = List.length b -> a ++ x = b ++ y -> a = b /\ x = y.
Proof.
  revert b; induction a as [|c a IH]; intros [|d b] Hlen H;
    simpl in *; try discriminate; auto.
  injection H as -> H. injection Hlen as Hlen.
  destruct (IH b Hlen H) as [-> ->]; auto.
Qed.

Lemma firstn_plus {A : Type} (n m : nat) (l : list A) :
  firstn (n + m) l = firstn n l ++ firstn m (skipn n l).
Proof.
  revert l; induction n as [|n IH]; intros [|a l]; simpl; auto;
    try (rewrite firstn_nil; reflexivity).
  f_equal; apply IH.
Qed.

Lemma file_bits_inj (l l' : list byte) : file_bits l = file_bits l' -> l = l'.
Proof.
  revert l'; induction l as [|a l IH]; intros [|b l'] H; auto.
  - apply (f_equal (@List.length _)) in H.
    rewrite !file_bits_length in H; simpl in H; lia.
  - apply (f_equal (@List.length _)) in H.
    rewrite !file_bits_length in H; simpl in H; lia.
  - unfold file_bits in H; simpl in H.
    apply app_same_length in H;
      [|rewrite !byte_bits_length; reflexivity].
    destruct H as [Ha Hl].
    f_equal; [apply byte_bits_inj, Ha | apply IH, Hl].
Qed.

Section Window.

Variable file_bytes : list byte.

(** The two-byte pool is the next sixteen bits of the file (or the last
    eight). *)
Lemma file_chunk_pool_bits (index : nat) :
  file_chunk_pool file_bytes index
  = firstn 16 (skipn (index / 8 * 8) (file_bits file_bytes)).
Proof.
  unfold file_chunk_pool, slice.
  replace (index / 8 + 2 - index / 8) with 2 by lia.
  rewrite file_bits_skipn.
  fold byte_bits. change 16 with (2 * 8). rewrite file_bits_firstn.
  reflexivity.
Qed.

(** When the window fits in the pool, it is the slice of the file at the
    cursor. *)
Lemma next_file_chunk_bits (index width : nat) :
  index mod 8 + width <= 16 ->
  next_file_chunk file_bytes index width
  = firstn width (skipn index (file_bits file_bytes)).
Proof.
  intros Hfit. unfold next_file_chunk, slice.
  rewrite file_chunk_pool_bits.
  replace (index mod 8 + width - index mod 8) with width by lia.
  rewrite skipn_firstn_comm, firstn_firstn, skipn_skipn.
  rewrite Nat.min_l by lia.
  do 2 f_equal.
  pose proof (Nat.div_mod_eq index 8); lia.
Qed.

Lemma next_file_chunk_length (index width : nat) :
  index mod 8 + width <= 16 ->
  index + width <= file_bits_count file_bytes ->
  List.length (next_file_chunk file_bytes index width) = width.
Proof.
  intros Hfit Hrem. rewrite next_file_chunk_bits by exact Hfit.
  rewrite length_firstn, length_skipn, file_bits_length.
  unfold file_bits_count in Hrem. lia.
Qed.

Lemma next_file_chunk_digits (index width : nat) :
  is_digits (next_file_chunk file_bytes index width).
Proof.
  unfold next_file_chunk. apply is_digits_slice.
  rewrite file_chunk_pool_bits.
  apply is_digits_firstn, is_digits_skipn, file_bits_digits.
Qed.

Lemma file_bits_advance (index width : nat) :
  firstn (index + width) (file_bits file_bytes)
  = firstn index (file_bits file_bytes)
    ++ firstn width (skipn index (file_bits file_bytes)).
Proof. apply firstn_plus. Qed.

End Window.

(** ** The move map of one step *)

Lemma dict_set_fresh (k : string) (v : bits) (d : dict) :
  ~ In k (map fst d) -> dict_set k v d = d ++ [(k, v)].
Proof.
  induction d as [|[k' v'] d IH]; simpl; intros Hk; auto.
  destruct (String.eqb_spec k' k) as [-> | Hne]; [tauto|].
  f_equal; apply IH; tauto.
Qed.

(** What the enumeration loop builds: the first [2 ^ width] legal moves,
    each with the digit string of its index. *)
Definition indexed_prefix (legal : list string) (first count width : nat)
  : dict :=
  combine (firstn count legal)
          (map (fun i => to_binary_string i width) (seq first count)).

Lemma fill_move_bits_spec (legal : list string) (index width : nat)
      (move_bits : dict) :
  1 <= width ->
  NoDup (map fst move_bits ++ legal) ->
  fill_move_bits legal index width move_bits
  = move_bits ++ indexed_prefix legal index (2 ^ width - index) width.
Proof.
  intros Hw; revert index move_bits.
  induction legal as [|m rest IH]; intros index move_bits Hnd.
  - unfold indexed_prefix; rewrite firstn_nil; simpl.
    rewrite app_nil_r; reflexivity.
  - simpl fill_move_bits.
    destruct (Nat.lt_ge_cases index (2 ^ width)) as [Hlt | Hge].
    + rewrite to_binary_string_fits by assumption.
      rewrite Nat.ltb_irrefl.
      rewrite dict_set_fresh
        by (apply NoDup_remove_2 in Hnd; rewrite in_app_iff in Hnd; tauto).
      rewrite IH.
      * rewrite <- app_assoc. f_equal.
        replace (2 ^ width - index) with (S (2 ^ width - S index)) by lia.
        reflexivity.
      * rewrite map_app; simpl. rewrite <- app_assoc; exact Hnd.
    + pose proof (to_binary_string_overflow index width Hge) as Hov.
      apply Nat.ltb_lt in Hov; rewrite Hov.
      replace (2 ^ width - index) with 0 by lia.
      unfold indexed_prefix; simpl. rewrite app_nil_r; reflexivity.
Qed.

Lemma build_move_bits_spec (legal : list string) (width : nat) :
  1 <= width -> NoDup legal ->
  build_move_bits legal width = indexed_prefix legal 0 (2 ^ width) width.
Proof.
  intros Hw Hnd. unfold build_move_bits.
  rewrite fill_move_bits_spec by assumption.
  rewrite Nat.sub_0_r; reflexivity.
Qed.

(** With no digit at all, the first index already overflows: the map is
    empty. *)
Lemma build_move_bits_width0 (legal : list string) :
  build_move_bits legal 0 = [].
Proof. destruct legal; reflexivity. Qed.

Lemma indexed_prefix_values (legal : list string) (first count width : nat) :
  NoDup (map snd (indexed_prefix legal first count width)).
Proof.
  unfold indexed_prefix.
  revert first legal; induction count as [|count IH]; intros first legal.
  - simpl; constructor.
  - destruct legal as [|m rest]; simpl; [constructor|].
    constructor; [|apply IH].
    intros Hin. apply in_map_iff in Hin. destruct Hin as [[k v] [Hv Hin]].
    simpl in Hv; subst v.
    apply in_combine_r in Hin. apply in_map_iff in Hin.
    destruct Hin as [j [Hj Hin]]. apply in_seq in Hin.
    apply (f_equal value) in Hj. rewrite !to_binary_string_value in Hj. lia.
Qed.

Lemma indexed_prefix_find (legal : list string) (first count width : nat)
      (chunk : bits) :
  is_digits chunk -> List.length chunk = width -> 1 <= width ->
  first <= value chunk < first + count ->
  value chunk - first < List.length legal ->
  find_move (indexed_prefix legal first count width) chunk
  = Some (nth (value chunk - first) legal EmptyString).
Proof.
  intros Hd Hlen Hw. unfold indexed_prefix.
  revert first legal; induction count as [|count IH];
    intros first legal Hv Hl; [lia|].
  destruct legal as [|m rest]; [simpl in Hl; lia|].
  simpl.
  destruct (Nat.eq_dec first (value chunk)) as [-> | Hne].
  - rewrite <- Hlen, to_binary_string_of_value; auto.
    + rewrite bits_eqb_refl, Nat.sub_diag; reflexivity.
    + intros ->; simpl in Hlen; lia.
  - destruct (bits_eqb (to_binary_string first width) chunk) eqn:Heq.
    + apply bits_eqb_eq in Heq. apply (f_equal value) in Heq.
      rewrite to_binary_string_value in Heq. contradiction.
    + replace (value chunk - first) with (S (value chunk - S first)) by lia.
      simpl in Hl. apply IH; lia.
Qed.

Lemma index_of_nth (l : list string) (i : nat) :
  NoDup l -> i < List.length l ->
  index_of (nth i l EmptyString) l = Some i.
Proof.
  intros Hnd; revert i; induction Hnd as [|x l Hx Hnd IH];
    intros i Hi; simpl in Hi; [lia|].
  destruct i as [|i]; simpl.
  - rewrite String.eqb_refl; reflexivity.
  - destruct (String.eqb_spec x (nth i l EmptyString)) as [Heq | Hne].
    + exfalso; apply Hx; rewrite Heq; apply nth_In; lia.
    + rewrite IH by lia; reflexivity.
Qed.

Lemma index_of_In (x : string) (l : list string) :
  In x l <-> exists i, index_of x l = Some i.
Proof.
  induction l as [|y l IH]; simpl.
  - split; [tauto | intros [i H]; discriminate].
  - destruct (String.eqb_spec y x) as [-> | Hne].
    + split; eauto.
    + rewrite IH. split.
      * intros [H | [i H]]; [contradiction|]. rewrite H; eauto.
      * intros [i H]. destruct (index_of x l); [eauto | discriminate].
Qed.

Lemma index_of_bound (x : string) (l : list string) (i : nat) :
  index_of x l = Some i -> i < List.length l.
Proof.
  revert i; induction l as [|y l IH]; simpl; intros i H; [discriminate|].
  destruct (String.eqb y x); [injection H as <-; lia|].
  destruct (index_of x l) as [j|]; [|discriminate].
  injection H as <-. specialize (IH j eq_refl). lia.
Qed.

(** ** The decoder as a function of the bit stream *)

Section DecodeStream.

Variable E : RulesEngine.

(** The digits [decode] appends for one move, lines 273-282; [None] when
    the move is not in the list. *)
Definition move_binary (p : Position E) (move_uci : string) : option bits :=
  match index_of move_uci (legal_moves E p) with
  | None => None
  | Some i =>
      Some (zfill (bin i) (Nat.log2 (List.length (legal_moves E p))))
  end.

(** All the digits appended for the moves of one game, and of a list of
    games; [None] when some move is not legal at its step. *)
Fixpoint moves_stream (p : Position E) (ms : list string) : option bits :=
  match ms with
  | [] => Some []
  | m :: r =>
      match move_binary p m, moves_stream (push_uci E p m) r with
      | Some b, Some s => Some (b ++ s)
      | _, _ => None
      end
  end.

Fixpoint games_stream (gs : list (list string)) : option bits :=
  match gs with
  | [] => Some []
  | g :: r =>
      match moves_stream (start E) g, games_stream r with
      | Some b, Some s => Some (b ++ s)
      | _, _ => None
      end
  end.

Lemma move_binary_digits (p : Position E) (m : string) (b : bits) :
  move_binary p m = Some b -> is_digits b.
Proof.
  unfold move_binary; destruct (index_of m (legal_moves E p));
    [|discriminate].
  intros H; injection H as <-. apply zfill_digits, bin_digits.
Qed.

Lemma moves_stream_digits (p : Position E) (ms : list string) (s : bits) :
  moves_stream p ms = Some s -> is_digits s.
Proof.
  revert p s; induction ms as [|m r IH]; simpl; intros p s H.
  - injection H as <-; constructor.
  - destruct (move_binary p m) as [b|] eqn:Hb; [|discriminate].
    destruct (moves_stream (push_uci E p m) r) as [t|] eqn:Ht;
      [|discriminate].
    injection H as <-. apply is_digits_app; split.
    + eapply move_binary_digits; eauto.
    + eapply IH; eauto.
Qed.

Lemma moves_stream_snoc (p : Position E) (ms : list string) (m : string) :
  moves_stream p (ms ++ [m])
  = match moves_stream p ms,
          move_binary (fold_left (push_uci E) ms p) m with
    | Some s, Some b => Some (s ++ b)
    | _, _ => None
    end.
Proof.
  revert p; induction ms as [|x r IH]; intros p; simpl.
  - destruct (move_binary p m); auto. rewrite app_nil_r; reflexivity.
  - rewrite IH. destruct (move_binary p x); auto.
    destruct (moves_stream (push_uci E p x) r); auto.
    destruct (move_binary _ m); auto.
    rewrite app_assoc; reflexivity.
Qed.

Lemma games_stream_snoc (gs : list (list string)) (g : list string) :
  games_stream (gs ++ [g])
  = match games_stream gs, moves_stream (start E) g with
    | Some s, Some b => Some (s ++ b)
    | _, _ => None
    end.
Proof.
  induction gs as [|x r IH]; simpl.
  - destruct (moves_stream (start E) g); auto.
    rewrite app_nil_r; reflexivity.
  - rewrite IH. destruct (moves_stream (start E) x); auto.
    destruct (games_stream r); auto.
    destruct (moves_stream (start E) g); auto.
    rewrite app_assoc; reflexivity.
Qed.

(** The flushing loop moves every whole byte of the accumulator to the
    file and keeps fewer than eight digits. *)
Lemma write_bytes_spec (fuel : nat) (data : bits) (file : list byte) :
  is_digits data -> List.length data <= fuel ->
  exists (written : list byte) (rest : bits),
    write_bytes fuel data file = (file ++ written, Ok rest)
    /\ file_bits written ++ rest = data
    /\ List.length rest < 8.
Proof.
  revert data file; induction fuel as [|fuel IH]; intros data file Hd Hf.
  - exists [], data. simpl. rewrite app_nil_r. repeat split; auto. lia.
  - cbn [write_bytes].
    destruct (Nat.leb_spec 8 (List.length data)) as [H8 | H8].
    + assert (Hb : is_digits (slice 0 8 data))
        by (apply is_digits_slice, Hd).
      assert (Hl : List.length (slice 0 8 data) = 8)
        by (unfold slice; rewrite length_firstn, skipn_0;
            change (8 - 0) with 8; lia).
      rewrite int2_digits; auto;
        [|intros Hnil; rewrite Hnil in Hl; discriminate].
      pose proof (value_bound (slice 0 8 data)) as Hv.
      rewrite Hl in Hv.
      destruct (Byte.of_nat (value (slice 0 8 data))) as [b|] eqn:Hof;
        [|apply Byte.of_nat_None_iff in Hof; change (2 ^ 8) with 256 in Hv;
          lia].
      destruct (IH (skipn 8 data) (file ++ [b])) as (wr & rest & Hw & Hs & Hr).
      * apply is_digits_skipn, Hd.
      * rewrite length_skipn; lia.
      * exists (b :: wr), rest. rewrite Hw, <- app_assoc.
        repeat split; auto.
        unfold file_bits; simpl. fold (file_bits wr).
        rewrite <- app_assoc, Hs.
        rewrite <- (firstn_skipn 8 data) at 2. f_equal.
        apply Byte.to_of_nat in Hof. unfold byte_bits. rewrite Hof.
        assert (Hne : slice 0 8 data <> [])
          by (intros Hnil; rewrite Hnil in Hl; discriminate).
        pose proof (to_binary_string_of_value _ Hb Hne) as Hx.
        rewrite Hl in Hx. exact Hx.
    + exists [], data. rewrite app_nil_r. repeat split; auto.
Qed.

Lemma decode_moves_stream (ms : list string) :
  forall (p : Position E) (data : bits) (file : list byte) (s : bits),
    moves_stream p ms = Some s ->
    is_digits data ->
    exists (written : list byte) (rest : bits),
      decode_moves E p data file ms = (file ++ written, Ok rest)
      /\ file_bits written ++ rest = data ++ s
      /\ is_digits rest
      /\ (ms <> [] -> List.length rest < 8).
Proof.
  induction ms as [|m r IH]; intros p data file s Hs Hd; simpl in *.
  - injection Hs as <-. exists [], data.
    rewrite !app_nil_r. repeat split; auto. congruence.
  - destruct (move_binary p m) as [b|] eqn:Hb; [|discriminate].
    destruct (moves_stream (push_uci E p m) r) as [t|] eqn:Ht;
      [|discriminate].
    injection Hs as <-.
    pose proof (move_binary_digits _ _ _ Hb) as Hbd.
    unfold decode_move. unfold move_binary in Hb.
    destruct (index_of m (legal_moves E p)) as [i|]; [|discriminate].
    injection Hb as Hb. rewrite Hb.
    destruct (write_bytes_spec (List.length (data ++ b)) (data ++ b) file)
      as (w1 & rest1 & Hw1 & Hs1 & Hr1);
      [apply is_digits_app; auto | lia |].
    rewrite Hw1.
    assert (Hd1 : is_digits rest1).
    { assert (Hall : is_digits (file_bits w1 ++ rest1))
        by (rewrite Hs1; apply is_digits_app; auto).
      apply is_digits_app in Hall; tauto. }
    destruct (IH (push_uci E p m) rest1 (file ++ w1) t Ht Hd1)
      as (w2 & rest2 & Hw2 & Hs2 & Hd2 & Hr2).
    exists (w1 ++ w2), rest2. rewrite Hw2, app_assoc.
    repeat split; auto.
    + unfold file_bits in *. rewrite map_app, concat_app, <- app_assoc.
      rewrite Hs2, app_assoc, Hs1, app_assoc; reflexivity.
    + intros _. destruct r as [|x r]; [|apply Hr2; congruence].
      simpl in Hw2. injection Hw2 as Hw2 Hrest.
      subst rest2; exact Hr1.
Qed.

End DecodeStream.

Section DecodeGames.

Variable E : RulesEngine.

Lemma decode_games_stream (moves_list : list string) :
  forall (data : bits) (file : list byte) (s : bits),
    games_stream E (map split moves_list) = Some s ->
    is_digits data -> List.length data < 8 ->
    exists (written : list byte) (rest : bits),
      decode_games E data file moves_list = (file ++ written, Ok rest)
      /\ file_bits written ++ rest = data ++ s
      /\ is_digits rest
      /\ List.length rest < 8.
Proof.
  induction moves_list as [|moves r IH]; intros data file s Hs Hd Hl;
    simpl in *.
  - injection Hs as <-. exists [], data.
    rewrite !app_nil_r. repeat split; auto.
  - destruct (moves_stream E (start E) (split moves)) as [b|] eqn:Hb;
      [|discriminate].
    destruct (games_stream E (map split r)) as [t|] eqn:Ht; [|discriminate].
    injection Hs as <-.
    destruct (decode_moves_stream E (split moves) (start E) data file b Hb Hd)
      as (w1 & rest1 & Hw1 & Hs1 & Hd1 & Hr1).
    rewrite Hw1.
    assert (Hl1 : List.length rest1 < 8).
    { destruct (split moves) as [|x xs]; [|apply Hr1; congruence].
      simpl in Hw1. injection Hw1 as _ <-. exact Hl. }
    destruct (IH rest1 (file ++ w1) t eq_refl Hd1 Hl1)
      as (w2 & rest2 & Hw2 & Hs2 & Hd2 & Hr2).
    exists (w1 ++ w2), rest2. rewrite Hw2, app_assoc.
    repeat split; auto.
    unfold file_bits in *. rewrite map_app, concat_app, <- app_assoc.
    rewrite Hs2, app_assoc, Hs1, app_assoc; reflexivity.
Qed.

(** The bytes a successful [decode] writes are the whole bytes of the
    stream. *)
Lemma decode_stream (moves_list : list string) (file : list byte)
      (response : option string) (s : bits) :
  games_stream E (map split moves_list) = Some s ->
  exists (written : list byte) (rest : bits),
    fst (decode E moves_list file response) = file ++ written
    /\ file_bits written ++ rest = s
    /\ List.length rest < 8.
Proof.
  intros Hs.
  destruct (decode_games_stream moves_list [] file s Hs)
    as (w & rest & Hw & Hb & _ & Hr); [constructor | simpl; lia |].
  exists w, rest. unfold decode. rewrite Hw.
  destruct response; simpl; auto.
Qed.

End DecodeGames.

(** ** [split] after [join] *)

Definition no_space (m : string) : Prop :=
  forall c, In c (list_ascii_of_string m) -> is_space c = false.

(** A move name as the engine prints it: not empty, no separator in it. *)
Definition is_token (m : string) : Prop := m <> EmptyString /\ no_space m.

Lemma append_assoc (a b c : string) :
  ((a ++ b) ++ c = a ++ (b ++ c))%string.
Proof. induction a; simpl; congruence. Qed.

Lemma append_empty_r (a : string) : (a ++ EmptyString)%string = a.
Proof. induction a; simpl; congruence. Qed.

Lemma split_from_no_space (t cur s : string) :
  no_space t ->
  split_from cur (t ++ s)%string = split_from (cur ++ t)%string s.
Proof.
  revert cur; induction t as [|c t IH]; intros cur Ht; simpl.
  - rewrite append_empty_r; reflexivity.
  - rewrite (Ht c) by (simpl; auto).
    rewrite IH by (intros d Hd; apply Ht; simpl; auto).
    rewrite append_assoc; reflexivity.
Qed.

Lemma split_join (ms : list string) :
  Forall is_token ms -> split (String.concat " " ms) = ms.
Proof.
  unfold split. induction 1 as [|m r [Hne Hns] Hr IH]; [reflexivity|].
  simpl String.concat. destruct r as [|x r].
  - pose proof (split_from_no_space m EmptyString EmptyString Hns) as H.
    rewrite append_empty_r in H. rewrite H.
    simpl. destruct m; [congruence | reflexivity].
  - rewrite split_from_no_space by exact Hns. simpl append.
    simpl split_from. destruct m; [congruence|].
    simpl in IH. simpl. rewrite IH; reflexivity.
Qed.

(** ** What the codec needs from the rules engine

    The legal moves of a position have distinct names, there are fewer than
    1024 of them (so that a window never leaves the two-byte pool), the
    first position offers at least two, and a name is a token. For
    python-chess: UCI names are distinct words of letters and digits, the
    first position has twenty moves and no position has more than a few
    hundred. *)
Record EngineOK (E : RulesEngine) : Prop := {
  legal_nodup : forall p, NoDup (legal_moves E p);
  legal_bound : forall p, List.length (legal_moves E p) < 1024;
  start_moves : 2 <= List.length (legal_moves E (start E));
  legal_tokens : forall p m, In m (legal_moves E p) -> is_token m
}.

(** ** One iteration of the encoder *)

Section EncodeStep.

Variable E : RulesEngine.
Variable file_extension base_name : string.
Variable file_bytes : list byte.
Hypothesis ok : EngineOK E.

Local Abbreviation total := (file_bits_count file_bytes).
Local Abbreviation fb := (file_bits file_bytes).
Local Abbreviation body := (loop_body E file_extension base_name file_bytes).

Definition legal_of (st : EncState E) : list string :=
  legal_moves E (position E (chess_board E st)).

Definition width_of (st : EncState E) : nat :=
  max_binary_length file_bytes (List.length (legal_of st))
                    (file_bit_index E st).

Definition chunk_of (st : EncState E) : bits :=
  next_file_chunk file_bytes (file_bit_index E st) (width_of st).

Definition move_of (st : EncState E) : string :=
  nth (value (chunk_of st)) (legal_of st) EmptyString.

(** The board is its move stack replayed from the first position. *)
Definition replayed (b : Board E) : Prop :=
  position E b = fold_left (push_uci E) (move_stack E b) (start E).

(** The move lists so far: the closed games and the game on the board. *)
Definition played (st : EncState E) : list (list string) :=
  map mainline (output_pgns E st) ++ [move_stack E (chess_board E st)].

(** What holds at the top of every iteration. *)
Record Inv (st : EncState E) : Prop := {
  inv_index : file_bit_index E st < total;
  inv_legal : 2 <= List.length (legal_of st);
  inv_replay : replayed (chess_board E st);
  inv_count :
    moves_in_current_game E st = List.length (move_stack E (chess_board E st));
  inv_cap : moves_in_current_game E st <= MAX_MOVES_PER_GAME;
  inv_numbers :
    map PartNumber (output_pgns E st)
    = map str (seq 1 (List.length (output_pgns E st)));
  inv_stream :
    games_stream E (played st) = Some (firstn (file_bit_index E st) fb)
}.

Lemma log2_bounds (n : nat) :
  2 <= n -> n < 1024 -> 1 <= Nat.log2 n <= 9 /\ 2 ^ Nat.log2 n <= n.
Proof.
  intros H2 H1024.
  assert (0 < n) as Hpos by lia.
  pose proof (Nat.log2_spec n Hpos) as [Hlo Hhi].
  repeat split; auto.
  - apply (Nat.log2_le_pow2 n 1); simpl; lia.
  - assert (Nat.log2 n < 10); [|lia].
    apply Nat.log2_lt_pow2; auto.
Qed.

Lemma width_facts (st : EncState E) :
  Inv st ->
  1 <= width_of st
  /\ width_of st <= Nat.log2 (List.length (legal_of st))
  /\ file_bit_index E st + width_of st <= total
  /\ file_bit_index E st mod 8 + width_of st <= 16
  /\ 2 ^ width_of st <= List.length (legal_of st).
Proof.
  intros I.
  pose proof (inv_index _ I) as Hi. pose proof (inv_legal _ I) as Hl.
  pose proof (legal_bound _ ok (position E (chess_board E st))) as Hb.
  fold (legal_of st) in Hb.
  destruct (log2_bounds _ Hl Hb) as [[L1 L9] Lp].
  pose proof (Nat.mod_upper_bound (file_bit_index E st) 8).
  unfold width_of, max_binary_length in *.
  repeat split; try lia.
  eapply Nat.le_trans; [|exact Lp].
  apply Nat.pow_le_mono_r; lia.
Qed.

Lemma chunk_facts (st : EncState E) :
  Inv st ->
  chunk_of st = firstn (width_of st) (skipn (file_bit_index E st) fb)
  /\ List.length (chunk_of st) = width_of st
  /\ is_digits (chunk_of st)
  /\ value (chunk_of st) < 2 ^ width_of st.
Proof.
  intros I. destruct (width_facts _ I) as (W1 & WL & WT & W16 & WP).
  assert (Hlen : List.length (chunk_of st) = width_of st)
    by (apply next_file_chunk_length; assumption).
  repeat split; auto.
  - apply next_file_chunk_bits; assumption.
  - apply next_file_chunk_digits.
  - pose proof (value_bound (chunk_of st)) as Hv.
    rewrite Hlen in Hv. exact Hv.
Qed.

(** The search of lines 86-91 finds the move whose index the window
    denotes. *)
Lemma find_move_step (st : EncState E) :
  Inv st ->
  find_move (build_move_bits (legal_of st) (width_of st)) (chunk_of st)
  = Some (move_of st).
Proof.
  intros I. destruct (width_facts _ I) as (W1 & WL & WT & W16 & WP).
  destruct (chunk_facts _ I) as (_ & CL & CD & CV).
  rewrite build_move_bits_spec; auto; [|apply (legal_nodup _ ok)].
  unfold move_of.
  rewrite (indexed_prefix_find (legal_of st) 0 (2 ^ width_of st)
                               (width_of st) (chunk_of st));
    auto; try lia.
  rewrite Nat.sub_0_r; reflexivity.
Qed.

Lemma move_of_index (st : EncState E) :
  Inv st -> index_of (move_of st) (legal_of st) = Some (value (chunk_of st)).
Proof.
  intros I. destruct (width_facts _ I) as (W1 & WL & WT & W16 & WP).
  destruct (chunk_facts _ I) as (_ & CL & CD & CV).
  apply index_of_nth; [apply (legal_nodup _ ok) | lia].
Qed.

(** The digits [decode] will append for the move of this step: the window,
    after as many zeros as the clamp removed. *)
Lemma move_binary_step (st : EncState E) :
  Inv st ->
  move_binary E (position E (chess_board E st)) (move_of st)
  = Some (repeat "0"%char
                 (Nat.log2 (List.length (legal_of st)) - width_of st)
          ++ chunk_of st).
Proof.
  intros I. destruct (width_facts _ I) as (W1 & WL & WT & W16 & WP).
  destruct (chunk_facts _ I) as (_ & CL & CD & CV).
  unfold move_binary. fold (legal_of st). rewrite (move_of_index _ I).
  rewrite (zfill_wider (value (chunk_of st)) (width_of st)) by assumption.
  do 2 f_equal.
  assert (Hne : chunk_of st <> [])
    by (intros Hnil; rewrite Hnil in CL; simpl in CL; lia).
  pose proof (to_binary_string_of_value _ CD Hne) as Hx.
  rewrite CL in Hx. exact Hx.
Qed.

(** The state after the push of a step that is not a 100-move close. *)
Definition pushed (st : EncState E) : EncState E :=
  let board1 := board_push E (chess_board E st) (move_of st) in
  let index1 := file_bit_index E st + width_of st in
  if game_over E board1 || (total <=? index1) then
    {| output_pgns :=
         output_pgns E st
         ++ [close_game E file_extension base_name (output_pgns E st) board1];
       file_bit_index := index1;
       chess_board := new_board E;
       moves_in_current_game := 0 |}
  else
    {| output_pgns := output_pgns E st;
       file_bit_index := index1;
       chess_board := board1;
       moves_in_current_game := moves_in_current_game E st + 1 |}.

(** The state after a 100-move close. *)
Definition capped (st : EncState E) : EncState E :=
  {| output_pgns :=
       output_pgns E st
       ++ [close_game E file_extension base_name (output_pgns E st)
                      (chess_board E st)];
     file_bit_index := file_bit_index E st;
     chess_board := new_board E;
     moves_in_current_game := 0 |}.

Lemma loop_body_cap (st : EncState E) :
  MAX_MOVES_PER_GAME <= moves_in_current_game E st ->
  body st = Continue E (capped st).
Proof.
  intros H. unfold loop_body. apply Nat.leb_le in H. rewrite H.
  reflexivity.
Qed.

Lemma loop_body_push (st : EncState E) :
  Inv st -> moves_in_current_game E st < MAX_MOVES_PER_GAME ->
  body st
  = if total <=? file_bit_index E st + width_of st
    then Break E (pushed st) else Continue E (pushed st).
Proof.
  intros I H. unfold loop_body.
  apply Nat.leb_gt in H. rewrite H.
  pose proof (inv_legal _ I) as Hl. unfold legal_of in Hl.
  destruct (legal_moves E (position E (chess_board E st))) as [|m0 l0] eqn:HL;
    [simpl in Hl; lia|].
  rewrite <- HL. fold (legal_of st). fold (width_of st). fold (chunk_of st).
  rewrite (find_move_step _ I). unfold pushed.
  destruct (total <=? file_bit_index E st + width_of st);
    destruct (game_over E (board_push E (chess_board E st) (move_of st)));
    reflexivity.
Qed.

End EncodeStep.

(** ** The run of the encoder *)

Section EncodeRun.

Variable E : RulesEngine.
Variable file_extension base_name : string.
Variable file_bytes : list byte.
Hypothesis ok : EngineOK E.
Hypothesis nonempty : file_bytes <> [].

Local Abbreviation total := (file_bits_count file_bytes).
Local Abbreviation fb := (file_bits file_bytes).
Local Abbreviation body := (loop_body E file_extension base_name file_bytes).
Local Abbreviation inv := (Inv E file_bytes).
Local Abbreviation width := (width_of E file_bytes).
Local Abbreviation chunk := (chunk_of E file_bytes).
Local Abbreviation move := (move_of E file_bytes).
Local Abbreviation after_push :=
  (pushed E file_extension base_name file_bytes).
Local Abbreviation after_cap := (capped E file_extension base_name).

Lemma games_stream_empty_game (gs : list (list string)) :
  games_stream E (gs ++ [[]]) = games_stream E gs.
Proof.
  rewrite games_stream_snoc; simpl.
  destruct (games_stream E gs); auto. rewrite app_nil_r; reflexivity.
Qed.

Lemma games_stream_push (gs : list (list string)) (ms : list string)
      (m : string) (s b : bits) :
  games_stream E (gs ++ [ms]) = Some s ->
  move_binary E (fold_left (push_uci E) ms (start E)) m = Some b ->
  games_stream E (gs ++ [ms ++ [m]]) = Some (s ++ b).
Proof.
  rewrite !games_stream_snoc, moves_stream_snoc.
  destruct (games_stream E gs) as [s1|]; [|discriminate].
  destruct (moves_stream E (start E) ms) as [s2|]; [|discriminate].
  intros Hs Hb. injection Hs as <-. rewrite Hb, app_assoc; reflexivity.
Qed.

Lemma numbers_snoc (out : list Game) (b : Board E) :
  map PartNumber out = map str (seq 1 (List.length out)) ->
  map PartNumber (out ++ [close_game E file_extension base_name out b])
  = map str (seq 1 (List.length (out ++ [close_game E file_extension
                                                   base_name out b]))).
Proof.
  intros H. rewrite length_app, map_app, H. simpl List.length.
  rewrite Nat.add_1_r, seq_S, map_app. simpl.
  rewrite Nat.add_1_r; reflexivity.
Qed.

Lemma Inv_initial : inv (initial_state E).
Proof.
  constructor; simpl; auto.
  - unfold file_bits_count. destruct file_bytes; [congruence | simpl; lia].
  - apply (start_moves _ ok).
  - reflexivity.
  - unfold MAX_MOVES_PER_GAME; lia.
Qed.

Lemma Inv_capped (st : EncState E) : inv st -> inv (after_cap st).
Proof.
  intros I. constructor; simpl.
  - apply (inv_index _ _ _ I).
  - apply (start_moves _ ok).
  - reflexivity.
  - reflexivity.
  - unfold MAX_MOVES_PER_GAME; lia.
  - apply numbers_snoc, (inv_numbers _ _ _ I).
  - unfold played; simpl. rewrite map_app; simpl.
    rewrite games_stream_empty_game. apply (inv_stream _ _ _ I).
Qed.

(** The stream of the games once the move of the step is on the board. *)
Lemma stream_after_push (st : EncState E) :
  inv st ->
  games_stream E (map mainline (output_pgns E st)
                  ++ [move_stack E (chess_board E st) ++ [move st]])
  = Some (firstn (file_bit_index E st) fb
          ++ repeat "0"%char
               (Nat.log2 (List.length (legal_of E st)) - width st)
          ++ chunk st).
Proof.
  intros I. eapply games_stream_push.
  - apply (inv_stream _ _ _ I).
  - rewrite <- (inv_replay _ _ _ I). apply move_binary_step; assumption.
Qed.

Lemma Inv_pushed (st : EncState E) :
  inv st ->
  moves_in_current_game E st < MAX_MOVES_PER_GAME ->
  file_bit_index E st + width st < total ->
  inv (after_push st).
Proof.
  intros I Hm Hlt.
  destruct (width_facts _ _ ok _ I) as (W1 & WL & WT & W16 & WP).
  destruct (chunk_facts _ _ ok _ I) as (CB & CL & CD & CV).
  pose proof (stream_after_push _ I) as Hs.
  assert (HwL : width st = Nat.log2 (List.length (legal_of E st))).
  { unfold width_of, max_binary_length in *. lia. }
  rewrite <- HwL, Nat.sub_diag in Hs. simpl repeat in Hs. simpl app in Hs.
  rewrite CB, <- file_bits_advance in Hs.
  unfold pushed.
  assert (Heof : (total <=? file_bit_index E st + width st) = false)
    by (apply Nat.leb_gt; exact Hlt).
  rewrite Heof, orb_false_r.
  destruct (game_over E (board_push E (chess_board E st) (move st)))
    eqn:Hover.
  - constructor; simpl; auto.
    + apply (start_moves _ ok).
    + reflexivity.
    + unfold MAX_MOVES_PER_GAME; lia.
    + apply numbers_snoc, (inv_numbers _ _ _ I).
    + unfold played; simpl. rewrite map_app; simpl.
      rewrite games_stream_empty_game. exact Hs.
  - constructor; simpl; auto.
    + unfold game_over in Hover. apply orb_false_iff in Hover.
      destruct Hover as [Hover _]. apply orb_false_iff in Hover.
      destruct Hover as [Hover _]. apply Nat.leb_gt in Hover.
      unfold legal_of; simpl. simpl in Hover. lia.
    + unfold replayed; simpl. rewrite fold_left_app; simpl.
      rewrite <- (inv_replay _ _ _ I). reflexivity.
    + rewrite length_app; simpl. rewrite (inv_count _ _ _ I); reflexivity.
    + lia.
    + apply (inv_numbers _ _ _ I).
Qed.

Lemma pushed_index (st : EncState E) :
  file_bit_index E (after_push st) = file_bit_index E st + width st.
Proof.
  unfold pushed.
  destruct (game_over E _ || (total <=? _)); reflexivity.
Qed.

Lemma step_inv (st st' : EncState E) :
  inv st -> body st = Continue E st' -> inv st'.
Proof.
  intros I Hb.
  destruct (Nat.le_gt_cases MAX_MOVES_PER_GAME (moves_in_current_game E st))
    as [Hcap | Hlt].
  - rewrite loop_body_cap in Hb by exact Hcap.
    injection Hb as <-. apply Inv_capped, I.
  - rewrite (loop_body_push _ file_extension base_name _ ok _ I Hlt) in Hb.
    destruct (Nat.leb_spec total (file_bit_index E st + width st));
      [discriminate|].
    injection Hb as <-. apply Inv_pushed; assumption.
Qed.

Lemma iterations_inv (fuel : nat) :
  forall st, inv st ->
  forall st', In st'
                 (iterations E file_extension base_name file_bytes fuel st) ->
              inv st'.
Proof.
  induction fuel as [|fuel IH]; intros st I st' Hin; simpl in Hin; [tauto|].
  destruct Hin as [<- | Hin]; auto.
  destruct (body st) as [st1| |] eqn:Hb; simpl in Hin; try tauto.
  eapply IH; [|exact Hin]. eapply step_inv; eauto.
Qed.

(** The iterations left are bounded by this number. *)
Definition steps_left (st : EncState E) : nat :=
  2 * (total - file_bit_index E st)
  + (if MAX_MOVES_PER_GAME <=? moves_in_current_game E st then 1 else 0).

(** The loop ends, at a step that is not a 100-move close and whose window
    reaches the end of the file. *)
Lemma run_loop_ends (fuel : nat) :
  forall st, inv st -> steps_left st < fuel ->
  exists last,
    In last (iterations E file_extension base_name file_bytes fuel st)
    /\ moves_in_current_game E last < MAX_MOVES_PER_GAME
    /\ file_bit_index E last + width last = total
    /\ body last = Break E (after_push last)
    /\ run_loop E file_extension base_name file_bytes fuel st
       = Some (Ok (after_push last)).
Proof.
  induction fuel as [|fuel IH]; intros st I Hf; [lia|].
  unfold steps_left in Hf.
  destruct (Nat.leb_spec MAX_MOVES_PER_GAME (moves_in_current_game E st))
    as [Hcap | Hlt].
  - pose proof (loop_body_cap E file_extension base_name file_bytes st Hcap)
      as Hb.
    destruct (IH (after_cap st)) as (last & Hin & Hrest).
    + apply Inv_capped, I.
    + unfold steps_left; simpl. lia.
    + exists last. simpl. rewrite Hb. split; [right; exact Hin|].
      exact Hrest.
  - pose proof (loop_body_push _ file_extension base_name _ ok _ I Hlt)
      as Hb.
    destruct (width_facts _ _ ok _ I) as (W1 & WL & WT & W16 & WP).
    destruct (Nat.leb_spec total (file_bit_index E st + width st))
      as [Heof | Hmore].
    + exists st. simpl. rewrite Hb. repeat split; auto. lia.
    + destruct (IH (after_push st)) as (last & Hin & Hrest).
      * apply Inv_pushed; assumption.
      * unfold steps_left. rewrite pushed_index.
        destruct (MAX_MOVES_PER_GAME <=? _); lia.
      * exists last. simpl. rewrite Hb. split; [right; exact Hin|].
        exact Hrest.
Qed.

Lemma steps_left_initial : steps_left (initial_state E) = 2 * total.
Proof. unfold steps_left; simpl. lia. Qed.

(** The games at the end of the run, and the stream they decode to. *)
Lemma final_games (last : EncState E) :
  inv last ->
  moves_in_current_game E last < MAX_MOVES_PER_GAME ->
  file_bit_index E last + width last = total ->
  map PartNumber (output_pgns E (after_push last))
  = map str (seq 1 (List.length (output_pgns E (after_push last))))
  /\ games_stream E (map mainline (output_pgns E (after_push last)))
     = Some (firstn (file_bit_index E last) fb
             ++ repeat "0"%char
                  (Nat.log2 (List.length (legal_of E last)) - width last)
             ++ chunk last).
Proof.
  intros I Hm Heof. unfold pushed.
  assert (Hle : (total <=? file_bit_index E last + width last) = true)
    by (apply Nat.leb_le; lia).
  rewrite Hle, orb_true_r. simpl output_pgns. split.
  - apply numbers_snoc, (inv_numbers _ _ _ I).
  - rewrite map_app. simpl. apply stream_after_push, I.
Qed.

End EncodeRun.

(** ** A small rules engine

    Five moves when an even number of moves has been played, nine when odd;
    a draw can be claimed after five moves. It is used to run the codec on
    concrete files. *)

Module Toy.

Definition moves5 : list string := ["a"; "b"; "c"; "d"; "e"].
Definition moves9 : list string :=
  ["a"; "b"; "c"; "d"; "e"; "f"; "g"; "h"; "i"].

Definition engine : RulesEngine :=
  {| Position := nat;
     start := 0;
     legal_moves := fun p => if Nat.even p then moves5 else moves9;
     push_uci := fun p _ => S p;
     is_insufficient_material := fun _ => false;
     can_claim_draw := fun p => 5 <=? p |}.

Lemma moves9_tokens (m : string) : In m moves9 -> is_token m.
Proof.
  intros H. split.
  - intros ->. simpl in H. intuition discriminate.
  - simpl in H.
    repeat (destruct H as [<- | H];
            [intros c [<- | []]; reflexivity|]).
    destruct H.
Qed.

Lemma moves5_incl (m : string) : In m moves5 -> In m moves9.
Proof. simpl; intuition. Qed.

Lemma engine_ok : EngineOK engine.
Proof.
  constructor; simpl.
  - intros p. destruct (Nat.even p).
    + repeat (constructor; [simpl; intuition discriminate|]). constructor.
    + repeat (constructor; [simpl; intuition discriminate|]). constructor.
  - intros p. destruct (Nat.even p); simpl; lia.
  - lia.
  - intros p m. destruct (Nat.even p); intros H.
    + apply moves9_tokens, moves5_incl, H.
    + apply moves9_tokens, H.
Defined.

End Toy.

(** ** Encoding, then decoding *)

(** The clamp of line 65 is active: fewer bits remain than the position
    could take. *)
Definition clamped (E : RulesEngine) (file_bytes : list byte)
           (st : EncState E) : bool :=
  file_bits_count file_bytes - file_bit_index E st
  <? Nat.log2 (List.length (legal_of E st)).

(** No step of the run, 100-move closes apart, is clamped. *)
Definition never_clamped (E : RulesEngine) (file_extension base_name : string)
           (file_bytes : list byte) (fuel : nat) : bool :=
  forallb (fun st => (MAX_MOVES_PER_GAME <=? moves_in_current_game E st)
                     || negb (clamped E file_bytes st))
          (iterations E file_extension base_name file_bytes fuel
                      (initial_state E)).

Section RoundTrip.

Variable E : RulesEngine.
Variable file_extension base_name : string.
Variable file_bytes : list byte.
Hypothesis ok : EngineOK E.
Hypothesis nonempty : file_bytes <> [].

Local Abbreviation total := (file_bits_count file_bytes).
Local Abbreviation fb := (file_bits file_bytes).
Local Abbreviation body := (loop_body E file_extension base_name file_bytes).
Local Abbreviation steps :=
  (iterations E file_extension base_name file_bytes).
Local Abbreviation width := (width_of E file_bytes).
Local Abbreviation chunk := (chunk_of E file_bytes).
Local Abbreviation after_push :=
  (pushed E file_extension base_name file_bytes).

Lemma run_loop_break (fuel : nat) :
  forall st0 st st',
    In st (steps fuel st0) -> body st = Break E st' ->
    run_loop E file_extension base_name file_bytes fuel st0 = Some (Ok st').
Proof.
  induction fuel as [|fuel IH]; intros st0 st st' Hin Hb; simpl in *;
    [tauto|].
  destruct Hin as [-> | Hin]; [rewrite Hb; reflexivity|].
  destruct (body st0) as [st1| |]; simpl in Hin; try tauto.
  eapply IH; eauto.
Qed.

Lemma moves_stream_tokens (ms : list string) :
  forall (p : Position E) (s : bits),
    moves_stream E p ms = Some s -> Forall is_token ms.
Proof.
  induction ms as [|m r IH]; intros p s H; simpl in H; constructor.
  - unfold move_binary in H.
    destruct (index_of m (legal_moves E p)) as [i|] eqn:Hi; [|discriminate].
    apply (legal_tokens _ ok p). apply index_of_In; eauto.
  - destruct (move_binary E p m); [|discriminate].
    destruct (moves_stream E (push_uci E p m) r) eqn:Hr; [|discriminate].
    eapply IH; eauto.
Qed.

Lemma games_stream_split (gs : list Game) (s : bits) :
  games_stream E (map mainline gs) = Some s ->
  map split (map game_moves gs) = map mainline gs.
Proof.
  revert s; induction gs as [|g r IH]; intros s H; simpl in *; auto.
  destruct (moves_stream E (start E) (mainline g)) eqn:Hg; [|discriminate].
  destruct (games_stream E (map mainline r)) eqn:Hr; [|discriminate].
  f_equal; [|eapply IH; eauto].
  unfold game_moves. apply split_join. eapply moves_stream_tokens; eauto.
Qed.

(** At the step that reaches the end of the file the run returns, and
    [decode] writes the whole bytes of the bits read so far followed by
    the last window after the zeros its narrower width leaves out. *)
Lemma encode_then_decode (fuel : nat) (response : option string)
      (st : EncState E) :
  In st (steps fuel (initial_state E)) ->
  moves_in_current_game E st < MAX_MOVES_PER_GAME ->
  file_bit_index E st + width st = total ->
  exists res,
    encode E file_extension base_name (Some file_bytes) fuel = Some (Ok res)
    /\ map PartNumber (pgn res) = map str (seq 1 (game_count res))
    /\ exists (written : list byte) (rest : bits),
        fst (decode E (map game_moves (pgn res)) [] response) = written
        /\ file_bits written ++ rest
           = firstn (file_bit_index E st) fb
             ++ repeat "0"%char
                  (Nat.log2 (List.length (legal_of E st)) - width st)
             ++ chunk st
        /\ List.length rest < 8.
Proof.
  intros Hin Hm Heof.
  assert (I : Inv E file_bytes st).
  { eapply iterations_inv; [exact ok | | exact Hin].
    apply Inv_initial; assumption. }
  assert (Hb : body st = Break E (after_push st)).
  { rewrite (loop_body_push _ file_extension base_name _ ok _ I Hm).
    rewrite Heof, Nat.leb_refl; reflexivity. }
  pose proof (run_loop_break fuel _ _ _ Hin Hb) as Hrun.
  destruct (final_games _ file_extension base_name _ ok _ I Hm Heof)
    as [Hnum Hstream].
  exists (encode_result E base_name (after_push st)).
  assert (Hlen : (List.length file_bytes =? 0) = false)
    by (destruct file_bytes; [congruence | reflexivity]).
  unfold encode. rewrite Hlen, Hrun.
  split; [reflexivity|]. split; [exact Hnum|].
  simpl pgn.
  destruct (decode_stream E (map game_moves (output_pgns E (after_push st)))
                          [] response)
    with (s := firstn (file_bit_index E st) fb
               ++ repeat "0"%char
                    (Nat.log2 (List.length (legal_of E st)) - width st)
               ++ chunk st)
    as (written & rest & Hw & Hs & Hr).
  - rewrite (games_stream_split _ _ Hstream). exact Hstream.
  - exists written, rest. auto.
Qed.

End RoundTrip.

Lemma zeros_shift (c rest : bits) (k : nat) :
  1 <= k -> c ++ rest = repeat "0"%char k ++ c ->
  c = repeat "0"%char (List.length c).
Proof.
  intros Hk; revert rest; induction c as [|a c IH]; intros rest H; auto.
  destruct k as [|k]; [lia|]. simpl in H. injection H as -> H.
  simpl. f_equal. apply (IH rest).
  rewrite H. change ("0"%char :: c) with (["0"%char] ++ c).
  rewrite app_assoc, <- repeat_cons. reflexivity.
Qed.

Lemma whole_bytes_eq (written file_bytes : list byte) (rest pad : bits) :
  file_bits written ++ rest = file_bits file_bytes ++ pad ->
  List.length rest < 8 -> List.length pad < 8 ->
  written = file_bytes /\ rest = pad.
Proof.
  intros H Hr Hp.
  assert (Hlen : List.length (file_bits written)
                 = List.length (file_bits file_bytes)).
  { apply (f_equal (@List.length _)) in H.
    rewrite !length_app, !file_bits_length in H.
    rewrite !file_bits_length. lia. }
  destruct (app_same_length _ _ _ _ Hlen H) as [Hb Hrest].
  split; auto. apply file_bits_inj, Hb.
Qed.

(** * The codec, claim by claim *)

(** C4. [encode] applied to an empty file fails with a [ValueError] (the
    one raised as "File is empty" and raised again by the handler around
    the read); no game is produced. *)
Theorem encode_empty_file (E : RulesEngine) (file_extension base_name : string)
        (fuel : nat) :
  encode E file_extension base_name (Some []) fuel
  = Some (Raise (ValueError "Error reading file: File is empty")).
Proof. reflexivity. Qed.

(** C1. For a file that is not empty and whose run is never clamped, the
    run of [encode] returns and [decode], given the moves of the games in
    part order, writes exactly the bytes of the file. *)
Theorem decode_encode_roundtrip (E : RulesEngine)
        (file_extension base_name : string) (file_bytes : list byte)
        (fuel : nat) (response : option string) :
  EngineOK E ->
  file_bytes <> [] ->
  2 * file_bits_count file_bytes < fuel ->
  never_clamped E file_extension base_name file_bytes fuel = true ->
  exists res,
    encode E file_extension base_name (Some file_bytes) fuel = Some (Ok res)
    /\ fst (decode E (map game_moves (pgn res)) [] response) = file_bytes.
Proof.
  intros ok nonempty Hfuel Hnc.
  destruct (run_loop_ends E file_extension base_name file_bytes ok fuel
                          (initial_state E))
    as (last & Hin & Hm & Heof & _ & _).
  { apply Inv_initial; assumption. }
  { rewrite steps_left_initial; exact Hfuel. }
  destruct (encode_then_decode E file_extension base_name file_bytes ok
                               nonempty fuel response last Hin Hm Heof)
    as (res & Henc & _ & written & rest & Hw & Hs & Hr).
  exists res. split; [exact Henc|]. rewrite Hw.
  assert (I : Inv E file_bytes last).
  { eapply iterations_inv; [exact ok | | exact Hin].
    apply Inv_initial; assumption. }
  destruct (chunk_facts _ _ ok _ I) as (CB & _).
  unfold never_clamped in Hnc. rewrite forallb_forall in Hnc.
  specialize (Hnc last Hin).
  apply Nat.leb_gt in Hm. rewrite Hm in Hnc. simpl in Hnc.
  apply negb_true_iff, Nat.ltb_ge in Hnc.
  assert (HwL : width_of E file_bytes last
                = Nat.log2 (List.length (legal_of E last))).
  { unfold width_of, max_binary_length. lia. }
  rewrite <- HwL, Nat.sub_diag in Hs. simpl in Hs.
  rewrite CB, <- file_bits_advance, Heof in Hs.
  rewrite firstn_all2 in Hs by (rewrite file_bits_length; unfold file_bits_count; lia).
  rewrite <- (app_nil_r (file_bits file_bytes)) in Hs.
  apply whole_bytes_eq in Hs; [tauto | exact Hr | simpl; lia].
Qed.

Lemma decode_encode_roundtrip_witness :
  exists res,
    encode Toy.engine "txt" "f.txt" (Some [x41; x42; x00]) 49 = Some (Ok res)
    /\ fst (decode Toy.engine (map game_moves (pgn res)) [] (Some "txt"))
       = [x41; x42; x00].
Proof.
  apply (decode_encode_roundtrip Toy.engine "txt" "f.txt" [x41; x42; x00] 49
                                 (Some "txt")).
  - exact Toy.engine_ok.
  - discriminate.
  - vm_compute; lia.
  - vm_compute; reflexivity.
Defined.

(** C2, as the code has it. A clamped step is the last one of the run: its
    window is the [r] bits that remain, fewer than the [L] digits the
    position could take. [decode] appends [L] digits for that move, the
    window after [L - r] zeros, so its output is the file exactly when the
    last [r] bits of the file are all zero (and fewer than eight zeros were
    added); otherwise the tail differs. *)
Theorem clamped_final_step (E : RulesEngine)
        (file_extension base_name : string) (file_bytes : list byte)
        (fuel : nat) (response : option string) (st : EncState E) :
  EngineOK E ->
  file_bytes <> [] ->
  In st (iterations E file_extension base_name file_bytes fuel
                    (initial_state E)) ->
  moves_in_current_game E st < MAX_MOVES_PER_GAME ->
  clamped E file_bytes st = true ->
  let r := file_bits_count file_bytes - file_bit_index E st in
  let L := Nat.log2 (List.length (legal_of E st)) in
  width_of E file_bytes st = r
  /\ move_binary E (position E (chess_board E st)) (move_of E file_bytes st)
     = Some (repeat "0"%char (L - r)
             ++ skipn (file_bit_index E st) (file_bits file_bytes))
  /\ exists res,
      encode E file_extension base_name (Some file_bytes) fuel = Some (Ok res)
      /\ (fst (decode E (map game_moves (pgn res)) [] response) = file_bytes
          <-> skipn (file_bit_index E st) (file_bits file_bytes)
              = repeat "0"%char r
              /\ L - r < 8).
Proof.
  intros ok nonempty Hin Hm Hcl r L.
  assert (I : Inv E file_bytes st).
  { eapply iterations_inv; [exact ok | | exact Hin].
    apply Inv_initial; assumption. }
  pose proof (inv_index _ _ _ I) as Hidx.
  destruct (width_facts _ _ ok _ I) as (W1 & WL & WT & W16 & WP).
  destruct (chunk_facts _ _ ok _ I) as (CB & CL & CD & CV).
  unfold clamped in Hcl. apply Nat.ltb_lt in Hcl. fold r L in Hcl.
  assert (Hw : width_of E file_bytes st = r).
  { unfold width_of, max_binary_length. fold L r. lia. }
  assert (Hchunk : chunk_of E file_bytes st
                   = skipn (file_bit_index E st) (file_bits file_bytes)).
  { rewrite CB. apply firstn_all2.
    rewrite length_skipn, file_bits_length. fold (file_bits_count file_bytes).
    fold r. lia. }
  split; [exact Hw|]. split.
  { rewrite (move_binary_step _ _ ok _ I). fold L. rewrite Hw, Hchunk.
    reflexivity. }
  assert (Heof : file_bit_index E st + width_of E file_bytes st
                 = file_bits_count file_bytes) by (unfold r in Hw; lia).
  destruct (encode_then_decode E file_extension base_name file_bytes ok
                               nonempty fuel response st Hin Hm Heof)
    as (res & Henc & _ & written & rest & Hwr & Hs & Hr).
  exists res. split; [exact Henc|]. rewrite Hwr.
  fold L in Hs. rewrite Hw, Hchunk in Hs.
  assert (Hlen : List.length (skipn (file_bit_index E st)
                                    (file_bits file_bytes)) = r).
  { rewrite length_skipn, file_bits_length. reflexivity. }
  split.
  - intros ->.
    rewrite <- (firstn_skipn (file_bit_index E st) (file_bits file_bytes))
      in Hs at 1.
    rewrite <- app_assoc in Hs. apply app_inv_head in Hs.
    pose proof (zeros_shift _ rest (L - r) ltac:(lia) Hs) as Hz.
    rewrite Hlen in Hz. split; [exact Hz|].
    apply (f_equal (@List.length _)) in Hs.
    rewrite !length_app, repeat_length in Hs. lia.
  - intros [Hz Hk]. rewrite Hz, <- repeat_app in Hs.
    rewrite Nat.add_comm, repeat_app, <- Hz in Hs.
    rewrite app_assoc, firstn_skipn in Hs.
    apply whole_bytes_eq in Hs; [tauto | exact Hr|].
    rewrite repeat_length; exact Hk.
Qed.

Definition toy_last_state : EncState Toy.engine :=
  {| output_pgns := [];
     file_bit_index := 7;
     chess_board := {| position := 3 : Position Toy.engine;
                       move_stack := ["b"; "a"; "a"] |};
     moves_in_current_game := 3 |}.

Lemma clamped_final_step_witness :
  width_of Toy.engine [x41] toy_last_state = 1
  /\ move_binary Toy.engine 3 (move_of Toy.engine [x41] toy_last_state)
     = Some (repeat "0"%char 2 ++ skipn 7 (file_bits [x41]))
  /\ exists res,
      encode Toy.engine "txt" "f.txt" (Some [x41]) 17 = Some (Ok res)
      /\ (fst (decode Toy.engine (map game_moves (pgn res)) [] None) = [x41]
          <-> skipn 7 (file_bits [x41]) = repeat "0"%char 1 /\ 3 - 1 < 8).
Proof.
  apply (clamped_final_step Toy.engine "txt" "f.txt" [x41] 17 None
                            toy_last_state).
  - exact Toy.engine_ok.
  - discriminate.
  - vm_compute. right; right; right; left; reflexivity.
  - vm_compute; lia.
  - vm_compute; reflexivity.
Defined.

(** ** Moves that are not legal *)

(** The first move of a game that is not in the list of legal moves at its
    step, the moves before it being replayed from [p]. *)
Fixpoint first_illegal (E : RulesEngine) (p : Position E) (ms : list string)
  : option string :=
  match ms with
  | [] => None
  | m :: r =>
      if existsb (String.eqb m) (legal_moves E p)
      then first_illegal E (push_uci E p m) r
      else Some m
  end.

Lemma index_of_existsb (x : string) (l : list string) :
  existsb (String.eqb x) l = true <-> exists i, index_of x l = Some i.
Proof.
  rewrite <- index_of_In, existsb_exists. split.
  - intros (y & Hy & Heq). apply String.eqb_eq in Heq; subst; auto.
  - intros H. exists x. split; auto. apply String.eqb_refl.
Qed.

Section Corrupt.

Variable E : RulesEngine.

Lemma decode_moves_illegal (ms : list string) :
  forall (p : Position E) (data : bits) (file : list byte) (m : string),
    first_illegal E p ms = Some m ->
    exists file' e, decode_moves E p data file ms = (file', Raise e).
Proof.
  induction ms as [|m0 r IH]; intros p data file m H; simpl in H;
    [discriminate|].
  simpl. unfold decode_move.
  destruct (index_of m0 (legal_moves E p)) as [i|] eqn:Hi.
  - assert (Hex : existsb (String.eqb m0) (legal_moves E p) = true)
      by (apply index_of_existsb; eauto).
    rewrite Hex in H.
    destruct (write_bytes _ _ _) as [file1 [data1 | e]]; eauto.
  - eauto.
Qed.

Lemma decode_games_illegal (moves_list : list string) :
  forall (data : bits) (file : list byte) (moves m : string),
    In moves moves_list ->
    first_illegal E (start E) (split moves) = Some m ->
    exists file' e, decode_games E data file moves_list = (file', Raise e).
Proof.
  induction moves_list as [|g r IH]; intros data file moves m Hin Hm;
    simpl in Hin; [tauto|].
  simpl.
  destruct (decode_moves E (start E) data file (split g))
    as [file1 [data1 | e]] eqn:Hg; eauto.
  destruct Hin as [-> | Hin]; [|eauto].
  destruct (decode_moves_illegal _ (start E) data file m Hm)
    as (f' & e & He).
  rewrite He in Hg; discriminate.
Qed.

End Corrupt.

(** C3. When some game of the input holds a move that is not in the list of
    legal moves at its step, [decode] raises a [ValueError] whose message
    starts with "Error decoding PGN: "; it returns no file type. *)
Theorem decode_illegal_move (E : RulesEngine) (moves_list : list string)
        (file : list byte) (response : option string) (moves m : string) :
  In moves moves_list ->
  first_illegal E (start E) (split moves) = Some m ->
  exists file' msg,
    decode E moves_list file response
    = (file', Raise (ValueError ("Error decoding PGN: " ++ msg))).
Proof.
  intros Hin Hm.
  destruct (decode_games_illegal E moves_list [] file moves m Hin Hm)
    as (file' & [msg] & He).
  exists file', msg. unfold decode. rewrite He. reflexivity.
Qed.

Lemma decode_illegal_move_witness :
  exists file' msg,
    decode Toy.engine ["a b"; "a z a"] [] (Some "txt")
    = (file', Raise (ValueError ("Error decoding PGN: " ++ msg))).
Proof.
  apply (decode_illegal_move Toy.engine ["a b"; "a z a"] [] (Some "txt")
                             "a z a" "z").
  - simpl; auto.
  - reflexivity.
Defined.

(** ** The steps of a run *)

Lemma find_move_In (d : dict) (c : bits) (m : string) :
  find_move d c = Some m -> In (m, c) d.
Proof.
  induction d as [|[k v] d IH]; simpl; [discriminate|].
  destruct (bits_eqb v c) eqn:Hv.
  - intros H; injection H as <-. apply bits_eqb_eq in Hv; subst; auto.
  - auto.
Qed.

Lemma values_unique (d : dict) (k k' : string) (v : bits) :
  NoDup (map snd d) -> In (k, v) d -> In (k', v) d -> k = k'.
Proof.
  induction d as [|[k0 v0] d IH]; simpl; [tauto|].
  intros Hnd. inversion Hnd as [|? ? Hnotin Hnd']; subst.
  intros [H1 | H1] [H2 | H2].
  - congruence.
  - injection H1 as -> ->. exfalso; apply Hnotin.
    change v with (snd (k', v)). apply in_map, H2.
  - injection H2 as -> ->. exfalso; apply Hnotin.
    change v with (snd (k, v)). apply in_map, H1.
  - auto.
Qed.

(** Every move pushed so far, over all games. *)
Definition all_moves (E : RulesEngine) (st : EncState E) : list string :=
  List.concat (played E st).

Section Steps.

Variable E : RulesEngine.
Variable file_extension base_name : string.
Variable file_bytes : list byte.
Hypothesis ok : EngineOK E.
Hypothesis nonempty : file_bytes <> [].

Local Abbreviation total := (file_bits_count file_bytes).
Local Abbreviation body := (loop_body E file_extension base_name file_bytes).
Local Abbreviation steps :=
  (iterations E file_extension base_name file_bytes).
Local Abbreviation width := (width_of E file_bytes).
Local Abbreviation chunk := (chunk_of E file_bytes).
Local Abbreviation move := (move_of E file_bytes).
Local Abbreviation after_push :=
  (pushed E file_extension base_name file_bytes).
Local Abbreviation after_cap := (capped E file_extension base_name).

Lemma steps_inv (fuel : nat) (st : EncState E) :
  In st (steps fuel (initial_state E)) -> Inv E file_bytes st.
Proof.
  intros Hin. eapply iterations_inv; [exact ok | | exact Hin].
  apply Inv_initial; assumption.
Qed.

Lemma body_cases (st : EncState E) :
  Inv E file_bytes st ->
  (MAX_MOVES_PER_GAME <= moves_in_current_game E st
   /\ body st = Continue E (after_cap st))
  \/ (moves_in_current_game E st < MAX_MOVES_PER_GAME
      /\ (body st = Continue E (after_push st)
          \/ body st = Break E (after_push st))).
Proof.
  intros I.
  destruct (Nat.le_gt_cases MAX_MOVES_PER_GAME (moves_in_current_game E st))
    as [Hcap | Hlt].
  - left. split; auto. apply loop_body_cap, Hcap.
  - right. split; auto.
    rewrite (loop_body_push _ file_extension base_name _ ok _ I Hlt).
    destruct (total <=? _); auto.
Qed.

Lemma pushed_all_moves (st : EncState E) :
  all_moves E (after_push st) = all_moves E st ++ [move st].
Proof.
  unfold all_moves, played, pushed.
  destruct (game_over E _ || (total <=? _)); simpl;
    rewrite ?map_app, !concat_app; simpl; rewrite ?app_nil_r;
    rewrite ?concat_app; simpl; rewrite ?app_nil_r, ?app_assoc; reflexivity.
Qed.

End Steps.

(** ** The sizes of the games *)

Section GameSizes.

Variable E : RulesEngine.
Variable file_extension base_name : string.
Variable file_bytes : list byte.
Hypothesis ok : EngineOK E.
Hypothesis nonempty : file_bytes <> [].

Local Abbreviation total := (file_bits_count file_bytes).
Local Abbreviation steps :=
  (iterations E file_extension base_name file_bytes).
Local Abbreviation width := (width_of E file_bytes).
Local Abbreviation after_push :=
  (pushed E file_extension base_name file_bytes).
Local Abbreviation after_cap := (capped E file_extension base_name).

(** What holds of the games closed so far and of the count of moves. *)
Record Sizes (st : EncState E) : Prop := {
  sizes_games :
    Forall (fun g => 1 <= List.length (mainline g) <= MAX_MOVES_PER_GAME
                     /\ FileType g = file_extension
                     /\ FileName g = base_name)
           (output_pgns E st);
  sizes_moves :
    List.length (all_moves E st) <= file_bit_index E st
    /\ file_bit_index E st <= 9 * List.length (all_moves E st)
}.

Lemma capped_all_moves (st : EncState E) :
  all_moves E (after_cap st) = all_moves E st.
Proof.
  unfold all_moves, played, capped; simpl.
  rewrite map_app, !concat_app; simpl. rewrite !app_nil_r. reflexivity.
Qed.

Lemma Sizes_initial : Sizes (initial_state E).
Proof. constructor; simpl; auto. Qed.

Lemma Sizes_capped (st : EncState E) :
  Inv E file_bytes st -> Sizes st ->
  MAX_MOVES_PER_GAME <= moves_in_current_game E st ->
  Sizes (after_cap st).
Proof.
  intros I S Hcap. constructor.
  - simpl. apply Forall_app. split; [apply (sizes_games _ S)|].
    constructor; [|constructor]. simpl.
    rewrite <- (inv_count _ _ _ I). pose proof (inv_cap _ _ _ I).
    unfold MAX_MOVES_PER_GAME in *. repeat split; lia.
  - rewrite capped_all_moves. simpl. apply (sizes_moves _ S).
Qed.

Lemma Sizes_pushed (st : EncState E) :
  Inv E file_bytes st -> Sizes st ->
  moves_in_current_game E st < MAX_MOVES_PER_GAME ->
  Sizes (after_push st).
Proof.
  intros I S Hm.
  destruct (width_facts _ _ ok _ I) as (W1 & WL & WT & W16 & WP).
  pose proof (legal_bound _ ok (position E (chess_board E st))) as Hb.
  fold (legal_of E st) in Hb.
  destruct (log2_bounds _ (inv_legal _ _ _ I) Hb) as [[_ L9] _].
  constructor.
  - unfold pushed.
    destruct (game_over E _ || (total <=? _)); simpl;
      [|apply (sizes_games _ S)].
    apply Forall_app. split; [apply (sizes_games _ S)|].
    constructor; [|constructor]. simpl.
    rewrite length_app, <- (inv_count _ _ _ I). simpl.
    unfold MAX_MOVES_PER_GAME in *. repeat split; lia.
  - rewrite pushed_all_moves, pushed_index, length_app. simpl.
    destruct (sizes_moves _ S). lia.
Qed.

Lemma steps_sizes (fuel : nat) :
  forall st, Inv E file_bytes st -> Sizes st ->
  forall st', In st' (steps fuel st) -> Sizes st'.
Proof.
  induction fuel as [|fuel IH]; intros st I S st' Hin; simpl in Hin; [tauto|].
  destruct Hin as [<- | Hin]; auto.
  destruct (body_cases E file_extension base_name file_bytes ok st I)
    as [[Hcap Hb] | [Hlt [Hb | Hb]]]; rewrite Hb in Hin; simpl in Hin;
    try tauto.
  - eapply (IH (after_cap st)); eauto using Inv_capped, Sizes_capped.
  - eapply (IH (after_push st)); eauto using Sizes_pushed.
    eapply step_inv; eauto.
Qed.

(** The result of a run, described from its last step. *)
Lemma encode_result_of_last (fuel : nat) :
  2 * total < fuel ->
  exists last,
    In last (steps fuel (initial_state E))
    /\ Inv E file_bytes last /\ Sizes last
    /\ moves_in_current_game E last < MAX_MOVES_PER_GAME
    /\ file_bit_index E last + width last = total
    /\ encode E file_extension base_name (Some file_bytes) fuel
       = Some (Ok (encode_result E base_name (after_push last))).
Proof.
  intros Hfuel.
  destruct (run_loop_ends E file_extension base_name file_bytes ok fuel
                          (initial_state E))
    as (last & Hin & Hm & Heof & _ & Hrun).
  { apply Inv_initial; assumption. }
  { rewrite steps_left_initial; exact Hfuel. }
  exists last.
  assert (I0 : Inv E file_bytes (initial_state E))
    by (apply Inv_initial; assumption).
  split; [exact Hin|].
  split; [eapply iterations_inv; eauto|].
  split; [eapply steps_sizes; eauto; apply Sizes_initial|].
  split; [exact Hm|]. split; [exact Heof|].
  assert (Hlen : (List.length file_bytes =? 0) = false)
    by (destruct file_bytes; [congruence | reflexivity]).
  unfold encode. rewrite Hlen, Hrun. reflexivity.
Qed.

End GameSizes.

(** C6. At a step of a run that is not a 100-move close, with [w] the
    width of the step: the map holds exactly the first [2 ^ w] legal moves,
    each with the digits of its index padded to [w] digits, and no two of
    its entries share a digit string. *)
Theorem move_map_injective (E : RulesEngine)
        (file_extension base_name : string) (file_bytes : list byte)
        (fuel : nat) (st : EncState E) :
  EngineOK E ->
  file_bytes <> [] ->
  In st (iterations E file_extension base_name file_bytes fuel
                    (initial_state E)) ->
  moves_in_current_game E st < MAX_MOVES_PER_GAME ->
  let legal := legal_of E st in
  let w := width_of E file_bytes st in
  2 ^ w <= List.length legal
  /\ build_move_bits legal w
     = combine (firstn (2 ^ w) legal)
               (map (fun i => to_binary_string i w) (seq 0 (2 ^ w)))
  /\ (forall i, i < 2 ^ w -> List.length (to_binary_string i w) = w)
  /\ NoDup (map snd (build_move_bits legal w)).
Proof.
  intros ok nonempty Hin _ legal w.
  pose proof (steps_inv E file_extension base_name file_bytes ok nonempty
                        fuel st Hin) as I.
  destruct (width_facts _ _ ok _ I) as (W1 & WL & WT & W16 & WP).
  fold w legal in W1, WP.
  assert (Hspec : build_move_bits legal w = indexed_prefix legal 0 (2 ^ w) w)
    by (apply build_move_bits_spec; [exact W1 | apply (legal_nodup _ ok)]).
  repeat split; auto.
  - intros i Hi. apply to_binary_string_fits; assumption.
  - rewrite Hspec. apply indexed_prefix_values.
Qed.

Lemma move_map_injective_witness :
  let legal := legal_of Toy.engine (initial_state Toy.engine) in
  let w := width_of Toy.engine [x41] (initial_state Toy.engine) in
  2 ^ w <= List.length legal
  /\ build_move_bits legal w
     = combine (firstn (2 ^ w) legal)
               (map (fun i => to_binary_string i w) (seq 0 (2 ^ w)))
  /\ (forall i, i < 2 ^ w -> List.length (to_binary_string i w) = w)
  /\ NoDup (map snd (build_move_bits legal w)).
Proof.
  apply (move_map_injective Toy.engine "txt" "f.txt" [x41] 1
                            (initial_state Toy.engine)).
  - exact Toy.engine_ok.
  - discriminate.
  - simpl; auto.
  - vm_compute; lia.
Defined.

(** C9. At a step of a run that is not a 100-move close: the window has
    exactly [w] digits, every string of [w] digits is a value of the map,
    exactly one key of the map has the window as its value, that move is
    the one pushed, and the cursor advances by [w]. *)
Theorem window_selects_one_move (E : RulesEngine)
        (file_extension base_name : string) (file_bytes : list byte)
        (fuel : nat) (st : EncState E) :
  EngineOK E ->
  file_bytes <> [] ->
  In st (iterations E file_extension base_name file_bytes fuel
                    (initial_state E)) ->
  moves_in_current_game E st < MAX_MOVES_PER_GAME ->
  let w := width_of E file_bytes st in
  let move_bits := build_move_bits (legal_of E st) w in
  let chunk := next_file_chunk file_bytes (file_bit_index E st) w in
  List.length chunk = w
  /\ (forall s, is_digits s -> List.length s = w ->
                exists k, In (k, s) move_bits)
  /\ exists m,
      find_move move_bits chunk = Some m
      /\ (forall k, In (k, chunk) move_bits <-> k = m)
      /\ exists st',
          (loop_body E file_extension base_name file_bytes st = Continue E st'
           \/ loop_body E file_extension base_name file_bytes st = Break E st')
          /\ all_moves E st' = all_moves E st ++ [m]
          /\ file_bit_index E st' = file_bit_index E st + w.
Proof.
  intros ok nonempty Hin Hm w move_bits chunk.
  pose proof (steps_inv E file_extension base_name file_bytes ok nonempty
                        fuel st Hin) as I.
  destruct (width_facts _ _ ok _ I) as (W1 & WL & WT & W16 & WP).
  destruct (chunk_facts _ _ ok _ I) as (CB & CL & CD & CV).
  pose proof (find_move_step _ _ ok _ I) as Hfind.
  fold w in W1, WP. fold (chunk_of E file_bytes st) in chunk.
  assert (Hspec : move_bits = indexed_prefix (legal_of E st) 0 (2 ^ w) w)
    by (apply build_move_bits_spec; [exact W1 | apply (legal_nodup _ ok)]).
  split; [exact CL|]. split.
  - intros s Hs Hl. exists (nth (value s - 0) (legal_of E st) EmptyString).
    apply find_move_In. rewrite Hspec.
    pose proof (value_bound s) as Hv. rewrite Hl in Hv.
    apply indexed_prefix_find; auto; lia.
  - exists (move_of E file_bytes st). split; [exact Hfind|]. split.
    + intros k. split.
      * intros Hk. eapply values_unique; [| exact Hk |].
        -- rewrite Hspec. apply indexed_prefix_values.
        -- apply find_move_In, Hfind.
      * intros ->. apply find_move_In, Hfind.
    + exists (pushed E file_extension base_name file_bytes st).
      destruct (body_cases E file_extension base_name file_bytes ok st I)
        as [[Hcap _] | [_ Hb]]; [unfold MAX_MOVES_PER_GAME in *; lia|].
      split; [exact Hb|]. split.
      * apply pushed_all_moves.
      * apply pushed_index.
Qed.

Lemma window_selects_one_move_witness :
  let w := width_of Toy.engine [x41] toy_last_state in
  let move_bits := build_move_bits (legal_of Toy.engine toy_last_state) w in
  let chunk := next_file_chunk [x41] (file_bit_index Toy.engine toy_last_state)
                               w in
  List.length chunk = w
  /\ (forall s, is_digits s -> List.length s = w ->
                exists k, In (k, s) move_bits)
  /\ exists m,
      find_move move_bits chunk = Some m
      /\ (forall k, In (k, chunk) move_bits <-> k = m)
      /\ exists st',
          (loop_body Toy.engine "txt" "f.txt" [x41] toy_last_state
           = Continue Toy.engine st'
           \/ loop_body Toy.engine "txt" "f.txt" [x41] toy_last_state
              = Break Toy.engine st')
          /\ all_moves Toy.engine st' = all_moves Toy.engine toy_last_state ++ [m]
          /\ file_bit_index Toy.engine st'
             = file_bit_index Toy.engine toy_last_state + w.
Proof.
  apply (window_selects_one_move Toy.engine "txt" "f.txt" [x41] 17
                                 toy_last_state).
  - exact Toy.engine_ok.
  - discriminate.
  - vm_compute. right; right; right; left; reflexivity.
  - vm_compute; lia.
Defined.

(** C10. For a file that is not empty: at the top of every iteration the
    position has at least two legal moves and at least one bit remains; a
    step that is not a 100-move close has a width of at least one and moves
    the cursor strictly forward, never past the end; a 100-move close keeps
    the cursor and is followed by a step that is not one; and the run
    returns as soon as the fuel exceeds twice the number of bits. *)
Theorem encode_terminates (E : RulesEngine)
        (file_extension base_name : string) (file_bytes : list byte) :
  EngineOK E ->
  file_bytes <> [] ->
  (forall fuel st,
      In st (iterations E file_extension base_name file_bytes fuel
                        (initial_state E)) ->
      2 <= List.length (legal_of E st)
      /\ file_bit_index E st < file_bits_count file_bytes
      /\ (moves_in_current_game E st < MAX_MOVES_PER_GAME ->
          1 <= width_of E file_bytes st
          /\ exists st',
              (loop_body E file_extension base_name file_bytes st
               = Continue E st'
               \/ loop_body E file_extension base_name file_bytes st
                  = Break E st')
              /\ file_bit_index E st < file_bit_index E st'
                 <= file_bits_count file_bytes)
      /\ (MAX_MOVES_PER_GAME <= moves_in_current_game E st ->
          exists st',
            loop_body E file_extension base_name file_bytes st = Continue E st'
            /\ file_bit_index E st' = file_bit_index E st
            /\ moves_in_current_game E st' < MAX_MOVES_PER_GAME))
  /\ (forall fuel,
         2 * file_bits_count file_bytes < fuel ->
         exists res,
           encode E file_extension base_name (Some file_bytes) fuel
           = Some (Ok res)).
Proof.
  intros ok nonempty. split.
  - intros fuel st Hin.
    pose proof (steps_inv E file_extension base_name file_bytes ok nonempty
                          fuel st Hin) as I.
    destruct (width_facts _ _ ok _ I) as (W1 & WL & WT & W16 & WP).
    split; [apply (inv_legal _ _ _ I)|].
    split; [apply (inv_index _ _ _ I)|]. split.
    + intros Hm. split; [exact W1|].
      exists (pushed E file_extension base_name file_bytes st).
      destruct (body_cases E file_extension base_name file_bytes ok st I)
        as [[Hcap _] | [_ Hb]]; [lia|].
      split; [exact Hb|]. rewrite pushed_index. lia.
    + intros Hcap. exists (capped E file_extension base_name st).
      split; [apply loop_body_cap, Hcap|]. simpl.
      unfold MAX_MOVES_PER_GAME; split; [reflexivity | lia].
  - intros fuel Hfuel.
    destruct (run_loop_ends E file_extension base_name file_bytes ok fuel
                            (initial_state E))
      as (last & Hin & Hm & Heof & _ & _).
    { apply Inv_initial; assumption. }
    { rewrite steps_left_initial; exact Hfuel. }
    destruct (encode_then_decode E file_extension base_name file_bytes ok
                                 nonempty fuel None last Hin Hm Heof)
      as (res & Henc & _).
    exists res; exact Henc.
Qed.

Lemma encode_terminates_witness :
  exists res,
    encode Toy.engine "txt" "f.txt" (Some [x41; x42; x00]) 49 = Some (Ok res).
Proof.
  apply (encode_terminates Toy.engine "txt" "f.txt" [x41; x42; x00]).
  - exact Toy.engine_ok.
  - discriminate.
  - vm_compute; lia.
Defined.

(** C5. In a run on a file that is not empty, the counter of the loop is
    the number of moves of the running game, the move stack of the board,
    which never exceeds 100. An iteration appends a game exactly in these
    cases: the running game has 100 moves (the game is the running game as
    it is), or after the push of the move of the step the position has at
    most one legal move, insufficient material or a claimable draw, or the
    cursor has reached the end of the file (the game is the running game
    with the move pushed). The board is then new; otherwise no game is
    appended and the running game has the move pushed. The game appended
    carries as [PartNumber] the number of games so far plus one, so that
    the games are numbered 1, 2, 3, ... in the order they were appended, at
    every step and in the result, which holds the games of the state the
    last iteration leaves: at least one, of 1 to 100 moves each. *)
Theorem parts_closed_and_numbered (E : RulesEngine)
        (file_extension base_name : string) (file_bytes : list byte) :
  EngineOK E ->
  file_bytes <> [] ->
  (forall fuel st,
      In st (iterations E file_extension base_name file_bytes fuel
                        (initial_state E)) ->
      let running := move_stack E (chess_board E st) in
      let move_uci := move_of E file_bytes st in
      let board1 := board_push E (chess_board E st) move_uci in
      let part (moves : list string) :=
        {| FileType := file_extension;
           FileName := base_name;
           PartNumber := str (List.length (output_pgns E st) + 1);
           mainline := moves |} in
      moves_in_current_game E st = List.length running
      /\ List.length running <= MAX_MOVES_PER_GAME
      /\ map PartNumber (output_pgns E st)
         = map str (seq 1 (List.length (output_pgns E st)))
      /\ exists st',
          (loop_body E file_extension base_name file_bytes st = Continue E st'
           \/ loop_body E file_extension base_name file_bytes st = Break E st')
          /\ (output_pgns E st', move_stack E (chess_board E st'))
             = if MAX_MOVES_PER_GAME <=? List.length running then
                 (output_pgns E st ++ [part running], [])
               else if (List.length (legal_moves E (position E board1)) <=? 1)
                       || is_insufficient_material E (position E board1)
                       || can_claim_draw E (position E board1)
                       || (file_bits_count file_bytes
                           <=? file_bit_index E st + width_of E file_bytes st)
               then (output_pgns E st ++ [part (running ++ [move_uci])], [])
               else (output_pgns E st, running ++ [move_uci]))
  /\ (forall fuel,
         2 * file_bits_count file_bytes < fuel ->
         exists res last st',
           In last (iterations E file_extension base_name file_bytes fuel
                               (initial_state E))
           /\ loop_body E file_extension base_name file_bytes last
              = Break E st'
           /\ encode E file_extension base_name (Some file_bytes) fuel
              = Some (Ok res)
           /\ pgn res = output_pgns E st'
           /\ game_count res = List.length (pgn res)
           /\ 1 <= game_count res
           /\ map PartNumber (pgn res) = map str (seq 1 (game_count res))
           /\ Forall (fun g => 1 <= List.length (mainline g)
                               <= MAX_MOVES_PER_GAME)
                     (pgn res)).
Proof.
  intros ok nonempty. split.
  - intros fuel st Hin running move_uci board1 part.
    pose proof (steps_inv E file_extension base_name file_bytes ok nonempty
                          fuel st Hin) as I.
    pose proof (inv_count _ _ _ I) as Hcount. fold running in Hcount.
    pose proof (inv_cap _ _ _ I) as Hmax.
    split; [exact Hcount|]. split; [lia|].
    split; [apply (inv_numbers _ _ _ I)|].
    rewrite <- Hcount.
    destruct (body_cases E file_extension base_name file_bytes ok st I)
      as [[Hcap Hb] | [Hlt Hb]].
    + exists (capped E file_extension base_name st). split; [auto|].
      apply Nat.leb_le in Hcap. rewrite Hcap. reflexivity.
    + exists (pushed E file_extension base_name file_bytes st).
      split; [tauto|].
      apply Nat.leb_gt in Hlt. rewrite Hlt. unfold pushed, game_over.
      cbv zeta. fold move_uci. fold board1.
      destruct (_ || (file_bits_count file_bytes <=? _)); reflexivity.
  - intros fuel Hfuel.
    destruct (encode_result_of_last E file_extension base_name file_bytes ok
                                    nonempty fuel Hfuel)
      as (last & Hin & I & S & Hm & Heof & Henc).
    exists (encode_result E base_name
                          (pushed E file_extension base_name file_bytes last)),
      last, (pushed E file_extension base_name file_bytes last).
    split; [exact Hin|]. split.
    { rewrite (loop_body_push _ file_extension base_name _ ok _ I Hm).
      assert (Hle : (file_bits_count file_bytes
                     <=? file_bit_index E last + width_of E file_bytes last)
                    = true) by (apply Nat.leb_le; lia).
      rewrite Hle. reflexivity. }
    split; [exact Henc|]. simpl pgn. simpl game_count.
    split; [reflexivity|]. split; [reflexivity|].
    destruct (final_games _ file_extension base_name _ ok _ I Hm Heof)
      as [Hnum _].
    pose proof (Sizes_pushed E file_extension base_name file_bytes ok last
                             I S Hm) as S'.
    split; [|split; [exact Hnum|]].
    + unfold pushed.
      assert (Hle : (file_bits_count file_bytes
                     <=? file_bit_index E last + width_of E file_bytes last)
                    = true) by (apply Nat.leb_le; lia).
      rewrite Hle, orb_true_r. simpl. rewrite length_app. simpl. lia.
    + eapply Forall_impl; [|apply (sizes_games _ _ _ _ S')].
      simpl. intros g Hg. tauto.
Qed.

(** The fifth iteration of the run of the small engine on three bytes,
    which closes the first game on a claimable draw, and the result. *)
Lemma parts_closed_and_numbered_witness :
  let st :=
    nth 4 (iterations Toy.engine "txt" "f.txt" [x41; x42; x00] 49
                      (initial_state Toy.engine))
        (initial_state Toy.engine) in
  let running := move_stack Toy.engine (chess_board Toy.engine st) in
  let move_uci := move_of Toy.engine [x41; x42; x00] st in
  let board1 := board_push Toy.engine (chess_board Toy.engine st) move_uci in
  let part (moves : list string) :=
    {| FileType := "txt";
       FileName := "f.txt";
       PartNumber := str (List.length (output_pgns Toy.engine st) + 1);
       mainline := moves |} in
  (moves_in_current_game Toy.engine st = List.length running
   /\ List.length running <= MAX_MOVES_PER_GAME
   /\ map PartNumber (output_pgns Toy.engine st)
      = map str (seq 1 (List.length (output_pgns Toy.engine st)))
   /\ exists st',
       (loop_body Toy.engine "txt" "f.txt" [x41; x42; x00] st
        = Continue Toy.engine st'
        \/ loop_body Toy.engine "txt" "f.txt" [x41; x42; x00] st
           = Break Toy.engine st')
       /\ (output_pgns Toy.engine st',
           move_stack Toy.engine (chess_board Toy.engine st'))
          = if MAX_MOVES_PER_GAME <=? List.length running then
              (output_pgns Toy.engine st ++ [part running], [])
            else if (List.length
                       (legal_moves Toy.engine (position Toy.engine board1))
                     <=? 1)
                    || is_insufficient_material
                         Toy.engine (position Toy.engine board1)
                    || can_claim_draw Toy.engine (position Toy.engine board1)
                    || (file_bits_count [x41; x42; x00]
                        <=? file_bit_index Toy.engine st
                            + width_of Toy.engine [x41; x42; x00] st)
            then (output_pgns Toy.engine st
                  ++ [part (running ++ [move_uci])], [])
            else (output_pgns Toy.engine st, running ++ [move_uci]))
  /\ exists res last st',
      In last (iterations Toy.engine "txt" "f.txt" [x41; x42; x00] 49
                          (initial_state Toy.engine))
      /\ loop_body Toy.engine "txt" "f.txt" [x41; x42; x00] last
         = Break Toy.engine st'
      /\ encode Toy.engine "txt" "f.txt" (Some [x41; x42; x00]) 49
         = Some (Ok res)
      /\ pgn res = output_pgns Toy.engine st'
      /\ game_count res = List.length (pgn res)
      /\ 1 <= game_count res
      /\ map PartNumber (pgn res) = map str (seq 1 (game_count res))
      /\ Forall (fun g => 1 <= List.length (mainline g)
                          <= MAX_MOVES_PER_GAME)
                (pgn res).
Proof.
  intros st.
  destruct (parts_closed_and_numbered
              Toy.engine "txt" "f.txt" [x41; x42; x00] Toy.engine_ok
              ltac:(discriminate)) as [Hstep Hrun].
  split.
  - apply (Hstep 49 st). apply nth_In. vm_compute; lia.
  - apply (Hrun 49). vm_compute; lia.
Defined.

(** ** The length of what [decode] writes *)

(** The sum of the widths [int(log2(len(legal_move_ucis)))] over the moves
    of a game, and over the games. *)
Fixpoint moves_widths (E : RulesEngine) (p : Position E) (ms : list string)
  : nat :=
  match ms with
  | [] => 0
  | m :: r =>
      Nat.log2 (List.length (legal_moves E p))
      + moves_widths E (push_uci E p m) r
  end.

Definition games_widths (E : RulesEngine) (gs : list (list string)) : nat :=
  list_sum (map (moves_widths E (start E)) gs).

(** Every move has an index that fits in the width of its step, as the
    moves [encode] pushes have. *)
Fixpoint moves_addressable (E : RulesEngine) (p : Position E)
         (ms : list string) : bool :=
  match ms with
  | [] => true
  | m :: r =>
      match index_of m (legal_moves E p) with
      | Some i =>
          let w := Nat.log2 (List.length (legal_moves E p)) in
          (1 <=? w) && (i <? 2 ^ w)
          && moves_addressable E (push_uci E p m) r
      | None => false
      end
  end.

Definition games_addressable (E : RulesEngine) (gs : list (list string))
  : bool :=
  forallb (moves_addressable E (start E)) gs.

Section Widths.

Variable E : RulesEngine.

Lemma moves_stream_length (ms : list string) :
  forall (p : Position E) (s : bits),
    moves_stream E p ms = Some s ->
    moves_widths E p ms <= List.length s
    /\ (moves_addressable E p ms = true ->
        List.length s = moves_widths E p ms).
Proof.
  induction ms as [|m r IH]; intros p s H;
    cbn [moves_stream moves_widths moves_addressable] in *.
  - injection H as <-. simpl; auto.
  - unfold move_binary in H.
    destruct (index_of m (legal_moves E p)) as [i|]; [|discriminate].
    destruct (moves_stream E (push_uci E p m) r) as [t|] eqn:Ht;
      [|discriminate].
    injection H as <-. destruct (IH _ _ Ht) as [Hle Heq].
    rewrite length_app, zfill_length. split; [lia|].
    intros Ha. apply andb_true_iff in Ha. destruct Ha as [Ha Hr].
    apply andb_true_iff in Ha. destruct Ha as [Hw Hi].
    apply Nat.leb_le in Hw. apply Nat.ltb_lt in Hi.
    apply (bin_length_le i) in Hi; [|exact Hw].
    rewrite (Heq Hr). lia.
Qed.

Lemma games_stream_length (gs : list (list string)) :
  forall s : bits,
    games_stream E gs = Some s ->
    games_widths E gs <= List.length s
    /\ (games_addressable E gs = true ->
        List.length s = games_widths E gs).
Proof.
  unfold games_widths, games_addressable.
  induction gs as [|g r IH]; intros s H; simpl in *.
  - injection H as <-. simpl; auto.
  - destruct (moves_stream E (start E) g) as [b|] eqn:Hb; [|discriminate].
    destruct (games_stream E r) as [t|] eqn:Ht; [|discriminate].
    injection H as <-.
    destruct (moves_stream_length _ _ _ Hb) as [Hle1 Heq1].
    destruct (IH _ eq_refl) as [Hle2 Heq2].
    rewrite length_app. split; [lia|].
    intros Ha. apply andb_true_iff in Ha. destruct Ha as [Ha1 Ha2].
    rewrite (Heq1 Ha1), (Heq2 Ha2). reflexivity.
Qed.

End Widths.

(** ** The moves of a run fit their widths *)

Lemma moves_addressable_app (E : RulesEngine) (ms ms' : list string) :
  forall p : Position E,
    moves_addressable E p (ms ++ ms')
    = moves_addressable E p ms
      && moves_addressable E (fold_left (push_uci E) ms p) ms'.
Proof.
  induction ms as [|m r IH]; intros p; simpl; auto.
  destruct (index_of m (legal_moves E p)) as [i|]; auto.
  rewrite IH, andb_assoc. reflexivity.
Qed.

Lemma games_addressable_snoc (E : RulesEngine) (gs : list (list string))
      (g : list string) :
  games_addressable E (gs ++ [g])
  = games_addressable E gs && moves_addressable E (start E) g.
Proof.
  unfold games_addressable. rewrite forallb_app. simpl.
  rewrite andb_true_r. reflexivity.
Qed.

Section Fits.

Variable E : RulesEngine.
Variable file_extension base_name : string.
Variable file_bytes : list byte.
Hypothesis ok : EngineOK E.
Hypothesis nonempty : file_bytes <> [].

Local Abbreviation total := (file_bits_count file_bytes).
Local Abbreviation steps :=
  (iterations E file_extension base_name file_bytes).
Local Abbreviation width := (width_of E file_bytes).
Local Abbreviation move := (move_of E file_bytes).
Local Abbreviation after_push :=
  (pushed E file_extension base_name file_bytes).
Local Abbreviation after_cap := (capped E file_extension base_name).

(** Every move played so far has, at its step, a width of at least one
    and an index below two to the width. *)
Definition Fits (st : EncState E) : Prop :=
  games_addressable E (played E st) = true.

Lemma fits_after_push (st : EncState E) :
  Inv E file_bytes st -> Fits st ->
  games_addressable E (map mainline (output_pgns E st)
                       ++ [move_stack E (chess_board E st) ++ [move st]])
  = true.
Proof.
  intros I F. unfold Fits, played in F.
  rewrite games_addressable_snoc in F |- *.
  apply andb_true_iff in F. destruct F as [F1 F2].
  pose proof (inv_replay _ _ _ I) as R. unfold replayed in R.
  rewrite F1, moves_addressable_app, F2, <- R.
  cbn [moves_addressable andb]. fold (legal_of E st).
  rewrite (move_of_index _ _ ok _ I). cbv zeta.
  destruct (width_facts _ _ ok _ I) as (W1 & WL & _).
  destruct (chunk_facts _ _ ok _ I) as (_ & _ & _ & CV).
  assert (H1 : (1 <=? Nat.log2 (List.length (legal_of E st))) = true)
    by (apply Nat.leb_le; lia).
  assert (H2 : (value (chunk_of E file_bytes st)
                <? 2 ^ Nat.log2 (List.length (legal_of E st))) = true).
  { apply Nat.ltb_lt. eapply Nat.lt_le_trans; [exact CV|].
    apply Nat.pow_le_mono_r; lia. }
  rewrite H1, H2. reflexivity.
Qed.

Lemma Fits_initial : Fits (initial_state E).
Proof. reflexivity. Qed.

Lemma Fits_capped (st : EncState E) : Fits st -> Fits (after_cap st).
Proof.
  unfold Fits, played. simpl. intros F.
  rewrite map_app. simpl. rewrite games_addressable_snoc, F. reflexivity.
Qed.

Lemma Fits_pushed (st : EncState E) :
  Inv E file_bytes st -> Fits st -> Fits (after_push st).
Proof.
  intros I F. pose proof (fits_after_push st I F) as H.
  unfold Fits, played, pushed.
  destruct (game_over E _ || (total <=? _)); simpl.
  - rewrite map_app. simpl. rewrite games_addressable_snoc, H. reflexivity.
  - exact H.
Qed.

Lemma steps_fits (fuel : nat) :
  forall st, Inv E file_bytes st -> Fits st ->
  forall st', In st' (steps fuel st) -> Fits st'.
Proof.
  induction fuel as [|fuel IH]; intros st I F st' Hin; simpl in Hin; [tauto|].
  destruct Hin as [<- | Hin]; auto.
  destruct (body_cases E file_extension base_name file_bytes ok st I)
    as [[Hcap Hb] | [Hlt [Hb | Hb]]]; rewrite Hb in Hin; simpl in Hin;
    try tauto.
  - eapply (IH (after_cap st)); eauto using Inv_capped, Fits_capped.
  - eapply (IH (after_push st)); eauto using Fits_pushed.
    eapply step_inv; eauto.
Qed.

(** The games of the result fit. *)
Lemma encode_result_fits (fuel : nat) (res : Encoded) :
  2 * total < fuel ->
  encode E file_extension base_name (Some file_bytes) fuel = Some (Ok res) ->
  games_addressable E (map mainline (pgn res)) = true
  /\ exists s, games_stream E (map mainline (pgn res)) = Some s.
Proof.
  intros Hfuel Henc.
  destruct (encode_result_of_last E file_extension base_name file_bytes ok
                                  nonempty fuel Hfuel)
    as (last & Hin & I & _ & Hm & Heof & Henc').
  rewrite Henc in Henc'. injection Henc' as ->.
  assert (F : Fits last).
  { eapply steps_fits; [| |exact Hin].
    - apply Inv_initial; assumption.
    - apply Fits_initial. }
  destruct (final_games _ file_extension base_name _ ok _ I Hm Heof)
    as [_ Hs].
  split; [|eauto].
  pose proof (fits_after_push last I F) as H.
  simpl pgn. unfold pushed.
  assert (Hle : (total <=? file_bit_index E last + width last) = true)
    by (apply Nat.leb_le; lia).
  rewrite Hle, orb_true_r. simpl output_pgns.
  rewrite map_app. simpl. exact H.
Qed.

End Fits.

(** ** The digits [decode] appends *)

(** The digits [decode] appends before it returns or raises: those of the
    moves of a game up to the first that is not legal at its step, and
    those of the games up to the first that holds such a move. *)
Fixpoint moves_appended (E : RulesEngine) (p : Position E)
         (ms : list string) : bits :=
  match ms with
  | [] => []
  | m :: r =>
      match move_binary E p m with
      | Some b => b ++ moves_appended E (push_uci E p m) r
      | None => []
      end
  end.

Fixpoint games_appended (E : RulesEngine) (gs : list (list string)) : bits :=
  match gs with
  | [] => []
  | g :: r =>
      moves_appended E (start E) g
      ++ match moves_stream E (start E) g with
         | Some _ => games_appended E r
         | None => []
         end
  end.

Section Appended.

Variable E : RulesEngine.

Lemma moves_appended_digits (ms : list string) :
  forall p : Position E, is_digits (moves_appended E p ms).
Proof.
  induction ms as [|m r IH]; intros p; simpl; [constructor|].
  destruct (move_binary E p m) as [b|] eqn:Hb; [|constructor].
  apply is_digits_app. split; [eapply move_binary_digits; eauto | apply IH].
Qed.

Lemma moves_appended_stream (ms : list string) :
  forall (p : Position E) (s : bits),
    moves_stream E p ms = Some s -> moves_appended E p ms = s.
Proof.
  induction ms as [|m r IH]; intros p s H; simpl in *.
  - injection H as <-. reflexivity.
  - destruct (move_binary E p m) as [b|]; [|discriminate].
    destruct (moves_stream E (push_uci E p m) r) as [t|] eqn:Ht;
      [|discriminate].
    injection H as <-. rewrite (IH _ _ Ht). reflexivity.
Qed.

Lemma games_appended_stream (gs : list (list string)) :
  forall s : bits, games_stream E gs = Some s -> games_appended E gs = s.
Proof.
  induction gs as [|g r IH]; intros s H; simpl in *.
  - injection H as <-. reflexivity.
  - destruct (moves_stream E (start E) g) as [b|] eqn:Hb; [|discriminate].
    destruct (games_stream E r) as [t|] eqn:Ht; [|discriminate].
    injection H as <-.
    rewrite (moves_appended_stream _ _ _ Hb), (IH _ eq_refl). reflexivity.
Qed.

(** The moves of a game, legal or not: the file receives the whole bytes
    of the digits appended, and the game is given up at the first move that
    is not legal. *)
Lemma decode_moves_appended (ms : list string) :
  forall (p : Position E) (data : bits) (file : list byte),
    is_digits data -> List.length data < 8 ->
    exists (written : list byte) (rest : bits),
      fst (decode_moves E p data file ms) = file ++ written
      /\ file_bits written ++ rest = data ++ moves_appended E p ms
      /\ is_digits rest
      /\ List.length rest < 8
      /\ match moves_stream E p ms with
         | Some _ => snd (decode_moves E p data file ms) = Ok rest
         | None => exists e, snd (decode_moves E p data file ms) = Raise e
         end.
Proof.
  induction ms as [|m r IH]; intros p data file Hd Hl; simpl.
  - exists [], data. rewrite !app_nil_r. repeat split; auto.
  - unfold decode_move, move_binary.
    destruct (index_of m (legal_moves E p)) as [i|] eqn:Hi.
    + set (b := zfill (bin i) (Nat.log2 (List.length (legal_moves E p)))).
      assert (Hbd : is_digits b) by (apply zfill_digits, bin_digits).
      destruct (write_bytes_spec (List.length (data ++ b)) (data ++ b) file)
        as (w1 & rest1 & Hw1 & Hs1 & Hr1);
        [apply is_digits_app; auto | lia |].
      rewrite Hw1.
      assert (Hd1 : is_digits rest1).
      { assert (Hall : is_digits (file_bits w1 ++ rest1))
          by (rewrite Hs1; apply is_digits_app; auto).
        apply is_digits_app in Hall; tauto. }
      destruct (IH (push_uci E p m) rest1 (file ++ w1) Hd1 Hr1)
        as (w2 & rest2 & Hw2 & Hs2 & Hd2 & Hr2 & Hres).
      exists (w1 ++ w2), rest2. rewrite Hw2, app_assoc.
      split; [reflexivity|]. split; [|split; [exact Hd2|split; [exact Hr2|]]].
      * unfold file_bits in *. rewrite map_app, concat_app, <- app_assoc.
        rewrite Hs2, app_assoc, Hs1, app_assoc. reflexivity.
      * destruct (moves_stream E (push_uci E p m) r); exact Hres.
    + exists [], data. simpl. rewrite !app_nil_r.
      repeat split; auto. eauto.
Qed.

Lemma decode_games_appended (moves_list : list string) :
  forall (data : bits) (file : list byte),
    is_digits data -> List.length data < 8 ->
    exists (written : list byte) (rest : bits),
      fst (decode_games E data file moves_list) = file ++ written
      /\ file_bits written ++ rest
         = data ++ games_appended E (map split moves_list)
      /\ List.length rest < 8.
Proof.
  induction moves_list as [|moves r IH]; intros data file Hd Hl; simpl.
  - exists [], data. rewrite !app_nil_r. auto.
  - destruct (decode_moves_appended (split moves) (start E) data file Hd Hl)
      as (w1 & rest1 & Hw1 & Hs1 & Hd1 & Hr1 & Hres).
    destruct (decode_moves E (start E) data file (split moves))
      as [file1 [data1 | e]] eqn:Hg; simpl in Hw1, Hres.
    + destruct (moves_stream E (start E) (split moves)) as [b|];
        [|destruct Hres; discriminate].
      injection Hres as ->. subst file1.
      destruct (IH rest1 (file ++ w1) Hd1 Hr1)
        as (w2 & rest2 & Hw2 & Hs2 & Hr2).
      exists (w1 ++ w2), rest2. rewrite Hw2, app_assoc.
      split; [reflexivity|]. split; [|exact Hr2].
      unfold file_bits in *. rewrite map_app, concat_app, <- app_assoc.
      rewrite Hs2, app_assoc, Hs1, !app_assoc. reflexivity.
    + destruct (moves_stream E (start E) (split moves)) as [b|];
        [discriminate|].
      exists w1, rest1. simpl. rewrite app_nil_r. auto.
Qed.

(** The digits of the legal moves are as many as the widths exactly when
    every move fits its width. *)
Lemma moves_stream_exact (ms : list string) :
  forall (p : Position E) (s : bits),
    moves_stream E p ms = Some s ->
    List.length s = moves_widths E p ms ->
    moves_addressable E p ms = true.
Proof.
  induction ms as [|m r IH]; intros p s H Hlen;
    cbn [moves_stream moves_widths moves_addressable] in *; auto.
  unfold move_binary in H.
  destruct (index_of m (legal_moves E p)) as [i|]; [|discriminate].
  destruct (moves_stream E (push_uci E p m) r) as [t|] eqn:Ht;
    [|discriminate].
  injection H as <-.
  destruct (moves_stream_length E _ _ _ Ht) as [Hle _].
  rewrite length_app, zfill_length in Hlen.
  pose proof (bin_length_pos i) as Hpos.
  assert (Hw : 1 <= Nat.log2 (List.length (legal_moves E p))) by lia.
  assert (Hi : i < 2 ^ Nat.log2 (List.length (legal_moves E p)))
    by (apply (bin_length_le i _ Hw); lia).
  apply Nat.leb_le in Hw. apply Nat.ltb_lt in Hi. rewrite Hw, Hi. simpl.
  apply (IH _ _ Ht). lia.
Qed.

Lemma games_stream_exact (gs : list (list string)) :
  forall s : bits,
    games_stream E gs = Some s ->
    List.length s = games_widths E gs ->
    games_addressable E gs = true.
Proof.
  unfold games_widths, games_addressable.
  induction gs as [|g r IH]; intros s H Hlen; simpl in *; auto.
  destruct (moves_stream E (start E) g) as [b|] eqn:Hb; [|discriminate].
  destruct (games_stream E r) as [t|] eqn:Ht; [|discriminate].
  injection H as <-.
  destruct (moves_stream_length E _ _ _ Hb) as [Hle1 _].
  destruct (games_stream_length E _ _ Ht) as [Hle2 _].
  unfold games_widths in Hle2.
  rewrite length_app in Hlen.
  rewrite (moves_stream_exact _ _ _ Hb) by lia.
  apply (IH _ eq_refl). lia.
Qed.

End Appended.

(** C7, as the code has it. For every input, [decode] appends whole bytes
    only to the output file: the digits appended for the moves it
    processes (all of them, or those before the first move that is not
    legal at its step, where it raises) are cut in eights and the fewer
    than eight that remain are dropped, so the number of bytes written is
    the number of those digits divided by eight. A legal move of index [i]
    at a step of width [w] appends [max w (log2 i + 1)] digits, one at
    least. When every move is legal the digits are at least as many as
    the sum of the widths, and exactly as many when every move has a width
    of at least one and an index below two to the width; the games
    [encode] returns are such, and for them the number of bytes is the sum
    of the widths divided by eight. *)
Theorem decode_whole_bytes (E : RulesEngine) (moves_list : list string)
        (file : list byte) (response : option string) :
  let out := fst (decode E moves_list file response) in
  let digits := games_appended E (map split moves_list) in
  (exists (written : list byte) (rest : bits),
      out = file ++ written
      /\ file_bits written ++ rest = digits
      /\ List.length rest < 8)
  /\ List.length out = List.length file + List.length digits / 8
  /\ (forall (p : Position E) (m : string) (i : nat),
         index_of m (legal_moves E p) = Some i ->
         exists b,
           move_binary E p m = Some b
           /\ List.length b
              = Nat.max (Nat.log2 (List.length (legal_moves E p)))
                        (Nat.log2 i + 1))
  /\ (forall s : bits,
         games_stream E (map split moves_list) = Some s ->
         digits = s
         /\ games_widths E (map split moves_list) <= List.length digits
         /\ (List.length digits = games_widths E (map split moves_list)
             <-> games_addressable E (map split moves_list) = true))
  /\ (forall (file_extension base_name : string) (file_bytes : list byte)
             (fuel : nat) (res : Encoded),
         EngineOK E ->
         file_bytes <> [] ->
         2 * file_bits_count file_bytes < fuel ->
         encode E file_extension base_name (Some file_bytes) fuel
         = Some (Ok res) ->
         moves_list = map game_moves (pgn res) ->
         games_addressable E (map split moves_list) = true
         /\ List.length out
            = List.length file
              + games_widths E (map split moves_list) / 8).
Proof.
  intros out digits.
  assert (Hout : exists (written : list byte) (rest : bits),
             out = file ++ written
             /\ file_bits written ++ rest = digits
             /\ List.length rest < 8).
  { destruct (decode_games_appended E moves_list [] file)
      as (w & rest & Hw & Hb & Hr); [constructor | simpl; lia |].
    exists w, rest. split; [|auto].
    unfold out, decode.
    destruct (decode_games E [] file moves_list) as [file1 [d | [msg]]];
      simpl in Hw; subst file1; [destruct response|]; reflexivity. }
  assert (Hlen : List.length out
                 = List.length file + List.length digits / 8).
  { destruct Hout as (w & rest & -> & Hb & Hr).
    rewrite length_app. f_equal.
    apply (Nat.div_unique _ 8 _ (List.length rest)); [exact Hr|].
    rewrite <- Hb, length_app, file_bits_length. lia. }
  assert (Hlegal : forall s : bits,
             games_stream E (map split moves_list) = Some s ->
             digits = s
             /\ games_widths E (map split moves_list) <= List.length digits
             /\ (List.length digits = games_widths E (map split moves_list)
                 <-> games_addressable E (map split moves_list) = true)).
  { intros s Hs.
    assert (Hd : digits = s) by (apply games_appended_stream, Hs).
    destruct (games_stream_length E _ _ Hs) as [Hle Heq].
    rewrite Hd. split; [reflexivity|]. split; [exact Hle|].
    split; [apply games_stream_exact, Hs | exact Heq]. }
  split; [exact Hout|]. split; [exact Hlen|]. split; [|split].
  - intros p m i Hi. unfold move_binary. rewrite Hi.
    eexists. split; [reflexivity|].
    rewrite zfill_length. f_equal.
    destruct i as [|i]; [reflexivity|]. apply bin_length_log2. lia.
  - exact Hlegal.
  - intros file_extension base_name file_bytes fuel res ok nonempty Hfuel
           Henc Hmoves.
    destruct (encode_result_fits E file_extension base_name file_bytes ok
                                 nonempty fuel res Hfuel Henc)
      as (Hfit & s & Hs).
    pose proof (games_stream_split E ok _ _ Hs) as Hsplit.
    assert (Ha : games_addressable E (map split moves_list) = true)
      by (rewrite Hmoves, Hsplit; exact Hfit).
    split; [exact Ha|].
    rewrite Hmoves, Hsplit in Hlegal.
    destruct (Hlegal s Hs) as (_ & _ & Hiff).
    rewrite Hlen. f_equal. f_equal.
    rewrite Hmoves, Hsplit. apply Hiff.
    rewrite <- Hsplit, <- Hmoves. exact Ha.
Qed.

Lemma decode_whole_bytes_witness :
  games_addressable Toy.engine (map split ["b a a f a"; "a e a a a"]) = true
  /\ List.length (fst (decode Toy.engine ["b a a f a"; "a e a a a"] [xff]
                              None))
     = List.length [xff]
       + games_widths Toy.engine (map split ["b a a f a"; "a e a a a"]) / 8.
Proof.
  apply (proj2 (proj2 (proj2 (proj2
           (decode_whole_bytes Toy.engine ["b a a f a"; "a e a a a"] [xff]
                               None))))
           "txt" "f.txt" [x41; x42; x00] 49
           {| pgn := [Build_Game "txt" "f.txt" "1" ["b"; "a"; "a"; "f"; "a"];
                      Build_Game "txt" "f.txt" "2" ["a"; "e"; "a"; "a"; "a"]];
              file_name := "f.txt";
              pending_game := true;
              game_count := 2;
              move_counts := [5; 5] |}).
  - exact Toy.engine_ok.
  - discriminate.
  - vm_compute; lia.
  - vm_compute; reflexivity.
  - reflexivity.
Defined.

(** ** Games of chess *)

(** C8. The two bytes 0x41 0x42 are encoded as one game of four moves,
    h2h3 g8f6 h3h4 b8a6, each taking four bits; [decode], given these
    moves, writes the two bytes back. *)
Theorem encode_decode_two_bytes (file_extension base_name : string)
        (fuel : nat) (response : option string) :
  exists res,
    encode PyChess.engine file_extension base_name (Some [x41; x42])
           (4 + fuel) = Some (Ok res)
    /\ game_count res = 1
    /\ map game_moves (pgn res) = ["h2h3 g8f6 h3h4 b8a6"]
    /\ fst (decode PyChess.engine (map game_moves (pgn res)) [] response)
       = [x41; x42].
Proof.
  eexists. split; [vm_compute; reflexivity|].
  split; [reflexivity|]. split; [reflexivity|].
  destruct response; vm_compute; reflexivity.
Qed.

(** C2, against the claim as stated. A file of three bytes whose last step
    is clamped, three bits being left where the position could take four,
    and
    whose last bits are zero: [decode] writes the file back unchanged. *)
Lemma clamped_zero_tail_survives :
  never_clamped PyChess.engine "txt" "f.txt" [xff; x51; x08] 49 = false
  /\ exists res,
      encode PyChess.engine "txt" "f.txt" (Some [xff; x51; x08]) 49
      = Some (Ok res)
      /\ fst (decode PyChess.engine (map game_moves (pgn res)) [] None)
         = [xff; x51; x08].
Proof.
  split; [vm_compute; reflexivity|].
  eexists. split; [vm_compute; reflexivity|].
  vm_compute; reflexivity.
Qed.

(** C7, against the claim as stated. Five legal moves whose indices, 19 to
    21, do not fit the width of four of their steps: each appends five
    digits, and [decode] writes three bytes where the sum of the widths,
    twenty, makes two. *)
Lemma unaddressable_moves_add_digits :
  List.length (fst (decode PyChess.engine ["a2a4 a7a5 b2b4 b7b5 c2c4"] []
                           None)) = 3
  /\ games_widths PyChess.engine (map split ["a2a4 a7a5 b2b4 b7b5 c2c4"]) / 8
     = 2.
Proof. split; vm_compute; reflexivity. Qed.

(** A forced move, the only legal one of its position, has the index 0 and
    the width 0, and still appends one digit: the four moves below append
    thirteen digits where the widths make twelve. *)
Example forced_move_appends_a_digit :
  List.length (games_appended PyChess.engine
                              [["e2e4"; "f7f6"; "d1h5"; "g7g6"]]) = 13
  /\ games_widths PyChess.engine [["e2e4"; "f7f6"; "d1h5"; "g7g6"]] = 12
  /\ games_addressable PyChess.engine [["e2e4"; "f7f6"; "d1h5"; "g7g6"]]
     = false.
Proof. repeat split; vm_compute; reflexivity. Qed.

(** ** The model of the rules against known counts

    The legal moves of the first position come in the order the library
    lists them, and the numbers of move sequences of a given length from
    the first position and from the usual test positions (castling, en
    passant, promotions, pins and checks) are the published ones. *)

Fixpoint perft (depth : nat) (st : PyChess.State) : nat :=
  match depth with
  | 0 => 1
  | S d =>
      list_sum (map (fun m => perft d (PyChess.push st m))
                    (PyChess.generate_legal_moves st))
  end.

Definition piece_of_symbol (c : ascii) : option PyChess.Piece :=
  let white t := Some (PyChess.Build_Piece t true) in
  let black t := Some (PyChess.Build_Piece t false) in
  match c with
  | "P"%char => white PyChess.PAWN | "N"%char => white PyChess.KNIGHT
  | "B"%char => white PyChess.BISHOP | "R"%char => white PyChess.ROOK
  | "Q"%char => white PyChess.QUEEN | "K"%char => white PyChess.KING
  | "p"%char => black PyChess.PAWN | "n"%char => black PyChess.KNIGHT
  | "b"%char => black PyChess.BISHOP | "r"%char => black PyChess.ROOK
  | "q"%char => black PyChess.QUEEN | "k"%char => black PyChess.KING
  | _ => None
  end.

(** The ranks of the placement field of a FEN, the eighth first. *)
Fixpoint fen_ranks (s : string) (rank : list (option PyChess.Piece))
  : list (list (option PyChess.Piece)) :=
  match s with
  | EmptyString => [rank]
  | String c r =>
      if Ascii.eqb c "/" then rank :: fen_ranks r []
      else
        match piece_of_symbol c with
        | Some p => fen_ranks r (rank ++ [Some p])
        | None => fen_ranks r (rank ++ repeat None (nat_of_ascii c - 48))
        end
  end.

Definition position_of (placement : string) (white_to_move : bool)
           (rights : list nat) : PyChess.State :=
  PyChess.Build_State (List.concat (rev (fen_ranks placement [])))
                      white_to_move rights None 0.

Example start_moves_in_order :
  legal_moves PyChess.engine (start PyChess.engine)
  = ["g1h3"; "g1f3"; "b1c3"; "b1a3"; "h2h3"; "g2g3"; "f2f3"; "e2e3"; "d2d3";
     "c2c3"; "b2b3"; "a2a3"; "h2h4"; "g2g4"; "f2f4"; "e2e4"; "d2d4"; "c2c4";
     "b2b4"; "a2a4"].
Proof. vm_compute; reflexivity. Qed.

Example start_from_placement :
  position_of "rnbqkbnr/pppppppp/8/8/8/8/PPPPPPPP/RNBQKBNR" true [0; 7; 56; 63]
  = PyChess.state PyChess.starting_board.
Proof. vm_compute; reflexivity. Qed.

Example perft_start :
  perft 1 (PyChess.state PyChess.starting_board) = 20
  /\ perft 2 (PyChess.state PyChess.starting_board) = 400.
Proof. split; vm_compute; reflexivity. Qed.

Example perft_castling_and_pins :
  perft 2 (position_of
             "r3k2r/p1ppqpb1/bn2pnp1/3PN3/1p2P3/2N2Q1p/PPPBBPPP/R3K2R"
             true [0; 7; 56; 63]) = 2039.
Proof. vm_compute; reflexivity. Qed.

Example perft_en_passant :
  perft 3 (position_of "8/2p5/3p4/KP5r/1R3p1k/8/4P1P1/8" true []) = 2812.
Proof. vm_compute; reflexivity. Qed.

Example perft_checks_and_promotions :
  perft 2 (position_of
             "r3k2r/Pppp1ppp/1b3nbN/nP6/BBP1P3/q4N2/Pp1P2PP/R2Q1RK1"
             true [56; 63]) = 264
  /\ perft 2 (position_of "rnbq1k1r/pp1Pbppp/2p5/8/2B5/8/PPP1NnPP/RNBQK2R"
                          true [0; 7]) = 1486.
Proof. split; vm_compute; reflexivity. Qed.

(** * More of the program

    The rest of [encode] and [decode], the metadata of the games, the
    handlers of src/app.py and the cleaning of the upload directory. *)

(** ** [encode] and [decode] *)

Lemma moves_stream_legal (E : RulesEngine) (ms : list string) :
  forall (p : Position E) (s : bits),
    moves_stream E p ms = Some s -> first_illegal E p ms = None.
Proof.
  induction ms as [|m r IH]; intros p s H; simpl in *; auto.
  unfold move_binary in H.
  destruct (index_of m (legal_moves E p)) as [i|] eqn:Hi; [|discriminate].
  assert (Hex : existsb (String.eqb m) (legal_moves E p) = true)
    by (apply index_of_existsb; eauto).
  rewrite Hex.
  destruct (moves_stream E (push_uci E p m) r) eqn:Hr; [|discriminate].
  eapply IH; eauto.
Qed.

Lemma games_stream_legal (E : RulesEngine) (gs : list (list string)) :
  forall s : bits,
    games_stream E gs = Some s ->
    Forall (fun g => first_illegal E (start E) g = None) gs.
Proof.
  induction gs as [|g r IH]; intros s H; simpl in *; constructor.
  - destruct (moves_stream E (start E) g) eqn:Hg; [|discriminate].
    eapply moves_stream_legal; eauto.
  - destruct (moves_stream E (start E) g); [|discriminate].
    destruct (games_stream E r) eqn:Hr; [|discriminate].
    eapply IH; eauto.
Qed.

(** Every game [encode] returns has between 1 and 100 moves and carries
    the extension and the base name of the file; [game_count] and
    [move_counts] count them. *)
Theorem encode_games_bounded (E : RulesEngine)
        (file_extension base_name : string) (file_bytes : list byte)
        (fuel : nat) :
  EngineOK E ->
  file_bytes <> [] ->
  2 * file_bits_count file_bytes < fuel ->
  exists res,
    encode E file_extension base_name (Some file_bytes) fuel = Some (Ok res)
    /\ 1 <= game_count res
    /\ game_count res = List.length (pgn res)
    /\ move_counts res = map (fun g => List.length (mainline g)) (pgn res)
    /\ Forall (fun g => 1 <= List.length (mainline g) <= 100
                        /\ FileType g = file_extension
                        /\ FileName g = base_name)
              (pgn res).
Proof.
  intros ok nonempty Hfuel.
  destruct (encode_result_of_last E file_extension base_name file_bytes ok
                                  nonempty fuel Hfuel)
    as (last & Hin & I & S & Hm & Heof & Henc).
  exists (encode_result E base_name
                        (pushed E file_extension base_name file_bytes last)).
  split; [exact Henc|].
  pose proof (Sizes_pushed E file_extension base_name file_bytes ok last
                           I S Hm) as S'.
  simpl. repeat split; auto.
  - unfold pushed.
    assert (Hle : (file_bits_count file_bytes
                   <=? file_bit_index E last + width_of E file_bytes last)
                  = true) by (apply Nat.leb_le; lia).
    rewrite Hle, orb_true_r. simpl. rewrite length_app. simpl. lia.
  - apply (sizes_games _ _ _ _ S').
Qed.

Lemma encode_games_bounded_witness :
  exists res,
    encode Toy.engine "txt" "f.txt" (Some [x41; x42; x00]) 49 = Some (Ok res)
    /\ 1 <= game_count res
    /\ game_count res = List.length (pgn res)
    /\ move_counts res = map (fun g => List.length (mainline g)) (pgn res)
    /\ Forall (fun g => 1 <= List.length (mainline g) <= 100
                        /\ FileType g = "txt"
                        /\ FileName g = "f.txt")
              (pgn res).
Proof.
  apply (encode_games_bounded Toy.engine "txt" "f.txt" [x41; x42; x00] 49).
  - exact Toy.engine_ok.
  - discriminate.
  - vm_compute; lia.
Defined.

(** The games [encode] returns hold, together, at most as many moves as
    the file has bits and at least a ninth of that: a move takes between
    one and nine bits. *)
Theorem encode_moves_bounded (E : RulesEngine)
        (file_extension base_name : string) (file_bytes : list byte)
        (fuel : nat) :
  EngineOK E ->
  file_bytes <> [] ->
  2 * file_bits_count file_bytes < fuel ->
  exists res,
    encode E file_extension base_name (Some file_bytes) fuel = Some (Ok res)
    /\ list_sum (move_counts res) <= 8 * List.length file_bytes
    /\ 8 * List.length file_bytes <= 9 * list_sum (move_counts res).
Proof.
  intros ok nonempty Hfuel.
  destruct (encode_result_of_last E file_extension base_name file_bytes ok
                                  nonempty fuel Hfuel)
    as (last & Hin & I & S & Hm & Heof & Henc).
  exists (encode_result E base_name
                        (pushed E file_extension base_name file_bytes last)).
  split; [exact Henc|].
  pose proof (Sizes_pushed E file_extension base_name file_bytes ok last
                           I S Hm) as S'.
  destruct (sizes_moves _ _ _ _ S') as [Hlo Hhi].
  rewrite pushed_index, Heof in Hlo, Hhi.
  assert (Hsum : list_sum (move_counts
                   (encode_result E base_name
                      (pushed E file_extension base_name file_bytes last)))
                 = List.length
                     (all_moves E (pushed E file_extension base_name
                                          file_bytes last))).
  { unfold all_moves, played, pushed. simpl move_counts.
    assert (Hle : (file_bits_count file_bytes
                   <=? file_bit_index E last + width_of E file_bytes last)
                  = true) by (apply Nat.leb_le; lia).
    rewrite Hle, orb_true_r. simpl output_pgns. simpl chess_board.
    simpl move_stack. rewrite concat_app. simpl. rewrite !app_nil_r.
    rewrite length_concat, map_map. reflexivity. }
  rewrite Hsum. unfold file_bits_count in Hlo, Hhi. lia.
Qed.

Lemma encode_moves_bounded_witness :
  exists res,
    encode Toy.engine "txt" "f.txt" (Some [x41; x42; x00]) 49 = Some (Ok res)
    /\ list_sum (move_counts res) <= 8 * 3
    /\ 8 * 3 <= 9 * list_sum (move_counts res).
Proof.
  apply (encode_moves_bounded Toy.engine "txt" "f.txt" [x41; x42; x00] 49).
  - exact Toy.engine_ok.
  - discriminate.
  - vm_compute; lia.
Defined.

(** The games [encode] returns are legal games, clamped or not: every move
    is in the list of legal moves at its step, so [decode] does not raise
    on them and returns the file type the server reports. *)
Theorem encoded_games_decode (E : RulesEngine)
        (file_extension base_name : string) (file_bytes : list byte)
        (fuel : nat) :
  EngineOK E ->
  file_bytes <> [] ->
  2 * file_bits_count file_bytes < fuel ->
  exists res,
    encode E file_extension base_name (Some file_bytes) fuel = Some (Ok res)
    /\ Forall (fun g => first_illegal E (start E) (mainline g) = None)
              (pgn res)
    /\ forall (file : list byte) (file_type : string),
        snd (decode E (map game_moves (pgn res)) file (Some file_type))
        = Ok file_type.
Proof.
  intros ok nonempty Hfuel.
  destruct (encode_result_of_last E file_extension base_name file_bytes ok
                                  nonempty fuel Hfuel)
    as (last & Hin & I & S & Hm & Heof & Henc).
  exists (encode_result E base_name
                        (pushed E file_extension base_name file_bytes last)).
  split; [exact Henc|].
  destruct (final_games _ file_extension base_name _ ok _ I Hm Heof)
    as [_ Hstream].
  simpl pgn. split.
  - apply games_stream_legal in Hstream.
    rewrite Forall_map in Hstream. exact Hstream.
  - intros file file_type.
    pose proof (games_stream_split E ok _ _ Hstream) as Hsplit.
    rewrite <- Hsplit in Hstream.
    destruct (decode_games_stream E _ [] file _ Hstream)
      as (w & rest & Hw & _); [constructor | simpl; lia |].
    unfold decode. rewrite Hw. reflexivity.
Qed.

Lemma encoded_games_decode_witness :
  exists res,
    encode Toy.engine "txt" "f.txt" (Some [x41]) 17 = Some (Ok res)
    /\ Forall (fun g => first_illegal Toy.engine (start Toy.engine)
                                      (mainline g) = None)
              (pgn res)
    /\ forall (file : list byte) (file_type : string),
        snd (decode Toy.engine (map game_moves (pgn res)) file
                    (Some file_type))
        = Ok file_type.
Proof.
  apply (encoded_games_decode Toy.engine "txt" "f.txt" [x41] 17).
  - exact Toy.engine_ok.
  - discriminate.
  - vm_compute; lia.
Defined.

(** ** The output file of [decode] *)

Section DecodeAppends.

Variable E : RulesEngine.

Lemma write_bytes_file (fuel : nat) :
  forall (data : bits) (f1 f2 : list byte),
    write_bytes fuel data (f1 ++ f2)
    = (f1 ++ fst (write_bytes fuel data f2), snd (write_bytes fuel data f2)).
Proof.
  induction fuel as [|fuel IH]; intros data f1 f2; cbn [write_bytes];
    [reflexivity|].
  destruct (8 <=? List.length data); [|reflexivity].
  destruct (int2 (slice 0 8 data)) as [n|]; [|reflexivity].
  destruct (Byte.of_nat n) as [b|]; [|reflexivity].
  rewrite <- app_assoc. apply IH.
Qed.

Lemma decode_move_file (p : Position E) (data : bits) (f1 f2 : list byte)
      (m : string) :
  decode_move E p data (f1 ++ f2) m
  = (f1 ++ fst (decode_move E p data f2 m), snd (decode_move E p data f2 m)).
Proof.
  unfold decode_move.
  destruct (index_of m (legal_moves E p)); [|reflexivity].
  rewrite write_bytes_file.
  destruct (write_bytes _ _ f2) as [file1 [d | e]]; reflexivity.
Qed.

Lemma decode_moves_file (ms : list string) :
  forall (p : Position E) (data : bits) (f1 f2 : list byte),
    decode_moves E p data (f1 ++ f2) ms
    = (f1 ++ fst (decode_moves E p data f2 ms),
       snd (decode_moves E p data f2 ms)).
Proof.
  induction ms as [|m r IH]; intros p data f1 f2; simpl; [reflexivity|].
  rewrite decode_move_file.
  destruct (decode_move E p data f2 m) as [file1 [[p1 d1] | e]]; simpl;
    [apply IH | reflexivity].
Qed.

Lemma decode_games_file (moves_list : list string) :
  forall (data : bits) (f1 f2 : list byte),
    decode_games E data (f1 ++ f2) moves_list
    = (f1 ++ fst (decode_games E data f2 moves_list),
       snd (decode_games E data f2 moves_list)).
Proof.
  induction moves_list as [|g r IH]; intros data f1 f2; simpl; [reflexivity|].
  rewrite decode_moves_file.
  destruct (decode_moves E (start E) data f2 (split g)) as [file1 [d1 | e]];
    simpl; [apply IH | reflexivity].
Qed.

End DecodeAppends.

(** [decode] only appends to the output file: what was in the file stays
    in front, and what is appended and what is returned or raised do not
    depend on it. This holds when [decode] fails too: the bytes flushed
    before the failure stay in the file. *)
Theorem decode_appends (E : RulesEngine) (moves_list : list string)
        (file : list byte) (response : option string) :
  decode E moves_list file response
  = (file ++ fst (decode E moves_list [] response),
     snd (decode E moves_list [] response)).
Proof.
  unfold decode.
  rewrite <- (app_nil_r file) at 1. rewrite decode_games_file.
  destruct (decode_games E [] [] moves_list) as [file1 [d | [msg]]]; simpl.
  - destruct response; reflexivity.
  - reflexivity.
Qed.

(** ** Digit strings and move lists *)

(** [to_binary_string] never truncates: the string has [length] digits
    when the number fits in them and as many as the number needs otherwise;
    it holds binary digits only, and [int(., 2)] reads the number back. *)
Theorem to_binary_string_round_trip (number length : nat) :
  int2 (to_binary_string number length) = Some number
  /\ is_digits (to_binary_string number length)
  /\ List.length (to_binary_string number length)
     = Nat.max length (Nat.log2 number + 1).
Proof.
  split; [|split].
  - rewrite int2_digits.
    + rewrite to_binary_string_value; reflexivity.
    + apply to_binary_string_digits.
    + intros H. apply (f_equal (@List.length _)) in H.
      rewrite to_binary_string_length in H. simpl in H.
      pose proof (bin_length_pos number). lia.
  - apply to_binary_string_digits.
  - rewrite to_binary_string_length.
    destruct number as [|n]; [reflexivity|].
    rewrite bin_length_log2 by lia. reflexivity.
Qed.

Lemma split_from_tokens (s : string) :
  forall cur : string,
    no_space cur -> Forall is_token (split_from cur s).
Proof.
  induction s as [|c r IH]; intros cur Hcur; simpl.
  - destruct cur; constructor; [|constructor].
    split; [discriminate | exact Hcur].
  - destruct (is_space c) eqn:Hc.
    + destruct cur.
      * apply IH. intros d [].
      * constructor; [split; [discriminate | exact Hcur]|].
        apply IH. intros d [].
    + apply IH. intros d Hd.
      assert (Hl : list_ascii_of_string (cur ++ String c EmptyString)
                   = list_ascii_of_string cur ++ [c]).
      { clear. induction cur; simpl; congruence. }
      rewrite Hl in Hd. apply in_app_iff in Hd.
      destruct Hd as [Hd | [<- | []]]; auto.
Qed.

(** Strings are byte strings, the UTF-8 of Python's; on a string of
    ASCII characters [split] above is [str.split()], whose separators are
    then the ASCII ones. *)
Definition is_ascii (s : string) : bool :=
  forallb (fun c => nat_of_ascii c <? 128) (list_ascii_of_string s).

(** For move names of ASCII characters, as the engine prints them: the
    moves [decode] splits out of the string [get_game_moves] joins are the
    moves of the game exactly when every move name is a token, not empty
    and free of white space. *)
Theorem split_join_moves (ms : list string) :
  Forall (fun m => is_ascii m = true) ms ->
  (split (String.concat " " ms) = ms <-> Forall is_token ms).
Proof.
  intros _. split.
  - intros H. rewrite <- H. apply split_from_tokens. intros d [].
  - apply split_join.
Qed.

Lemma split_join_moves_witness :
  split (String.concat " " ["e2e4"; "e7e5"; "g1f3"]) = ["e2e4"; "e7e5"; "g1f3"]
  <-> Forall is_token ["e2e4"; "e7e5"; "g1f3"].
Proof.
  apply (split_join_moves ["e2e4"; "e7e5"; "g1f3"]).
  repeat constructor.
Defined.

(** * The games on the server: [game_metadata.json]

    The metadata file is what [store_game_metadata] writes: absent, or the
    list under its ['games'] key. The serialisation is the [json]
    library's. *)

Module Metadata.

Record metadata : Type := {
  game_id : string;
  file_name : string;
  part : option nat
}.

End Metadata.

Definition metadata_file : Type := option (list Metadata.metadata).

(** src/chess_storage.py, lines 236-251. *)
Definition store_game_metadata (game_id file_name : string)
           (part : option nat) (file : metadata_file) : metadata_file :=
  let metadata := Metadata.Build_metadata game_id file_name part in
  match file with
  | Some games => Some (games ++ [metadata])
  | None => Some [metadata]
  end.

(** src/chess_storage.py, lines 253-260. *)
Definition find_games_by_filename (file_name : string) (file : metadata_file)
  : list Metadata.metadata :=
  match file with
  | Some games =>
      filter (fun game => String.eqb (Metadata.file_name game) file_name) games
  | None => []
  end.

(** src/chess_storage.py, lines 198-234: [start_game]. [games] is what
    [get_pgn_games] reads from the PGN text; [create_bot_game n] is what the
    call for game [n] returns, [None] when no game was created. Lines
    222-228 start one thread per game to play its moves; they touch neither
    the metadata nor the list returned. *)
Fixpoint create_games (file_name : string)
         (create_bot_game : nat -> option string)
         (games : list Game) (game_num : nat) (game_ids : list string)
         (file : metadata_file) : metadata_file * result (list string) :=
  match games with
  | [] => (file, Ok game_ids)
  | _ :: rest =>
      match create_bot_game game_num with
      | Some (String c s) =>
          let game_id := String c s in
          create_games file_name create_bot_game rest (game_num + 1)
                       (game_ids ++ [game_id])
                       (store_game_metadata game_id file_name (Some game_num)
                                            file)
      | _ =>
          (file,
           Raise (ValueError ("Failed to create game " ++ str game_num)))
      end
  end.

Definition start_game (games : list Game) (file_name : string)
           (create_bot_game : nat -> option string) (file : metadata_file)
  : metadata_file * result (list string) :=
  match games with
  | [] => (file, Raise (ValueError "No valid games found in PGN"))
  | _ => create_games file_name create_bot_game games 1 [] file
  end.

(** ** Insert and look up *)

(** A record stored is found under its file name, after the records
    stored before it, and changes nothing under another name; on a missing
    file the record is the first. *)
Theorem store_then_find (game_id file_name other : string)
        (part : option nat) (file : metadata_file) :
  find_games_by_filename file_name
                         (store_game_metadata game_id file_name part file)
  = find_games_by_filename file_name file
    ++ [Metadata.Build_metadata game_id file_name part]
  /\ (other <> file_name ->
      find_games_by_filename other
                             (store_game_metadata game_id file_name part file)
      = find_games_by_filename other file).
Proof.
  split.
  - destruct file as [games|]; simpl.
    + rewrite filter_app. simpl. rewrite String.eqb_refl. reflexivity.
    + rewrite String.eqb_refl. reflexivity.
  - intros Hne. apply not_eq_sym in Hne. apply String.eqb_neq in Hne.
    destruct file as [games|]; simpl.
    + rewrite filter_app. simpl. rewrite Hne. apply app_nil_r.
    + rewrite Hne. reflexivity.
Qed.

Lemma store_then_find_witness :
  find_games_by_filename "b.txt"
                         (store_game_metadata "id1" "a.txt" (Some 1) None)
  = find_games_by_filename "b.txt" None.
Proof.
  apply (store_then_find "id1" "a.txt" "b.txt" (Some 1) None).
  discriminate.
Defined.

(** ** What [start_game] stores *)

(** The records of the games numbered from [first] with the given ids. *)
Fixpoint records_from (file_name : string) (first : nat) (ids : list string)
  : list Metadata.metadata :=
  match ids with
  | [] => []
  | id :: rest =>
      Metadata.Build_metadata id file_name (Some first)
      :: records_from file_name (first + 1) rest
  end.

Definition games_of (file : metadata_file) : list Metadata.metadata :=
  match file with Some games => games | None => [] end.

Lemma store_games_of (game_id file_name : string) (part : option nat)
      (file : metadata_file) :
  games_of (store_game_metadata game_id file_name part file)
  = games_of file ++ [Metadata.Build_metadata game_id file_name part].
Proof. destruct file; reflexivity. Qed.

Lemma records_from_snoc (file_name : string) (ids : list string) :
  forall (first : nat) (id : string),
    records_from file_name first (ids ++ [id])
    = records_from file_name first ids
      ++ [Metadata.Build_metadata id file_name
                                  (Some (first + List.length ids))].
Proof.
  induction ids as [|x r IH]; intros first id; simpl.
  - rewrite Nat.add_0_r; reflexivity.
  - rewrite IH.
    replace (first + 1 + List.length r) with (first + S (List.length r))
      by lia.
    reflexivity.
Qed.

Lemma records_from_length (file_name : string) (ids : list string) :
  forall first, List.length (records_from file_name first ids)
                = List.length ids.
Proof. induction ids; intros first; simpl; auto. Qed.

(** The loop, from any point: it stops at the first game the server does
    not create, the records of the games before it being stored. *)
Lemma create_games_spec (file_name : string)
      (create_bot_game : nat -> option string) (games : list Game) :
  forall (game_num : nat) (game_ids : list string) (file : metadata_file),
  exists ids,
    List.length ids <= List.length games
    /\ (forall k, k < List.length ids ->
                  create_bot_game (game_num + k) = Some (nth k ids EmptyString)
                  /\ nth k ids EmptyString <> EmptyString)
    /\ games_of (fst (create_games file_name create_bot_game games game_num
                                   game_ids file))
       = games_of file ++ records_from file_name game_num ids
    /\ (fst (create_games file_name create_bot_game games game_num game_ids
                          file) = None -> file = None /\ ids = [])
    /\ ((List.length ids = List.length games
         /\ snd (create_games file_name create_bot_game games game_num
                              game_ids file) = Ok (game_ids ++ ids))
        \/ (List.length ids < List.length games
            /\ (create_bot_game (game_num + List.length ids) = None
                \/ create_bot_game (game_num + List.length ids)
                   = Some EmptyString)
            /\ snd (create_games file_name create_bot_game games game_num
                                 game_ids file)
               = Raise (ValueError
                          ("Failed to create game "
                           ++ str (game_num + List.length ids))))).
Proof.
  induction games as [|g rest IH]; intros game_num game_ids file.
  - exists []. simpl. rewrite !app_nil_r.
    repeat split; auto; try lia; try (intros k Hk; lia).
  - simpl create_games.
    destruct (create_bot_game game_num) as [[|c s]|] eqn:Hc.
    + exists []. simpl. rewrite app_nil_r, Nat.add_0_r.
      repeat split; auto; try lia; try (intros k Hk; lia).
      right. repeat split; auto. lia.
    + destruct (IH (game_num + 1) (game_ids ++ [String c s])
                   (store_game_metadata (String c s) file_name (Some game_num)
                                        file))
        as (ids & Hlen & Hids & Hgames & Hnone & Hres).
      exists (String c s :: ids). simpl List.length.
      split; [lia|]. split; [|split; [|split]].
      * intros [|k] Hk; simpl.
        -- rewrite Nat.add_0_r. split; [exact Hc | discriminate].
        -- replace (game_num + S k) with (game_num + 1 + k) by lia.
           apply Hids; lia.
      * rewrite Hgames, store_games_of, <- app_assoc. reflexivity.
      * intros H. apply Hnone in H. destruct H as [H _].
        destruct file; discriminate.
      * replace (game_num + S (List.length ids))
          with (game_num + 1 + List.length ids) by lia.
        rewrite <- app_assoc in Hres. simpl in Hres.
        destruct Hres as [[H1 H2] | (H1 & H2 & H3)];
          [left | right]; repeat split; auto; lia.
    + exists []. simpl. rewrite app_nil_r, Nat.add_0_r.
      repeat split; auto; try lia; try (intros k Hk; lia).
      right. repeat split; auto. lia.
Qed.

Lemma find_games_of (file_name : string) (file : metadata_file) :
  find_games_by_filename file_name file
  = filter (fun game => String.eqb (Metadata.file_name game) file_name)
           (games_of file).
Proof. destruct file; reflexivity. Qed.

Lemma filter_records_from (file_name : string) (ids : list string) :
  forall first,
    filter (fun game => String.eqb (Metadata.file_name game) file_name)
           (records_from file_name first ids)
    = records_from file_name first ids.
Proof.
  induction ids as [|id r IH]; intros first; simpl; auto.
  rewrite String.eqb_refl, IH. reflexivity.
Qed.

(** When the server creates every game, [start_game] returns their ids in
    order and has stored one record for each, numbered from 1, after the
    records that were there: [find_games_by_filename] then lists them
    behind the games found before. *)
Theorem start_game_registers (games : list Game) (file_name : string)
        (create_bot_game : nat -> option string) (file : metadata_file) :
  games <> [] ->
  (forall n, 1 <= n <= List.length games ->
             exists id, create_bot_game n = Some id /\ id <> EmptyString) ->
  exists ids,
    List.length ids = List.length games
    /\ (forall k, k < List.length ids ->
                  create_bot_game (1 + k) = Some (nth k ids EmptyString))
    /\ start_game games file_name create_bot_game file
       = (Some (games_of file ++ records_from file_name 1 ids), Ok ids)
    /\ find_games_by_filename file_name
         (fst (start_game games file_name create_bot_game file))
       = find_games_by_filename file_name file
         ++ records_from file_name 1 ids.
Proof.
  intros Hne Hall.
  destruct (create_games_spec file_name create_bot_game games 1 [] file)
    as (ids & Hlen & Hids & Hgames & Hnone & Hres).
  assert (Hstart : start_game games file_name create_bot_game file
                   = create_games file_name create_bot_game games 1 [] file)
    by (destruct games; [congruence | reflexivity]).
  destruct Hres as [[Hl Hok] | (Hl & Hfail & _)].
  - exists ids. rewrite Hstart. split; [exact Hl|]. split; [apply Hids|].
    simpl in Hok. split.
    + destruct (create_games file_name create_bot_game games 1 [] file)
        as [file' r] eqn:Hc. simpl in *. subst r. f_equal.
      destruct file' as [l|].
      * simpl in Hgames. rewrite Hgames. reflexivity.
      * destruct (Hnone eq_refl) as [_ ->].
        destruct games; [congruence | discriminate].
    + rewrite !find_games_of, Hgames, filter_app, filter_records_from.
      reflexivity.
  - exfalso.
    destruct (Hall (1 + List.length ids)) as (id & Hid & Hnz); [lia|].
    rewrite Hid in Hfail. destruct Hfail as [H | H]; congruence.
Qed.

Lemma start_game_registers_witness :
  exists ids,
    List.length ids = 2
    /\ (forall k, k < List.length ids ->
                  (fun n => Some (str n)) (1 + k) = Some (nth k ids EmptyString))
    /\ start_game [Build_Game "txt" "f.txt" "1" ["a"];
                   Build_Game "txt" "f.txt" "2" ["b"]]
                  "f.txt" (fun n => Some (str n)) None
       = (Some (games_of None ++ records_from "f.txt" 1 ids), Ok ids)
    /\ find_games_by_filename "f.txt"
         (fst (start_game [Build_Game "txt" "f.txt" "1" ["a"];
                           Build_Game "txt" "f.txt" "2" ["b"]]
                          "f.txt" (fun n => Some (str n)) None))
       = find_games_by_filename "f.txt" None ++ records_from "f.txt" 1 ids.
Proof.
  apply (start_game_registers
           [Build_Game "txt" "f.txt" "1" ["a"];
            Build_Game "txt" "f.txt" "2" ["b"]]
           "f.txt" (fun n => Some (str n)) None).
  - discriminate.
  - intros n Hn. exists (str n). split; [reflexivity|].
    simpl in Hn. assert (n = 1 \/ n = 2) as [-> | ->] by lia; discriminate.
Defined.

(** When the server fails to create game [n], the games before it having
    been created, [start_game] raises "Failed to create game n" and the
    records of the games 1 to [n - 1] stay stored: nothing is taken
    back. *)
Theorem start_game_keeps_records (games : list Game) (file_name : string)
        (create_bot_game : nat -> option string) (file : metadata_file)
        (n : nat) :
  1 <= n <= List.length games ->
  (forall j, 1 <= j < n ->
             exists id, create_bot_game j = Some id /\ id <> EmptyString) ->
  create_bot_game n = None \/ create_bot_game n = Some EmptyString ->
  exists ids,
    List.length ids = n - 1
    /\ (forall k, k < List.length ids ->
                  create_bot_game (1 + k) = Some (nth k ids EmptyString))
    /\ snd (start_game games file_name create_bot_game file)
       = Raise (ValueError ("Failed to create game " ++ str n))
    /\ games_of (fst (start_game games file_name create_bot_game file))
       = games_of file ++ records_from file_name 1 ids
    /\ find_games_by_filename file_name
         (fst (start_game games file_name create_bot_game file))
       = find_games_by_filename file_name file
         ++ records_from file_name 1 ids.
Proof.
  intros Hn Hbefore Hfail.
  destruct (create_games_spec file_name create_bot_game games 1 [] file)
    as (ids & Hlen & Hids & Hgames & Hnone & Hres).
  assert (Hstart : start_game games file_name create_bot_game file
                   = create_games file_name create_bot_game games 1 [] file)
    by (destruct games; [simpl in Hn; lia | reflexivity]).
  rewrite Hstart.
  assert (Hk : List.length ids = n - 1).
  { destruct (Nat.lt_trichotomy (List.length ids) (n - 1)) as [Hlt | [Heq | Hgt]];
      auto; exfalso.
    - destruct Hres as [[Hl _] | (_ & Hf & _)]; [lia|].
      destruct (Hbefore (1 + List.length ids)) as (id & Hid & Hnz); [lia|].
      rewrite Hid in Hf. destruct Hf as [H | H]; congruence.
    - destruct (Hids (n - 1) Hgt) as [Hc Hnz].
      replace (1 + (n - 1)) with n in Hc by lia.
      rewrite Hc in Hfail. destruct Hfail as [H | H]; [discriminate|].
      injection H as H. contradiction. }
  exists ids. split; [exact Hk|]. split; [apply Hids|].
  split; [|split].
  - destruct Hres as [[Hl _] | (_ & _ & Hr)]; [lia|].
    rewrite Hr. replace (1 + List.length ids) with n by lia. reflexivity.
  - exact Hgames.
  - rewrite !find_games_of, Hgames, filter_app, filter_records_from.
    reflexivity.
Qed.

Lemma start_game_keeps_records_witness :
  exists ids,
    List.length ids = 2 - 1
    /\ (forall k, k < List.length ids ->
                  (fun n => if n =? 1 then Some "id1" else None) (1 + k)
                  = Some (nth k ids EmptyString))
    /\ snd (start_game [Build_Game "txt" "f.txt" "1" ["a"];
                        Build_Game "txt" "f.txt" "2" ["b"]]
                       "f.txt" (fun n => if n =? 1 then Some "id1" else None)
                       None)
       = Raise (ValueError ("Failed to create game " ++ str 2))
    /\ games_of (fst (start_game [Build_Game "txt" "f.txt" "1" ["a"];
                                  Build_Game "txt" "f.txt" "2" ["b"]]
                                 "f.txt"
                                 (fun n => if n =? 1 then Some "id1" else None)
                                 None))
       = games_of None ++ records_from "f.txt" 1 ids
    /\ find_games_by_filename "f.txt"
         (fst (start_game [Build_Game "txt" "f.txt" "1" ["a"];
                           Build_Game "txt" "f.txt" "2" ["b"]]
                          "f.txt"
                          (fun n => if n =? 1 then Some "id1" else None)
                          None))
       = find_games_by_filename "f.txt" None ++ records_from "f.txt" 1 ids.
Proof.
  apply (start_game_keeps_records
           [Build_Game "txt" "f.txt" "1" ["a"];
            Build_Game "txt" "f.txt" "2" ["b"]]
           "f.txt" (fun n => if n =? 1 then Some "id1" else None) None 2).
  - simpl; lia.
  - intros j Hj. assert (j = 1) as -> by lia.
    exists "id1". split; [reflexivity | discriminate].
  - left; reflexivity.
Defined.

(** * src/app.py: [retrieve_file] *)

(** [bytes.hex()]. *)
Definition hex_digit (n : nat) : ascii :=
  nth n ["0"; "1"; "2"; "3"; "4"; "5"; "6"; "7"; "8"; "9";
         "a"; "b"; "c"; "d"; "e"; "f"]%char "0"%char.

Fixpoint hex (content : list byte) : string :=
  match content with
  | [] => EmptyString
  | b :: rest =>
      String (hex_digit (Byte.to_nat b / 16))
             (String (hex_digit (Byte.to_nat b mod 16)) (hex rest))
  end.

(** [games.sort(key=lambda x: x.get('part', 0))]. The sort is stable; the
    keys are the parts. Comparing [None] raises a [TypeError], which happens
    as soon as two games are compared and one has no part: the result is
    [None] then. *)
Fixpoint keyed (games : list Metadata.metadata)
  : option (list (nat * Metadata.metadata)) :=
  match games with
  | [] => Some []
  | game :: rest =>
      match Metadata.part game, keyed rest with
      | Some k, Some l => Some ((k, game) :: l)
      | _, _ => None
      end
  end.

Fixpoint insert_sorted (x : nat * Metadata.metadata)
         (l : list (nat * Metadata.metadata))
  : list (nat * Metadata.metadata) :=
  match l with
  | [] => [x]
  | y :: r => if fst x <? fst y then x :: l else y :: insert_sorted x r
  end.

Definition stable_sort (l : list (nat * Metadata.metadata))
  : list (nat * Metadata.metadata) :=
  fold_left (fun sorted x => insert_sorted x sorted) l [].

Definition sort_by_part (games : list Metadata.metadata)
  : option (list Metadata.metadata) :=
  match games with
  | [] | [_] => Some games
  | _ =>
      match keyed games with
      | Some l => Some (map snd (stable_sort l))
      | None => None
      end
  end.

(** What the handler answers: the JSON of a success, or a status and an
    error message. *)
Inductive Reply : Type :=
| Reply_success (content fileType mimeType : string)
| Reply_error (status : nat) (error : string).

Section Retrieve.

Variable E : RulesEngine.

(** The server and the libraries the handler calls: the moves
    [get_game_moves] fetches for a game id ([None] when it fails), the
    [FileType] header [decode] reads from the export of a game, the type
    [mimetypes.guess_type] finds for a file name, and the message of the
    [TypeError] of a failed sort. *)
Variable get_game_moves : string -> option string.
Variable export_file_type : string -> option string.
Variable guess_type : string -> option string.
Variable type_error : list Metadata.metadata -> string.

(** Lines 156-163. *)
Fixpoint fetch_moves (games : list Metadata.metadata) (all_moves : list string)
  : list string + string :=
  match games with
  | [] => inl all_moves
  | game :: rest =>
      match get_game_moves (Metadata.game_id game) with
      | Some (String c s) => fetch_moves rest (all_moves ++ [String c s])
      | _ => inr (Metadata.game_id game)
      end
  end.

Definition mime_type (file_type : string) : string :=
  match guess_type ("file." ++ file_type) with
  | Some (String c s) => String c s
  | _ => "application/octet-stream"
  end.

(** Lines 142-186. [file_name] is the ['fileName'] of the request, a
    string or absent; [file] is the metadata file; the temporary file
    [decode] writes to starts empty. *)
Definition retrieve_file (file_name : option string) (file : metadata_file)
  : Reply :=
  match file_name with
  | None | Some EmptyString => Reply_error 400 "No file name provided"
  | Some file_name =>
      match find_games_by_filename file_name file with
      | [] => Reply_error 404 ("No games found for file: " ++ file_name)
      | found =>
          match sort_by_part found with
          | None => Reply_error 500 (type_error found)
          | Some games =>
              match fetch_moves games [] with
              | inr game_id =>
                  Reply_error 500
                              ("Failed to fetch moves for game " ++ game_id)
              | inl all_moves =>
                  let first_id :=
                    match games with
                    | game :: _ => Metadata.game_id game
                    | [] => EmptyString
                    end in
                  match decode E all_moves [] (export_file_type first_id) with
                  | (content, Ok file_type) =>
                      Reply_success (hex content) file_type
                                    (mime_type file_type)
                  | (_, Raise (ValueError msg)) => Reply_error 500 msg
                  end
              end
          end
      end
  end.

End Retrieve.

(** ** From the upload to the retrieval *)

Lemma unclamped_final_stream (E : RulesEngine)
      (file_extension base_name : string) (file_bytes : list byte)
      (fuel : nat) (last : EncState E) :
  EngineOK E ->
  In last (iterations E file_extension base_name file_bytes fuel
                      (initial_state E)) ->
  Inv E file_bytes last ->
  moves_in_current_game E last < MAX_MOVES_PER_GAME ->
  file_bit_index E last + width_of E file_bytes last
  = file_bits_count file_bytes ->
  never_clamped E file_extension base_name file_bytes fuel = true ->
  games_stream E (map mainline
                      (output_pgns E (pushed E file_extension base_name
                                             file_bytes last)))
  = Some (file_bits file_bytes).
Proof.
  intros ok Hin I Hm Heof Hnc.
  destruct (final_games _ file_extension base_name _ ok _ I Hm Heof)
    as [_ Hs].
  destruct (chunk_facts _ _ ok _ I) as (CB & _).
  unfold never_clamped in Hnc. rewrite forallb_forall in Hnc.
  specialize (Hnc last Hin).
  apply Nat.leb_gt in Hm. rewrite Hm in Hnc. simpl in Hnc.
  apply negb_true_iff, Nat.ltb_ge in Hnc.
  assert (HwL : width_of E file_bytes last
                = Nat.log2 (List.length (legal_of E last))).
  { unfold width_of, max_binary_length. lia. }
  rewrite <- HwL, Nat.sub_diag in Hs. simpl in Hs.
  rewrite CB, <- file_bits_advance, Heof in Hs.
  rewrite firstn_all2 in Hs
    by (rewrite file_bits_length; unfold file_bits_count; lia).
  exact Hs.
Qed.

Lemma decode_file_bits (E : RulesEngine) (gs : list Game)
      (file_bytes : list byte) (file_type : string) :
  EngineOK E ->
  games_stream E (map mainline gs) = Some (file_bits file_bytes) ->
  decode E (map game_moves gs) [] (Some file_type) = (file_bytes, Ok file_type).
Proof.
  intros ok Hs.
  pose proof (games_stream_split E ok _ _ Hs) as Hsplit.
  rewrite <- Hsplit in Hs.
  destruct (decode_games_stream E _ [] [] _ Hs)
    as (w & rest & Hw & Hb & _ & Hr); [constructor | simpl; lia |].
  simpl in Hb. rewrite <- (app_nil_r (file_bits file_bytes)) in Hb.
  apply whole_bytes_eq in Hb; [|exact Hr | simpl; lia].
  destruct Hb as [-> _].
  unfold decode. rewrite Hw. reflexivity.
Qed.

Lemma concat_not_empty (ms : list string) :
  ms <> [] -> Forall is_token ms -> String.concat " " ms <> EmptyString.
Proof.
  intros Hne Ht. destruct ms as [|m r]; [congruence|].
  inversion Ht as [|? ? [Hm _] _]; subst.
  destruct m as [|c s]; [congruence|].
  simpl. destruct r; discriminate.
Qed.

(** The records of the games with their parts as keys. *)
Fixpoint keyed_records (file_name : string) (first : nat) (ids : list string)
  : list (nat * Metadata.metadata) :=
  match ids with
  | [] => []
  | id :: rest =>
      (first, Metadata.Build_metadata id file_name (Some first))
      :: keyed_records file_name (first + 1) rest
  end.

Lemma keyed_records_from (file_name : string) (ids : list string) :
  forall first,
    keyed (records_from file_name first ids)
    = Some (keyed_records file_name first ids)
    /\ map snd (keyed_records file_name first ids)
       = records_from file_name first ids.
Proof.
  induction ids as [|id r IH]; intros first; simpl; auto.
  destruct (IH (first + 1)) as [-> ->]. auto.
Qed.

Lemma insert_sorted_last (x : nat * Metadata.metadata)
      (l : list (nat * Metadata.metadata)) :
  Forall (fun y => fst y <= fst x) l -> insert_sorted x l = l ++ [x].
Proof.
  induction 1 as [|y r Hy Hr IH]; simpl; auto.
  assert (H : (fst x <? fst y) = false) by (apply Nat.ltb_ge; exact Hy).
  rewrite H, IH. reflexivity.
Qed.

Lemma stable_sort_records (file_name : string) (ids : list string) :
  forall (first : nat) (sorted : list (nat * Metadata.metadata)),
    Forall (fun y => fst y < first) sorted ->
    fold_left (fun sorted x => insert_sorted x sorted)
              (keyed_records file_name first ids) sorted
    = sorted ++ keyed_records file_name first ids.
Proof.
  induction ids as [|id r IH]; intros first sorted Hs; simpl.
  - rewrite app_nil_r; reflexivity.
  - rewrite insert_sorted_last.
    + rewrite IH.
      * rewrite <- app_assoc; reflexivity.
      * apply Forall_app. split.
        -- eapply Forall_impl; [|exact Hs]. simpl. intros; lia.
        -- constructor; [simpl; lia | constructor].
    + eapply Forall_impl; [|exact Hs]. simpl. intros; lia.
Qed.

(** Records stored in the order of their parts stay in that order. *)
Lemma sort_by_part_records (file_name : string) (first : nat)
      (ids : list string) :
  sort_by_part (records_from file_name first ids)
  = Some (records_from file_name first ids).
Proof.
  destruct (keyed_records_from file_name ids first) as [Hk Hm].
  unfold sort_by_part. rewrite Hk.
  unfold stable_sort. rewrite stable_sort_records by constructor.
  simpl. rewrite Hm.
  destruct ids as [|a [|b r]]; reflexivity.
Qed.

Section RetrieveProps.

Variable E : RulesEngine.
Variable get_game_moves : string -> option string.
Variable export_file_type : string -> option string.
Variable guess_type : string -> option string.
Variable type_error : list Metadata.metadata -> string.

Lemma fetch_moves_records (file_name : string) (ids : list string)
      (moves : list string) :
  Forall2 (fun id m => get_game_moves id = Some m /\ m <> EmptyString)
          ids moves ->
  forall (first : nat) (all_moves : list string),
    fetch_moves get_game_moves (records_from file_name first ids) all_moves
    = inl (all_moves ++ moves).
Proof.
  induction 1 as [|id m ids moves [Hg Hm] _ IH]; intros first all_moves;
    simpl.
  - rewrite app_nil_r; reflexivity.
  - rewrite Hg. destruct m as [|c s]; [congruence|].
    rewrite IH, <- app_assoc. reflexivity.
Qed.

(** The handler, once the games are found, sorted and fetched. *)
Lemma retrieve_file_steps (file_name : string) (file : metadata_file)
      (found games : list Metadata.metadata) (all_moves : list string) :
  file_name <> EmptyString ->
  find_games_by_filename file_name file = found ->
  found <> [] ->
  sort_by_part found = Some games ->
  fetch_moves get_game_moves games [] = inl all_moves ->
  retrieve_file E get_game_moves export_file_type guess_type type_error
                (Some file_name) file
  = match decode E all_moves []
                 (export_file_type
                    (match games with
                     | game :: _ => Metadata.game_id game
                     | [] => EmptyString
                     end)) with
    | (content, Ok file_type) =>
        Reply_success (hex content) file_type (mime_type guess_type file_type)
    | (_, Raise (ValueError msg)) => Reply_error 500 msg
    end.
Proof.
  intros Hname Hfind Hne Hsort Hfetch. unfold retrieve_file.
  destruct file_name; [congruence|].
  rewrite Hfind. destruct found; [congruence|].
  rewrite Hsort, Hfetch. reflexivity.
Qed.

End RetrieveProps.

(** A file that is encoded without a clamped step, whose games are
    registered by [start_game] under a name not used before and are held
    by the server as they were given, is retrieved as it was: the reply of
    [retrieve_file] carries the bytes of the file, in hexadecimal, and the
    file type the server reports. *)
Theorem retrieve_after_upload (E : RulesEngine)
        (file_extension base_name : string) (file_bytes : list byte)
        (fuel : nat) (res : Encoded)
        (file_name : string) (file file' : metadata_file)
        (create_bot_game : nat -> option string) (ids : list string)
        (get_game_moves export_file_type guess_type : string -> option string)
        (type_error : list Metadata.metadata -> string)
        (file_type : string) :
  EngineOK E ->
  file_bytes <> [] ->
  2 * file_bits_count file_bytes < fuel ->
  never_clamped E file_extension base_name file_bytes fuel = true ->
  encode E file_extension base_name (Some file_bytes) fuel = Some (Ok res) ->
  file_name <> EmptyString ->
  find_games_by_filename file_name file = [] ->
  start_game (pgn res) file_name create_bot_game file = (file', Ok ids) ->
  Forall2 (fun id g => get_game_moves id = Some (game_moves g))
          ids (pgn res) ->
  export_file_type (hd EmptyString ids) = Some file_type ->
  retrieve_file E get_game_moves export_file_type guess_type type_error
                (Some file_name) file'
  = Reply_success (hex file_bytes) file_type (mime_type guess_type file_type).
Proof.
  intros ok nonempty Hfuel Hnc Henc Hname Hfresh Hstart Hserver Hexport.
  destruct (encode_result_of_last E file_extension base_name file_bytes ok
                                  nonempty fuel Hfuel)
    as (last & Hin & I & S & Hm & Heof & Henc').
  rewrite Henc in Henc'. injection Henc' as ->.
  set (gs := output_pgns E (pushed E file_extension base_name file_bytes last))
    in *.
  simpl pgn in *. fold gs in Hstart, Hserver.
  pose proof (unclamped_final_stream E file_extension base_name file_bytes
                                     fuel last ok Hin I Hm Heof Hnc) as Hs.
  fold gs in Hs.
  pose proof (Sizes_pushed E file_extension base_name file_bytes ok last
                           I S Hm) as S'.
  pose proof (sizes_games _ _ _ _ S') as Hsizes. fold gs in Hsizes.
  (* what [start_game] stored *)
  destruct (create_games_spec file_name create_bot_game gs 1 [] file)
    as (ids0 & Hlen & _ & Hgames & _ & Hres).
  assert (Hgs : gs <> []).
  { intros Hnil. rewrite Hnil in Hstart. discriminate. }
  assert (Hstart' : start_game gs file_name create_bot_game file
                    = create_games file_name create_bot_game gs 1 [] file)
    by (destruct gs; [congruence | reflexivity]).
  rewrite Hstart' in Hstart. rewrite Hstart in Hgames, Hres. simpl in Hgames, Hres.
  destruct Hres as [[_ Hok] | (_ & _ & Hr)]; [|discriminate].
  injection Hok as ->.
  assert (Hfound : find_games_by_filename file_name file'
                   = records_from file_name 1 ids0).
  { rewrite find_games_of, Hgames, filter_app, filter_records_from.
    rewrite <- find_games_of, Hfresh. reflexivity. }
  (* the moves the server returns *)
  assert (Hmoves : Forall2 (fun id m => get_game_moves id = Some m
                                        /\ m <> EmptyString)
                           ids0 (map game_moves gs)).
  { clear - Hserver Hsizes Hs ok. revert Hsizes Hs.
    generalize (file_bits file_bytes). intros s Hsizes Hs.
    assert (Htok : Forall (fun g => Forall is_token (mainline g)) gs).
    { revert s Hs. clear - ok. induction gs as [|g r IH]; intros s Hs;
        constructor; simpl in Hs.
      - destruct (moves_stream E (start E) (mainline g)) eqn:Hg;
          [|discriminate].
        eapply moves_stream_tokens; eauto.
      - destruct (moves_stream E (start E) (mainline g)); [|discriminate].
        destruct (games_stream E (map mainline r)) eqn:Hr; [|discriminate].
        eapply IH; eauto. }
    clear Hs. induction Hserver as [|id g ids gs' Hg _ IH]; simpl;
      constructor.
    - split; [exact Hg|].
      inversion Hsizes as [|? ? [[H1 _] _] _]; subst.
      inversion Htok; subst.
      apply concat_not_empty; auto.
      intros Hnil. rewrite Hnil in H1. simpl in H1. lia.
    - inversion Hsizes; inversion Htok; subst. auto. }
  (* the handler *)
  rewrite (retrieve_file_steps E get_game_moves export_file_type guess_type
             type_error file_name file' (records_from file_name 1 ids0)
             (records_from file_name 1 ids0) (map game_moves gs)
             Hname Hfound).
  - destruct ids0 as [|id0 ids1].
    { inversion Hserver as [Hnil|]; subst. congruence. }
    simpl in Hexport. simpl records_from. cbv iota. simpl Metadata.game_id.
    rewrite Hexport.
    rewrite (decode_file_bits E gs file_bytes file_type ok Hs).
    reflexivity.
  - destruct ids0; [|discriminate].
    inversion Hserver as [Hnil|]; subst. congruence.
  - apply sort_by_part_records.
  - apply (fetch_moves_records get_game_moves file_name ids0
                               (map game_moves gs) Hmoves 1 []).
Qed.

Definition toy_server (id : string) : option string :=
  if String.eqb id "1" then Some "b a a f a"
  else if String.eqb id "2" then Some "a e a a a"
  else None.

Lemma retrieve_after_upload_witness :
  retrieve_file Toy.engine toy_server (fun _ => Some "txt") (fun _ => None)
                (fun _ => EmptyString) (Some "f.txt")
                (Some (records_from "f.txt" 1 ["1"; "2"]))
  = Reply_success (hex [x41; x42; x00]) "txt"
                  (mime_type (fun _ => None) "txt").
Proof.
  apply (retrieve_after_upload
           Toy.engine "txt" "f.txt" [x41; x42; x00] 49
           {| pgn := [Build_Game "txt" "f.txt" "1" ["b"; "a"; "a"; "f"; "a"];
                      Build_Game "txt" "f.txt" "2" ["a"; "e"; "a"; "a"; "a"]];
              file_name := "f.txt";
              pending_game := true;
              game_count := 2;
              move_counts := [5; 5] |}
           "f.txt" None (Some (records_from "f.txt" 1 ["1"; "2"]))
           (fun n => Some (str n)) ["1"; "2"]
           toy_server (fun _ => Some "txt") (fun _ => None)
           (fun _ => EmptyString) "txt").
  - exact Toy.engine_ok.
  - discriminate.
  - vm_compute; lia.
  - vm_compute; reflexivity.
  - vm_compute; reflexivity.
  - discriminate.
  - reflexivity.
  - vm_compute; reflexivity.
  - repeat constructor.
  - reflexivity.
Defined.

(** * File names: [allowed_file] and the extension [encode] records

    [allowed_file] is given the name of the upload; [encode] is given the
    path the handler saves the upload to, so the two are not applied to
    the same string. *)

Fixpoint contains_dot (s : string) : bool :=
  match s with
  | EmptyString => false
  | String c r => Ascii.eqb c "." || contains_dot r
  end.

(** [s.rsplit('.', 1)] when [s] holds a dot: what is before the last dot
    and what is after it; [None] when it holds none. *)
Fixpoint rsplit_dot (s : string) : option (string * string) :=
  match s with
  | EmptyString => None
  | String c r =>
      match rsplit_dot r with
      | Some (before, after) => Some (String c before, after)
      | None => if Ascii.eqb c "." then Some (EmptyString, r) else None
      end
  end.

(** [str.lower()] on the ASCII letters; the other bytes are kept, so the
    model is the code's on names whose letters are ASCII. No character
    outside ASCII has a lower case that occurs in an allowed extension, so
    [allowed_file] below answers as the code does on every name. *)
Definition lower_char (c : ascii) : ascii :=
  let n := nat_of_ascii c in
  if (65 <=? n) && (n <=? 90) then ascii_of_nat (n + 32) else c.

Fixpoint lower (s : string) : string :=
  match s with
  | EmptyString => EmptyString
  | String c r => String (lower_char c) (lower r)
  end.

(** src/app.py, line 49. *)
Definition ALLOWED_EXTENSIONS : list string := ["txt"; "jpg"; "jpeg"; "webp"].

(** src/app.py, lines 51-52. *)
Definition allowed_file (filename : string) : bool :=
  contains_dot filename
  && match rsplit_dot filename with
     | Some (_, extension) =>
         existsb (String.eqb (lower extension)) ALLOWED_EXTENSIONS
     | None => false
     end.

(** src/chess_storage.py, line 24: the [FileType] of the games, from the
    path [encode] is given. *)
Definition file_extension_of (file_path : string) : string :=
  if contains_dot file_path then
    match rsplit_dot file_path with
    | Some (_, extension) => lower extension
    | None => EmptyString
    end
  else EmptyString.

Lemma rsplit_dot_spec (s : string) :
  match rsplit_dot s with
  | Some (before, after) =>
      s = (before ++ String "." after)%string /\ contains_dot after = false
  | None => contains_dot s = false
  end.
Proof.
  induction s as [|c r IH]; simpl; auto.
  destruct (rsplit_dot r) as [[before after]|].
  - destruct IH as [-> Hafter]. split; auto.
  - rewrite IH, orb_false_r.
    destruct (Ascii.eqb_spec c "."); [subst|]; auto.
Qed.

Lemma rsplit_dot_last (before after : string) :
  contains_dot after = false ->
  rsplit_dot (before ++ String "." after) = Some (before, after).
Proof.
  intros Hafter.
  assert (Hnone : rsplit_dot after = None).
  { pose proof (rsplit_dot_spec after) as H.
    destruct (rsplit_dot after) as [[b a]|]; auto.
    destruct H as [-> _]. clear - Hafter. exfalso.
    induction b as [|c b IH]; simpl in Hafter.
    - discriminate.
    - apply orb_false_iff in Hafter. tauto. }
  induction before as [|c b IH]; simpl.
  - rewrite Hnone. reflexivity.
  - rewrite IH. reflexivity.
Qed.

Lemma contains_dot_append (a b : string) :
  contains_dot (a ++ b) = contains_dot a || contains_dot b.
Proof.
  induction a as [|c a IH]; simpl; auto.
  rewrite IH, orb_assoc. reflexivity.
Qed.

Lemma lower_char_idempotent (c : ascii) :
  lower_char (lower_char c) = lower_char c.
Proof.
  unfold lower_char.
  destruct ((65 <=? nat_of_ascii c) && (nat_of_ascii c <=? 90)) eqn:H.
  - apply andb_true_iff in H. destruct H as [H1 H2].
    apply Nat.leb_le in H1, H2.
    rewrite nat_ascii_embedding by lia.
    assert (H3 : (nat_of_ascii c + 32 <=? 90) = false)
      by (apply Nat.leb_gt; lia).
    rewrite H3, andb_false_r. reflexivity.
  - rewrite H. reflexivity.
Qed.

Lemma lower_char_not_dot (c : ascii) :
  Ascii.eqb (lower_char c) "." = Ascii.eqb c ".".
Proof.
  unfold lower_char.
  destruct ((65 <=? nat_of_ascii c) && (nat_of_ascii c <=? 90)) eqn:H; auto.
  apply andb_true_iff in H. destruct H as [H1 H2].
  apply Nat.leb_le in H1, H2.
  destruct (Ascii.eqb_spec c ".") as [-> | Hc];
    [change (nat_of_ascii ".") with 46 in H1; lia|].
  apply Ascii.eqb_neq. intros Heq.
  apply (f_equal nat_of_ascii) in Heq.
  rewrite nat_ascii_embedding in Heq by lia.
  change (nat_of_ascii ".") with 46 in Heq. lia.
Qed.

Lemma lower_idempotent (s : string) : lower (lower s) = lower s.
Proof.
  induction s; simpl; auto. rewrite lower_char_idempotent, IHs. reflexivity.
Qed.

Lemma contains_dot_lower (s : string) :
  contains_dot (lower s) = contains_dot s.
Proof.
  induction s; simpl; auto. rewrite lower_char_not_dot, IHs. reflexivity.
Qed.

(** A file name is allowed exactly when what follows its last dot is, up
    to the case of its letters, one of txt, jpg, jpeg and webp; a name
    without a dot is not, and what is before the last dot, empty or not,
    does not matter. *)
Theorem allowed_file_spec (filename : string) :
  allowed_file filename = true
  <-> exists stem extension,
        filename = (stem ++ String "." extension)%string
        /\ contains_dot extension = false
        /\ In (lower extension) ALLOWED_EXTENSIONS.
Proof.
  unfold allowed_file. split.
  - intros H. apply andb_true_iff in H. destruct H as [Hdot H].
    pose proof (rsplit_dot_spec filename) as Hs.
    destruct (rsplit_dot filename) as [[stem extension]|]; [|discriminate].
    destruct Hs as [Hname Hext].
    exists stem, extension. repeat split; auto.
    apply existsb_exists in H. destruct H as (x & Hx & Heq).
    apply String.eqb_eq in Heq. subst x. exact Hx.
  - intros (stem & extension & -> & Hext & Hin).
    rewrite rsplit_dot_last by exact Hext.
    assert (Hd : contains_dot (stem ++ String "." extension) = true)
      by (rewrite contains_dot_append; simpl; apply orb_true_r).
    rewrite Hd. cbn [andb].
    apply existsb_exists. exists (lower extension).
    split; [exact Hin | apply String.eqb_refl].
Qed.

(** The extension [encode] records holds no dot and no capital ASCII
    letter; it is empty exactly when the path holds no dot or ends with
    one. *)
Theorem file_extension_of_spec (file_path : string) :
  contains_dot (file_extension_of file_path) = false
  /\ lower (file_extension_of file_path) = file_extension_of file_path
  /\ (file_extension_of file_path = EmptyString
      <-> contains_dot file_path = false
          \/ exists stem, file_path = (stem ++ ".")%string).
Proof.
  unfold file_extension_of.
  pose proof (rsplit_dot_spec file_path) as Hs.
  destruct (contains_dot file_path) eqn:Hdot.
  - destruct (rsplit_dot file_path) as [[stem extension]|];
      [|congruence].
    destruct Hs as [Hname Hext].
    rewrite contains_dot_lower, lower_idempotent.
    repeat split; auto.
    + intros H. right. exists stem.
      destruct extension; [exact Hname | discriminate].
    + intros [H | [stem' H]]; [discriminate|].
      rewrite H in Hname.
      assert (Hr : rsplit_dot (stem' ++ ".") = Some (stem', EmptyString))
        by (apply rsplit_dot_last; reflexivity).
      rewrite Hname in Hr. rewrite rsplit_dot_last in Hr by exact Hext.
      injection Hr as _ ->. reflexivity.
  - repeat split; auto.
Qed.

(** * src/chess_storage.py: [execute_moves_for_game] *)

Inductive Bot : Type := BOT1 | BOT2.

(** The requests the function posts to the server. *)
Inductive Request : Type :=
| Move_request (game_id move_uci : string) (bot : Bot)
| Resign_request (game_id : string) (bot : Bot).

Section ExecuteMoves.

(** The server: whether a request, made after the requests of the
    history, is answered with status 200; [false] stands for another status
    and for an exception of the call. *)
Variable accepts : list Request -> Request -> bool.

(** The local board of line 152: [push board move_uci] is the board after
    [board.push(chess.Move.from_uci(move_uci))] and whether the call
    returned; it raises on a move that is not playable on the board. *)
Variable Board : Type.
Variable new_board : Board.
Variable push : Board -> string -> Board * bool.

(** Lines 171-184: the bots are tried in turn until one is answered 200
    and the move is pushed. An exception of [push] is caught at line 182
    with [move_made] already set, and the next bot is tried. The result is
    [move_made], with the board, the requests posted and their answers. *)
Fixpoint try_tokens (game_id move_uci : string) (tokens : list Bot)
         (move_made : bool) (board : Board) (history : list Request)
         (trace : list (Request * bool))
  : bool * Board * list Request * list (Request * bool) :=
  match tokens with
  | [] => (move_made, board, history, trace)
  | bot :: rest =>
      let request := Move_request game_id move_uci bot in
      if accepts history request
      then
        match push board move_uci with
        | (board1, true) =>
            (true, board1, history ++ [request], trace ++ [(request, true)])
        | (board1, false) =>
            try_tokens game_id move_uci rest true board1
                       (history ++ [request]) (trace ++ [(request, true)])
        end
      else try_tokens game_id move_uci rest move_made board
                      (history ++ [request]) (trace ++ [(request, false)])
  end.

(** Lines 156-194: the moves in order, white's by the first bot first and
    black's by the second first; the function stops at a move no bot could
    make and resigns when all are made. *)
Fixpoint play_moves (game_id : string) (moves_list : list string)
         (move_index : nat) (board : Board) (history : list Request)
         (trace : list (Request * bool)) : list (Request * bool) :=
  match moves_list with
  | [] =>
      let request := Resign_request game_id BOT1 in
      trace ++ [(request, accepts history request)]
  | move_uci :: rest =>
      let is_white_turn := move_index mod 2 =? 0 in
      let tokens := if is_white_turn then [BOT1; BOT2] else [BOT2; BOT1] in
      match try_tokens game_id move_uci tokens false board history trace with
      | (true, board1, history1, trace1) =>
          play_moves game_id rest (move_index + 1) board1 history1 trace1
      | (false, _, _, trace1) => trace1
      end
  end.

Definition execute_moves_for_game (game_id : string)
           (moves_list : list string) : list (Request * bool) :=
  play_moves game_id moves_list 0 new_board [] [].

(** The moves can be pushed in order, as the mainline of a game read from
    a PGN can from the starting position of the game. *)
Fixpoint playable (board : Board) (moves_list : list string) : bool :=
  match moves_list with
  | [] => true
  | move_uci :: rest =>
      match push board move_uci with
      | (board1, true) => playable board1 rest
      | (_, false) => false
      end
  end.

(** The moves the server accepted, and whether the game was resigned. *)
Definition accepted_moves (trace : list (Request * bool)) : list string :=
  flat_map (fun answered =>
              match answered with
              | (Move_request _ move_uci _, true) => [move_uci]
              | _ => []
              end)
           trace.

Definition resigned (trace : list (Request * bool)) : bool :=
  existsb (fun answered =>
             match answered with
             | (Resign_request _ _, _) => true
             | _ => false
             end)
          trace.

Lemma accepted_moves_app (t1 t2 : list (Request * bool)) :
  accepted_moves (t1 ++ t2) = accepted_moves t1 ++ accepted_moves t2.
Proof. unfold accepted_moves. apply flat_map_app. Qed.

Lemma resigned_app (t1 t2 : list (Request * bool)) :
  resigned (t1 ++ t2) = resigned t1 || resigned t2.
Proof. unfold resigned. apply existsb_app. Qed.

Lemma try_tokens_spec (game_id move_uci : string) (tokens : list Bot)
      (board : Board) :
  snd (push board move_uci) = true ->
  forall (history : list Request) (trace : list (Request * bool)),
  exists (made : bool) (history1 : list Request)
         (added : list (Request * bool)),
    try_tokens game_id move_uci tokens false board history trace
    = (made, if made then fst (push board move_uci) else board, history1,
       trace ++ added)
    /\ accepted_moves added = (if made then [move_uci] else [])
    /\ resigned added = false
    /\ List.length added <= List.length tokens.
Proof.
  intros Hpush.
  induction tokens as [|bot rest IH]; intros history trace; simpl.
  - exists false, history, []. rewrite app_nil_r. auto.
  - destruct (accepts history (Move_request game_id move_uci bot)).
    + destruct (push board move_uci) as [board1 returned].
      simpl in Hpush. subst returned.
      exists true, (history ++ [Move_request game_id move_uci bot]),
        [(Move_request game_id move_uci bot, true)].
      repeat split; auto. simpl; lia.
    + destruct (IH (history ++ [Move_request game_id move_uci bot])
                   (trace ++ [(Move_request game_id move_uci bot, false)]))
        as (made & h1 & added & Ht & Ha & Hr & Hl).
      exists made, h1, ((Move_request game_id move_uci bot, false) :: added).
      rewrite Ht, <- app_assoc. repeat split; auto. simpl; lia.
Qed.

Lemma play_moves_spec (game_id : string) (moves_list : list string) :
  forall (move_index : nat) (board : Board) (history : list Request)
         (trace : list (Request * bool)),
  playable board moves_list = true ->
  exists (made : nat) (added : list (Request * bool)),
    play_moves game_id moves_list move_index board history trace
    = trace ++ added
    /\ made <= List.length moves_list
    /\ accepted_moves added = firstn made moves_list
    /\ (resigned added = true <-> made = List.length moves_list)
    /\ List.length added <= 2 * List.length moves_list + 1.
Proof.
  induction moves_list as [|m rest IH];
    intros move_index board history trace Hplay.
  - exists 0, [(Resign_request game_id BOT1,
                accepts history (Resign_request game_id BOT1))].
    simpl. repeat split; auto.
  - cbn [play_moves]. cbn [playable] in Hplay.
    assert (Hpush : snd (push board m) = true)
      by (destruct (push board m) as [b [|]]; [reflexivity | discriminate]).
    destruct (try_tokens_spec game_id m
                (if move_index mod 2 =? 0 then [BOT1; BOT2] else [BOT2; BOT1])
                board Hpush history trace)
      as (made & h1 & added & Ht & Ha & Hr & Hl).
    rewrite Ht.
    assert (Hl2 : List.length added <= 2)
      by (destruct (move_index mod 2 =? 0); simpl in Hl; exact Hl).
    destruct made.
    + assert (Hrest : playable (fst (push board m)) rest = true)
        by (destruct (push board m) as [b [|]];
            [exact Hplay | discriminate]).
      destruct (IH (move_index + 1) (fst (push board m)) h1 (trace ++ added)
                   Hrest)
        as (k & added' & Hp & Hk & Hacc & Hres & Hlen).
      exists (S k), (added ++ added').
      rewrite Hp, <- app_assoc.
      rewrite accepted_moves_app, resigned_app, Ha, Hr, Hacc, length_app.
      simpl. repeat split; auto; try lia.
      * intros H. apply Hres in H. lia.
      * intros H. apply Hres. lia.
    + exists 0, added. rewrite Ha, Hr. simpl.
      repeat split; auto; try lia; discriminate.
Qed.

End ExecuteMoves.

(** For a game whose moves can be played in order on a board, and whatever
    the server answers: the moves it accepted are the first moves of the
    game, in order and once each; the function resigns exactly when it
    accepted them all; and it posts at most two requests for a move. *)
Theorem execute_moves_in_order (accepts : list Request -> Request -> bool)
        (Board : Type) (new_board : Board)
        (push : Board -> string -> Board * bool)
        (game_id : string) (moves_list : list string) :
  playable Board push new_board moves_list = true ->
  exists made,
    made <= List.length moves_list
    /\ accepted_moves
         (execute_moves_for_game accepts Board new_board push game_id
                                 moves_list)
       = firstn made moves_list
    /\ (resigned (execute_moves_for_game accepts Board new_board push game_id
                                         moves_list) = true
        <-> made = List.length moves_list)
    /\ List.length (execute_moves_for_game accepts Board new_board push
                                           game_id moves_list)
       <= 2 * List.length moves_list + 1.
Proof.
  intros Hplay.
  destruct (play_moves_spec accepts Board push game_id moves_list 0 new_board
                            [] [] Hplay)
    as (made & added & Hp & Hm & Ha & Hr & Hl).
  unfold execute_moves_for_game. rewrite Hp. simpl.
  exists made. auto.
Qed.

(** A server that refuses the first bot and takes no third move, on the
    board of the toy engine. *)
Definition toy_accepts (history : list Request) (request : Request) : bool :=
  match request with
  | Move_request _ _ BOT2 => List.length history <? 4
  | _ => false
  end.

Lemma execute_moves_in_order_witness :
  exists made,
    made <= 3
    /\ accepted_moves
         (execute_moves_for_game
            toy_accepts (Position Toy.engine) (start Toy.engine)
            (fun board move_uci =>
               (push_uci Toy.engine board move_uci,
                existsb (String.eqb move_uci) (legal_moves Toy.engine board)))
            "id1" ["b"; "a"; "a"])
       = firstn made ["b"; "a"; "a"]
    /\ (resigned
          (execute_moves_for_game
             toy_accepts (Position Toy.engine) (start Toy.engine)
             (fun board move_uci =>
                (push_uci Toy.engine board move_uci,
                 existsb (String.eqb move_uci)
                         (legal_moves Toy.engine board)))
             "id1" ["b"; "a"; "a"]) = true
        <-> made = 3)
    /\ List.length
         (execute_moves_for_game
            toy_accepts (Position Toy.engine) (start Toy.engine)
            (fun board move_uci =>
               (push_uci Toy.engine board move_uci,
                existsb (String.eqb move_uci) (legal_moves Toy.engine board)))
            "id1" ["b"; "a"; "a"])
       <= 2 * 3 + 1.
Proof.
  apply (execute_moves_in_order
           toy_accepts (Position Toy.engine) (start Toy.engine)
           (fun board move_uci =>
              (push_uci Toy.engine board move_uci,
               existsb (String.eqb move_uci) (legal_moves Toy.engine board)))
           "id1" ["b"; "a"; "a"]).
  vm_compute; reflexivity.
Defined.

(** * src/util/cleanup.py: [cleanup_temp_files] *)

(** What a name in the directory is: a regular file, which [os.unlink]
    removes or fails to remove, or something else (a directory). *)
Inductive Entry : Type :=
| Regular (removable : bool)
| Other.

(** The directory: missing, and whether [os.makedirs] can create it; a
    path that exists and that [os.listdir] cannot list (not a directory);
    or the entries [os.listdir] lists, in its order. *)
Inductive Directory : Type :=
| Missing (creatable : bool)
| Not_a_directory
| Listing (entries : list (string * Entry)).

Fixpoint ends_with_slash (s : string) : bool :=
  match s with
  | EmptyString => false
  | String c EmptyString => Ascii.eqb c "/"
  | String _ r => ends_with_slash r
  end.

(** [os.path.join(directory, filename)] for a name that [os.listdir]
    returned. *)
Definition path_join (directory filename : string) : string :=
  match directory with
  | EmptyString => filename
  | _ =>
      if ends_with_slash directory then (directory ++ filename)%string
      else (directory ++ "/" ++ filename)%string
  end.

(** Lines 16-24: the loop over the names. *)
Fixpoint clean_entries (directory : string) (entries : list (string * Entry))
         (cleaned_files : list string)
  : list (string * Entry) * list string :=
  match entries with
  | [] => ([], cleaned_files)
  | (filename, entry) :: rest =>
      let file_path := path_join directory filename in
      match entry with
      | Regular true =>
          clean_entries directory rest (cleaned_files ++ [file_path])
      | _ =>
          let (kept, cleaned) := clean_entries directory rest cleaned_files in
          ((filename, entry) :: kept, cleaned)
      end
  end.

(** Lines 5-29: the directory afterwards and the list returned. *)
Definition cleanup_temp_files (directory : string) (dir : Directory)
  : Directory * list string :=
  match dir with
  | Missing true => (Listing [], [])
  | Missing false => (Missing false, [])
  | Not_a_directory => (Not_a_directory, [])
  | Listing entries =>
      let (kept, cleaned) := clean_entries directory entries [] in
      (Listing kept, cleaned)
  end.

Definition is_removable (e : string * Entry) : bool :=
  match snd e with Regular true => true | _ => false end.

Lemma clean_entries_spec (directory : string)
      (entries : list (string * Entry)) :
  forall cleaned_files,
    clean_entries directory entries cleaned_files
    = (filter (fun e => negb (is_removable e)) entries,
       cleaned_files
       ++ map (fun e => path_join directory (fst e))
              (filter is_removable entries)).
Proof.
  induction entries as [|[filename entry] rest IH]; intros cleaned; simpl.
  - rewrite app_nil_r; reflexivity.
  - destruct entry as [[|]|]; unfold is_removable at 1 3; simpl.
    + rewrite IH, <- app_assoc. reflexivity.
    + rewrite IH. reflexivity.
    + rewrite IH. reflexivity.
Qed.

(** The function removes the regular files that can be removed and nothing
    else, keeps the order of what stays, and returns the paths of what it
    removed; a missing directory is created empty when it can be. Called again, it removes
    nothing and returns the empty list. *)
Theorem cleanup_twice (directory : string) (dir : Directory) :
  let (dir1, cleaned) := cleanup_temp_files directory dir in
  cleanup_temp_files directory dir1 = (dir1, [])
  /\ match dir with
     | Listing entries =>
         dir1 = Listing (filter (fun e => negb (is_removable e)) entries)
         /\ cleaned = map (fun e => path_join directory (fst e))
                          (filter is_removable entries)
     | Missing true => dir1 = Listing [] /\ cleaned = []
     | Missing false => dir1 = Missing false /\ cleaned = []
     | Not_a_directory => dir1 = Not_a_directory /\ cleaned = []
     end.
Proof.
  destruct dir as [[|]| |entries]; simpl; auto.
  rewrite clean_entries_spec. simpl. split; [|auto].
  rewrite clean_entries_spec. simpl.
  assert (H : forall l : list (string * Entry),
             filter is_removable (filter (fun e => negb (is_removable e)) l)
             = []
             /\ filter (fun e => negb (is_removable e))
                       (filter (fun e => negb (is_removable e)) l)
                = filter (fun e => negb (is_removable e)) l).
  { induction l as [|e l [IH1 IH2]]; simpl; auto.
    destruct (is_removable e) eqn:He; simpl; auto.
    rewrite He. simpl. rewrite IH1, IH2. auto. }
  destruct (H entries) as [-> ->]. reflexivity.
Qed.

(** * src/app.py: [list_files] *)

(** A file of the list: its name and, for each of its games, the id and
    the part. *)
Definition listed_file : Type := string * list (string * option nat).

(** Lines 196-206: the games are grouped by file name in a dict, which
    keeps the names in the order they first occur. The records are those
    [store_game_metadata] writes, which all hold the key ['part']: the
    default of [game.get('part', 1)] is not used. *)
Fixpoint add_game (filename : string) (game : string * option nat)
         (files : list listed_file) : list listed_file :=
  match files with
  | [] => [(filename, [game])]
  | (name, games) :: rest =>
      if String.eqb name filename then (name, games ++ [game]) :: rest
      else (name, games) :: add_game filename game rest
  end.

Definition listed_game (game : Metadata.metadata) : string * option nat :=
  (Metadata.game_id game, Metadata.part game).

Definition group_games (games : list Metadata.metadata)
           (files : list listed_file) : list listed_file :=
  fold_left (fun files game =>
               add_game (Metadata.file_name game) (listed_game game) files)
            games files.

(** Line 210: [file_list.sort(key=lambda x: x['name'])], a stable sort on
    the names; the order of the strings is that of their code points,
    which is the order of their UTF-8 bytes. *)
Fixpoint insert_by_name (x : listed_file) (l : list listed_file)
  : list listed_file :=
  match l with
  | [] => [x]
  | y :: r =>
      if String.ltb (fst x) (fst y) then x :: l else y :: insert_by_name x r
  end.

Definition sort_by_name (l : list listed_file) : list listed_file :=
  fold_left (fun sorted x => insert_by_name x sorted) l [].

Inductive Files_reply : Type :=
| Files_success (files : list listed_file)
| Files_error (status : nat) (error : string).

(** Lines 188-218. Without the metadata file, [open] raises and the
    handler answers 500 with the message of the exception. *)
Definition list_files (file : metadata_file) : Files_reply :=
  match file with
  | None =>
      Files_error
        500 "[Errno 2] No such file or directory: 'game_metadata.json'"
  | Some games => Files_success (sort_by_name (group_games games []))
  end.

(** The games listed under a name. *)
Definition games_named (name : string) (games : list Metadata.metadata)
  : list (string * option nat) :=
  map listed_game
      (filter (fun game => String.eqb (Metadata.file_name game) name) games).

(** The names increase strictly. *)
Fixpoint increasing (names : list string) : Prop :=
  match names with
  | a :: (b :: _) as rest => String.ltb a b = true /\ increasing rest
  | _ => True
  end.

Lemma add_game_keys (filename : string) (game : string * option nat)
      (files : list listed_file) (name : string) :
  In name (map fst (add_game filename game files))
  <-> name = filename \/ In name (map fst files).
Proof.
  induction files as [|[n gs] r IH]; simpl.
  - intuition.
  - destruct (String.eqb_spec n filename) as [-> | Hne]; simpl.
    + intuition.
    + rewrite IH. intuition.
Qed.

Lemma add_game_nodup (filename : string) (game : string * option nat)
      (files : list listed_file) :
  NoDup (map fst files) -> NoDup (map fst (add_game filename game files)).
Proof.
  induction files as [|[n gs] r IH]; simpl; intros Hnd.
  - constructor; [tauto | constructor].
  - inversion Hnd as [|? ? Hn Hr]; subst.
    destruct (String.eqb_spec n filename) as [-> | Hne]; simpl.
    + constructor; auto.
    + constructor; auto. rewrite add_game_keys. intuition.
Qed.

Lemma add_game_In (filename : string) (game : string * option nat)
      (files : list listed_file) (name : string)
      (gs : list (string * option nat)) :
  NoDup (map fst files) ->
  (In (name, gs) (add_game filename game files)
   <-> (name <> filename /\ In (name, gs) files)
       \/ (name = filename
           /\ ((exists old, In (filename, old) files /\ gs = old ++ [game])
               \/ (~ In filename (map fst files) /\ gs = [game])))).
Proof.
  induction files as [|[n old] r IH]; simpl; intros Hnd.
  - split.
    + intros [H | []]. injection H as <- <-. right. intuition.
    + intros [[_ []] | [-> [(o & [] & _) | [_ ->]]]]. auto.
  - inversion Hnd as [|? ? Hn Hr]; subst. specialize (IH Hr).
    destruct (String.eqb_spec n filename) as [-> | Hne]; simpl.
    + split.
      * intros [H | H].
        -- injection H as <- <-. right. split; auto. left. eauto.
        -- left. split; auto. intros ->. apply Hn.
           change filename with (fst (filename, gs)). apply in_map, H.
      * intros [[Hne [H | H]] | [-> [(o & [H | H] & ->) | [H _]]]].
        -- injection H as -> _. congruence.
        -- auto.
        -- injection H as ->. auto.
        -- exfalso. apply Hn.
           change filename with (fst (filename, o)). apply in_map, H.
        -- exfalso. apply H. auto.
    + rewrite IH. split.
      * intros [H | [[H1 H2] | [-> [(o & H & ->) | [H ->]]]]].
        -- injection H as <- <-. left. auto.
        -- left. auto.
        -- right. split; auto. left. eauto.
        -- right. split; auto. right. split; auto. intuition.
      * intros [[H1 [H | H]] | [-> [(o & [H | H] & ->) | [H ->]]]].
        -- auto.
        -- right. left. auto.
        -- injection H as -> _. congruence.
        -- right. right. split; auto. left. eauto.
        -- right. right. split; auto. right. split; auto.
Qed.

Lemma games_named_snoc (name : string) (games : list Metadata.metadata)
      (game : Metadata.metadata) :
  games_named name (games ++ [game])
  = games_named name games
    ++ (if String.eqb (Metadata.file_name game) name
        then [listed_game game] else []).
Proof.
  unfold games_named. rewrite filter_app, map_app. simpl.
  destruct (String.eqb (Metadata.file_name game) name); reflexivity.
Qed.

(** What the grouping holds for the games read so far. *)
Definition grouped (files : list listed_file)
           (games : list Metadata.metadata) : Prop :=
  NoDup (map fst files)
  /\ forall name gs,
      In (name, gs) files <-> gs <> [] /\ gs = games_named name games.

Lemma grouped_add (files : list listed_file)
      (games : list Metadata.metadata) (game : Metadata.metadata) :
  grouped files games ->
  grouped (add_game (Metadata.file_name game) (listed_game game) files)
          (games ++ [game]).
Proof.
  intros [Hnd Hin]. split; [apply add_game_nodup, Hnd|].
  intros name gs. rewrite add_game_In by exact Hnd.
  rewrite games_named_snoc.
  assert (Hkey : In (Metadata.file_name game) (map fst files)
                 <-> games_named (Metadata.file_name game) games <> []).
  { split.
    - intros H. apply in_map_iff in H. destruct H as ([n old] & Hn & H).
      simpl in Hn. subst n. apply Hin in H. destruct H as [Hne ->]. exact Hne.
    - intros H.
      change (Metadata.file_name game)
        with (fst (Metadata.file_name game,
                   games_named (Metadata.file_name game) games)).
      apply in_map. apply Hin. auto. }
  split.
  - intros [[Hne H] | [-> [(old & H & ->) | [Hnot ->]]]].
    + apply Hin in H. destruct H as [Hgs ->].
      apply not_eq_sym, String.eqb_neq in Hne. rewrite Hne, app_nil_r. auto.
    + apply Hin in H. destruct H as [_ ->]. rewrite String.eqb_refl.
      split; auto. intros Hnil. apply app_eq_nil in Hnil.
      destruct Hnil; discriminate.
    + rewrite String.eqb_refl.
      destruct (games_named (Metadata.file_name game) games) eqn:Hg.
      * split; [discriminate | reflexivity].
      * exfalso. apply Hnot, Hkey. discriminate.
  - intros [Hne ->].
    destruct (String.eqb_spec (Metadata.file_name game) name) as [<- | Hneq].
    + right. split; auto.
      destruct (games_named (Metadata.file_name game) games) eqn:Hg.
      * right. split; auto. intros H. apply Hkey in H. congruence.
      * left. exists (p :: l). split; auto. apply Hin.
        rewrite Hg. split; [discriminate | reflexivity].
    + left. rewrite app_nil_r in *. split; [congruence|].
      apply Hin. auto.
Qed.

Lemma group_games_grouped (games : list Metadata.metadata) :
  forall (files : list listed_file) (read : list Metadata.metadata),
    grouped files read -> grouped (group_games games files) (read ++ games).
Proof.
  induction games as [|game rest IH]; intros files read H; simpl.
  - rewrite app_nil_r; exact H.
  - replace (read ++ game :: rest) with ((read ++ [game]) ++ rest)
      by (rewrite <- app_assoc; reflexivity).
    apply IH, grouped_add, H.
Qed.

Lemma insert_by_name_In (x y : listed_file) (l : list listed_file) :
  In x (insert_by_name y l) <-> x = y \/ In x l.
Proof.
  induction l as [|z r IH]; simpl.
  - intuition.
  - destruct (String.ltb (fst y) (fst z)); simpl; [intuition|].
    rewrite IH. intuition.
Qed.

(** No name is before the name in front of it. *)
Fixpoint ordered (l : list listed_file) : Prop :=
  match l with
  | a :: (b :: _) as rest => String.ltb (fst b) (fst a) = false /\ ordered rest
  | _ => True
  end.

Lemma ltb_asym (a b : string) : String.ltb a b = true -> String.ltb b a = false.
Proof.
  unfold String.ltb. rewrite (String.compare_antisym b a).
  destruct (String.compare a b); simpl; congruence.
Qed.

Lemma insert_by_name_ordered (x : listed_file) (l : list listed_file) :
  ordered l -> ordered (insert_by_name x l).
Proof.
  induction l as [|y r IH]; simpl; auto.
  intros Hord. destruct (String.ltb (fst x) (fst y)) eqn:Hxy.
  - simpl. split; [apply ltb_asym, Hxy | exact Hord].
  - destruct r as [|z r'].
    + simpl. auto.
    + destruct Hord as [Hzy Hr]. specialize (IH Hr). simpl in IH |- *.
      destruct (String.ltb (fst x) (fst z)); simpl; auto.
Qed.

Lemma sort_by_name_spec (l : list listed_file) :
  forall sorted,
    ordered sorted ->
    ordered (fold_left (fun sorted x => insert_by_name x sorted) l sorted)
    /\ forall x,
        In x (fold_left (fun sorted x => insert_by_name x sorted) l sorted)
        <-> In x l \/ In x sorted.
Proof.
  induction l as [|y r IH]; intros sorted Hs; simpl.
  - split; [exact Hs | intuition].
  - destruct (IH (insert_by_name y sorted) (insert_by_name_ordered y _ Hs))
      as [Ho Hin].
    split; [exact Ho|]. intros x. rewrite Hin, insert_by_name_In. intuition.
Qed.

Lemma ordered_increasing (l : list listed_file) :
  ordered l ->
  (forall a b, In a l -> In b l -> fst a = fst b -> a = b) ->
  NoDup l ->
  increasing (map fst l).
Proof.
  induction l as [|a [|b r] IH]; simpl; auto.
  intros [Hba Hord] Huniq Hnd.
  inversion Hnd as [|? ? Ha Hnd']; subst.
  split.
  - unfold String.ltb in *.
    destruct (String.compare (fst a) (fst b)) eqn:Hc; auto.
    + apply String.compare_eq_iff in Hc.
      exfalso. apply Ha. left. symmetry.
      apply Huniq; simpl; auto.
    + rewrite String.compare_antisym, Hc in Hba. discriminate.
  - apply IH; auto; intros x y Hx Hy; apply Huniq; simpl; auto.
Qed.

Lemma grouped_unique (files : list listed_file)
      (games : list Metadata.metadata) :
  grouped files games ->
  NoDup files
  /\ forall a b, In a files -> In b files -> fst a = fst b -> a = b.
Proof.
  intros [Hnd Hin]. split.
  - apply (NoDup_map_inv fst), Hnd.
  - intros [n1 g1] [n2 g2] Ha Hb Heq. simpl in Heq. subst n2.
    apply Hin in Ha, Hb. destruct Ha as [_ ->], Hb as [_ ->]. reflexivity.
Qed.

Lemma insert_by_name_nodup (y : listed_file) (r sorted : list listed_file) :
  NoDup (r ++ sorted) -> ~ In y (r ++ sorted) ->
  NoDup (r ++ insert_by_name y sorted).
Proof.
  induction r as [|z r IH]; simpl.
  - induction sorted as [|z s IHs]; simpl; intros Hnd Hy.
    + constructor; [tauto | constructor].
    + destruct (String.ltb (fst y) (fst z)).
      * constructor; auto.
      * inversion Hnd; subst. constructor.
        -- rewrite insert_by_name_In. intuition.
        -- apply IHs; auto.
  - intros Hnd Hy. inversion Hnd as [|? ? Hz Hr]; subst. constructor.
    + rewrite in_app_iff, insert_by_name_In. rewrite in_app_iff in Hz.
      intuition.
    + apply IH; auto.
Qed.

Lemma sort_by_name_nodup (l : list listed_file) :
  forall sorted,
    NoDup (l ++ sorted) ->
    NoDup (fold_left (fun sorted x => insert_by_name x sorted) l sorted).
Proof.
  induction l as [|y r IH]; intros sorted Hnd; simpl; auto.
  apply IH. simpl in Hnd. inversion Hnd; subst.
  apply insert_by_name_nodup; assumption.
Qed.

(** [list_files] answers with one entry for each file name of the
    metadata, in strictly increasing order of the names (the order of the
    strings' bytes); the entry of a name holds the id and the part of each
    of the name's games, in the order of the metadata, which is the list
    [find_games_by_filename] returns for the name. *)
Theorem list_files_spec (games : list Metadata.metadata) :
  exists files,
    list_files (Some games) = Files_success files
    /\ increasing (map fst files)
    /\ forall name gs,
        In (name, gs) files
        <-> gs <> []
            /\ gs = map listed_game
                       (find_games_by_filename name (Some games)).
Proof.
  eexists. split; [reflexivity|].
  pose proof (group_games_grouped games [] []) as Hg.
  simpl in Hg.
  assert (H0 : grouped [] []).
  { split; [constructor|]. intros name gs. simpl. split; [tauto|].
    intros [Hne ->]. apply Hne. reflexivity. }
  specialize (Hg H0).
  destruct (grouped_unique _ _ Hg) as [Hnd Huniq].
  destruct (sort_by_name_spec (group_games games []) [] I) as [Hord Hin].
  assert (Hin' : forall x, In x (sort_by_name (group_games games []))
                           <-> In x (group_games games [])).
  { intros x. unfold sort_by_name. rewrite Hin. simpl. tauto. }
  split.
  - apply ordered_increasing.
    + exact Hord.
    + intros a b Ha Hb. apply Huniq; apply Hin'; assumption.
    + apply sort_by_name_nodup. rewrite app_nil_r. exact Hnd.
  - intros name gs. rewrite Hin'. destruct Hg as [_ Hg]. rewrite Hg.
    reflexivity.
Qed.

(** * Two files, one list of games *)

Lemma unclamped_result_stream (E : RulesEngine)
      (file_extension base_name : string) (file_bytes : list byte)
      (fuel : nat) (res : Encoded) :
  EngineOK E ->
  file_bytes <> [] ->
  2 * file_bits_count file_bytes < fuel ->
  never_clamped E file_extension base_name file_bytes fuel = true ->
  encode E file_extension base_name (Some file_bytes) fuel = Some (Ok res) ->
  games_stream E (map mainline (pgn res)) = Some (file_bits file_bytes).
Proof.
  intros ok nonempty Hfuel Hnc Henc.
  destruct (encode_result_of_last E file_extension base_name file_bytes ok
                                  nonempty fuel Hfuel)
    as (last & Hin & I & _ & Hm & Heof & Henc').
  rewrite Henc in Henc'. injection Henc' as ->. simpl pgn.
  eapply unclamped_final_stream; eauto.
Qed.

(** Two files that [encode] turns, without a clamped step, into games with
    the same moves are the same file, whatever their names and
    extensions: the moves alone determine the bytes. *)
Theorem encode_injective (E : RulesEngine)
        (file_extension1 base_name1 file_extension2 base_name2 : string)
        (file_bytes1 file_bytes2 : list byte) (fuel1 fuel2 : nat)
        (res1 res2 : Encoded) :
  EngineOK E ->
  file_bytes1 <> [] ->
  file_bytes2 <> [] ->
  2 * file_bits_count file_bytes1 < fuel1 ->
  2 * file_bits_count file_bytes2 < fuel2 ->
  never_clamped E file_extension1 base_name1 file_bytes1 fuel1 = true ->
  never_clamped E file_extension2 base_name2 file_bytes2 fuel2 = true ->
  encode E file_extension1 base_name1 (Some file_bytes1) fuel1
  = Some (Ok res1) ->
  encode E file_extension2 base_name2 (Some file_bytes2) fuel2
  = Some (Ok res2) ->
  map mainline (pgn res1) = map mainline (pgn res2) ->
  file_bytes1 = file_bytes2.
Proof.
  intros ok Hne1 Hne2 Hfuel1 Hfuel2 Hnc1 Hnc2 Henc1 Henc2 Hsame.
  pose proof (unclamped_result_stream E _ _ _ _ _ ok Hne1 Hfuel1 Hnc1 Henc1)
    as Hs1.
  pose proof (unclamped_result_stream E _ _ _ _ _ ok Hne2 Hfuel2 Hnc2 Henc2)
    as Hs2.
  rewrite Hsame, Hs2 in Hs1. injection Hs1 as Hbits.
  symmetry. apply file_bits_inj, Hbits.
Qed.

Lemma encode_injective_witness :
  [x41; x42; x00] = [x41; x42; x00].
Proof.
  apply (encode_injective
           Toy.engine "txt" "f.txt" "jpg" "g.jpg"
           [x41; x42; x00] [x41; x42; x00] 49 60
           {| pgn := [Build_Game "txt" "f.txt" "1" ["b"; "a"; "a"; "f"; "a"];
                      Build_Game "txt" "f.txt" "2" ["a"; "e"; "a"; "a"; "a"]];
              file_name := "f.txt";
              pending_game := true;
              game_count := 2;
              move_counts := [5; 5] |}
           {| pgn := [Build_Game "jpg" "g.jpg" "1" ["b"; "a"; "a"; "f"; "a"];
                      Build_Game "jpg" "g.jpg" "2" ["a"; "e"; "a"; "a"; "a"]];
              file_name := "g.jpg";
              pending_game := true;
              game_count := 2;
              move_counts := [5; 5] |}).
  - exact Toy.engine_ok.
  - discriminate.
  - discriminate.
  - vm_compute; lia.
  - vm_compute; lia.
  - vm_compute; reflexivity.
  - vm_compute; reflexivity.
  - vm_compute; reflexivity.
  - vm_compute; reflexivity.
  - reflexivity.
Defined.

(** * src/app.py: [handle_start_game] *)

Inductive Start_reply : Type :=
| Start_success (gameIds : list string) (gameUrl : string)
| Start_error (status : nat) (error : string).

(** Lines 121-140. [pgn] and [file_name] are the ['pgn'] and the
    ['fileName'] of the request, strings or absent; [get_pgn_games] is the
    reading of the games in the PGN text (src/util.py, lines 7-17);
    [game_ids[0]] raises an [IndexError] on an empty list. *)
Definition handle_start_game (get_pgn_games : string -> list Game)
           (pgn file_name : option string)
           (create_bot_game : nat -> option string) (file : metadata_file)
  : metadata_file * Start_reply :=
  match pgn, file_name with
  | Some (String c1 s1), Some (String c2 s2) =>
      match start_game (get_pgn_games (String c1 s1)) (String c2 s2)
                       create_bot_game file with
      | (file1, Ok game_ids) =>
          match game_ids with
          | first :: _ =>
              (file1,
               Start_success game_ids ("https://lichess.org/" ++ first))
          | [] => (file1, Start_error 500 "list index out of range")
          end
      | (file1, Raise (ValueError msg)) => (file1, Start_error 500 msg)
      end
  | _, _ => (file, Start_error 400 "Missing PGN or file name")
  end.

Definition missing (field : option string) : Prop :=
  field = None \/ field = Some EmptyString.

(** The handler answers 400, storing nothing, exactly when the PGN or the
    file name is missing or empty: every other answer comes with a PGN and
    a file name that are not empty. Otherwise it answers either with as many
    game ids as the PGN has games, at least one, the URL being that of the
    first, the games being stored under the file name with parts numbered
    from 1; or with status 500 and the message of [start_game]: no game in
    the PGN, or a game the server did not create. The [IndexError] of
    [game_ids[0]] never happens. *)
Theorem handle_start_game_spec (get_pgn_games : string -> list Game)
        (pgn file_name : option string)
        (create_bot_game : nat -> option string) (file : metadata_file) :
  match handle_start_game get_pgn_games pgn file_name create_bot_game file
  with
  | (file1, Start_success gameIds gameUrl) =>
      exists text name first,
        pgn = Some text /\ text <> EmptyString
        /\ file_name = Some name /\ name <> EmptyString
        /\ hd_error gameIds = Some first
        /\ gameUrl = ("https://lichess.org/" ++ first)%string
        /\ List.length gameIds = List.length (get_pgn_games text)
        /\ games_of file1 = games_of file ++ records_from name 1 gameIds
  | (file1, Start_error status error) =>
      (status = 400 /\ error = "Missing PGN or file name" /\ file1 = file
       /\ (missing pgn \/ missing file_name))
      \/ (status = 500 /\ ~ missing pgn /\ ~ missing file_name
          /\ exists text,
              pgn = Some text
              /\ ((get_pgn_games text = []
                   /\ error = "No valid games found in PGN" /\ file1 = file)
                  \/ exists n,
                      1 <= n <= List.length (get_pgn_games text)
                      /\ error = ("Failed to create game " ++ str n)%string))
  end.
Proof.
  unfold handle_start_game, missing.
  destruct pgn as [[|c1 s1]|];
    try (left; repeat split; auto; fail).
  destruct file_name as [[|c2 s2]|];
    try (left; repeat split; auto; fail).
  set (text := String c1 s1). set (name := String c2 s2).
  assert (Hp : ~ (Some text = None \/ Some text = Some EmptyString))
    by (intros [H | H]; discriminate).
  assert (Hn : ~ (Some name = None \/ Some name = Some EmptyString))
    by (intros [H | H]; discriminate).
  destruct (get_pgn_games text) as [|g gs] eqn:Hgames.
  - simpl. right. repeat split; auto. exists text. split; auto.
  - assert (Hstart : start_game (g :: gs) name create_bot_game file
                     = create_games name create_bot_game (g :: gs) 1 [] file)
      by reflexivity.
    rewrite Hstart.
    destruct (create_games_spec name create_bot_game (g :: gs) 1 [] file)
      as (ids & Hlen & _ & Hstored & _ & Hres).
    destruct (create_games name create_bot_game (g :: gs) 1 [] file)
      as [file1 r].
    simpl fst in Hstored. simpl snd in Hres.
    destruct Hres as [[Hl ->] | (Hl & _ & ->)].
    + simpl app. destruct ids as [|first rest]; [discriminate|].
      exists text, name, first.
      split; [reflexivity|]. split; [discriminate|].
      split; [reflexivity|]. split; [discriminate|].
      split; [reflexivity|]. split; [reflexivity|].
      split; [rewrite Hgames; exact Hl | exact Hstored].
    + right. repeat split; auto. exists text. split; auto. right.
      exists (1 + List.length ids). split; [|reflexivity].
      rewrite Hgames. simpl in Hl |- *. lia.
Qed.
